(** * pySHAPE: shape, form and roughness descriptors

    A shallow embedding of the numerical core of pySHAPE
    ([pyshape/form.py], [pyshape/geometry.py], [pyshape/roughness.py],
    [pyshape/io.py]), of the cube of [examples/util_meshes.py] and of the
    volume of [viewer_app/gui.py], together with the properties its
    specification states and further properties of the code.

    Conventions of the embedding.
    - A Python [float] or a NumPy [float64] is a real number of [R]: rounding,
      overflow and signed zeros are idealised away.  Where the code itself
      produces or tests an infinity or a not-a-number, the value is a
      [npfloat] (a real, an infinity or NaN).
    - Where rounding or underflow decides which branch the code takes or
      which exception it raises, the function is embedded a second time on
      binary64 numbers, the primitive floats of the kernel (the modules
      [Binary64], [Form64] and [Roughness64]), and the outcome is stated
      there; the values stay stated on the reals.
    - A Python or NumPy integer is a [Z].
    - A function that can raise returns a [result]: [Ok v] or [Raise e], the
      exception carrying the message of the source.  The IndexError of a
      NumPy index, which only the volume of the viewer can raise, is [None].
    - The solvers and codecs of NumPy and of the Python runtime
      ([np.linalg.eig], [np.linalg.eigh], [float(str)], the UTF-8 codec, the
      value of a [float32] bit pattern) are parameters of the section that
      uses them; [np.argsort], [np.unique], [np.round] and the methods of
      [str] are modelled after their documented behaviour. *)

From Stdlib Require Import String Ascii Reals Lra Lia ZArith Bool List Psatz.
From Stdlib Require Import Sorted Permutation.
From Stdlib.Strings Require Import Byte.
From Stdlib Require Floats Uint63.
Import ListNotations.

Set Implicit Arguments.

(** ** Python results and exceptions *)

Module Py.

Inductive exn : Type :=
| ValueError (msg : string)
| ZeroDivisionError (msg : string).

Inductive result (A : Type) : Type :=
| Ok (a : A)
| Raise (e : exn).

Arguments Ok {A} a.
Arguments Raise {A} e.

Definition bind {A B : Type} (r : result A) (k : A -> result B) : result B :=
  match r with
  | Ok a => k a
  | Raise e => Raise e
  end.

(** [str(e)] *)
Definition message (e : exn) : string :=
  match e with
  | ValueError msg => msg
  | ZeroDivisionError msg => msg
  end.

Definition raises_ValueError {A : Type} (r : result A) : Prop :=
  exists msg, r = Raise (ValueError msg).

End Py.

Import Py.

Notation "x <- r ;; k" := (Py.bind r (fun x => k))
  (at level 61, r at next level, right associativity).

Notation "' p <- r ;; k" := (Py.bind r (fun p => k))
  (at level 61, p pattern, r at next level, right associativity).

(** ** Comparisons of floats, as booleans *)

Definition Rltb (x y : R) : bool := if Rlt_dec x y then true else false.
Definition Rleb (x y : R) : bool := if Rle_dec x y then true else false.
Definition Reqb (x y : R) : bool := if Req_dec_T x y then true else false.

Lemma Rltb_true (x y : R) : Rltb x y = true <-> (x < y)%R.
Proof. unfold Rltb; destruct (Rlt_dec x y); split; intros; try easy. Qed.

Lemma Rltb_false (x y : R) : Rltb x y = false <-> (y <= x)%R.
Proof.
  unfold Rltb; destruct (Rlt_dec x y); split; intros; try easy; lra.
Qed.

Lemma Rleb_true (x y : R) : Rleb x y = true <-> (x <= y)%R.
Proof. unfold Rleb; destruct (Rle_dec x y); split; intros; try easy. Qed.

Lemma Rleb_false (x y : R) : Rleb x y = false <-> (y < x)%R.
Proof.
  unfold Rleb; destruct (Rle_dec x y); split; intros; try easy; lra.
Qed.

Lemma Reqb_true (x y : R) : Reqb x y = true <-> x = y.
Proof. unfold Reqb; destruct (Req_dec_T x y); split; intros; try easy. Qed.

Lemma Reqb_false (x y : R) : Reqb x y = false <-> x <> y.
Proof. unfold Reqb; destruct (Req_dec_T x y); split; intros; try easy. Qed.

Arguments Rltb : simpl never.
Arguments Rleb : simpl never.
Arguments Reqb : simpl never.

Lemma Reqb_refl (x : R) : Reqb x x = true.
Proof. now apply Reqb_true. Qed.

(** Decide the float comparisons of a goal once the arithmetic facts are in
    the context. *)
Ltac rcompare :=
  repeat match goal with
  | |- context [Rltb ?x ?y] =>
      first [ rewrite (proj2 (Rltb_true x y)) by lra
            | rewrite (proj2 (Rltb_false x y)) by lra ]
  | |- context [Rleb ?x ?y] =>
      first [ rewrite (proj2 (Rleb_true x y)) by lra
            | rewrite (proj2 (Rleb_false x y)) by lra ]
  | |- context [Reqb ?x ?y] =>
      first [ rewrite (proj2 (Reqb_true x y)) by lra
            | rewrite (proj2 (Reqb_false x y)) by lra ]
  end.

(** Evaluate everything but the arithmetic of the reals. *)
Ltac reval :=
  cbv -[Rplus Rminus Rmult Rinv Rdiv Ropp Rabs sqrt IZR Q2R Rle Rlt Rge Rgt
        Rltb Rleb Reqb].

(** Split an equation between tuples into the equations of the entries. *)
Ltac split_pairs :=
  repeat match goal with |- (_, _) = (_, _) => apply f_equal2 end.

(** ** Scalar arithmetic of the Python runtime *)

Module PyFloat.

Local Open Scope R_scope.
Local Open Scope string_scope.

(** [x / y] on Python floats: a zero divisor raises. *)
Definition truediv (x y : R) : result R :=
  if Reqb y 0 then Raise (ZeroDivisionError "float division by zero")
  else Ok (x / y).

(** [x ** y] on Python floats, for a base [x >= 0] and an exponent [y > 0]
    (the only use in this code, behind the [volume < 0] guard):
    [0.0 ** y] is [0.0], and a positive base gives [exp (y * ln x)]. *)
Definition pow (x y : R) : R :=
  if Reqb x 0 then 0 else Rpower x y.

Lemma truediv_nonzero (x y : R) : y <> 0 -> truediv x y = Ok (x / y).
Proof. intros H; unfold truediv; now rewrite (proj2 (Reqb_false y 0)). Qed.

Lemma truediv_zero (x : R) :
  truediv x 0 = Raise (ZeroDivisionError "float division by zero").
Proof. unfold truediv; now rewrite Reqb_refl. Qed.

Lemma pow_zero (y : R) : pow 0 y = 0.
Proof. unfold pow; now rewrite Reqb_refl. Qed.

Lemma pow_pos (x y : R) : 0 < x -> pow x y = Rpower x y /\ 0 < pow x y.
Proof.
  intros H; unfold pow; rewrite (proj2 (Reqb_false x 0)) by lra.
  split; [reflexivity | unfold Rpower; apply exp_pos].
Qed.

End PyFloat.

(** ** Binary64 arithmetic of the Python runtime and of NumPy *)

Module Binary64.

Import PrimFloat.
Local Open Scope string_scope.
Local Open Scope float_scope.

(** The exceptions the functions embedded on binary64 can raise. *)
Inductive exn : Type :=
| ValueError (msg : string)
| ZeroDivisionError (msg : string)
| OverflowError (msg : string).

Inductive result (A : Type) : Type :=
| Ok (a : A)
| Raise (e : exn).

Arguments Ok {A} a.
Arguments Raise {A} e.

Definition bind {A B : Type} (r : result A) (k : A -> result B) : result B :=
  match r with
  | Ok a => k a
  | Raise e => Raise e
  end.

Declare Scope binary64_scope.

Notation "x <- r ;; k" := (bind r (fun x => k))
  (at level 61, r at next level, right associativity) : binary64_scope.

Notation "' p <- r ;; k" := (bind r (fun p => k))
  (at level 61, p pattern, r at next level, right associativity) : binary64_scope.

(** [x / y] on Python floats: a divisor equal to zero, of either sign,
    raises. *)
Definition truediv (x y : float) : result float :=
  if y =? 0 then Raise (ZeroDivisionError "float division by zero")
  else Ok (x / y).

(** The count of a reduction, as a float. *)
Definition of_nat (n : nat) : float := of_uint63 (Uint63.of_Z (Z.of_nat n)).

(** The float nearest to the decimal [1e-170], as Python reads it. *)
Definition tiny : float := 0x1.3529ba7d19eafp-565.


Lemma truediv_raises (x y : float) :
  (y =? 0) = true -> truediv x y = Raise (ZeroDivisionError "float division by zero").
Proof. intros H. unfold truediv. now rewrite H. Qed.

Lemma truediv_returns (x y : float) : (y =? 0) = false -> truediv x y = Ok (x / y).
Proof. intros H. unfold truediv. now rewrite H. Qed.

(** The square of the positive number [1e-170] underflows to zero. *)
Lemma tiny_square_underflows : (0 <? tiny) = true /\ (tiny * tiny =? 0) = true.
Proof. split; reflexivity. Qed.

End Binary64.

(** ** [pyshape/form.py] : scalar form descriptors *)

Module Form.

Local Open Scope R_scope.
Local Open Scope string_scope.

(** [convexity(volume, volume_convex_hull)] *)
Definition convexity (volume volume_convex_hull : R) : result R :=
  if Rleb volume_convex_hull 0 then Raise (ValueError "volume_convex_hull must be > 0")
  else if Rltb volume 0 then Raise (ValueError "volume must be >= 0")
  else PyFloat.truediv volume volume_convex_hull.

(** [sphericity_wadell(volume, surface_area)] *)
Definition sphericity_wadell (volume surface_area : R) : result R :=
  if Rltb volume 0 then Raise (ValueError "volume must be >= 0")
  else if Rleb surface_area 0 then Raise (ValueError "surface_area must be > 0")
  else
    q <- PyFloat.truediv (6 * volume) PI ;;
    PyFloat.truediv (6 * volume) (PyFloat.pow q (1 / 3) * surface_area).

(** The value the specification's table gives for the Wadell sphericity. *)
Definition wadell_formula (V A : R) : R :=
  6 * V / (Rpower (6 * V / PI) (1 / 3) * A).

(** [sphericity_krumbein(S, I, L)], idealised to real numbers, where [L * L]
    is not zero for [L > 0]; in binary64 the product can underflow to zero,
    and what the function raises is stated in [Form64]. *)
Definition sphericity_krumbein (S I L : R) : result R :=
  if Rleb L 0 || Rltb I 0 || Rltb S 0
  then Raise (ValueError "dimensions must be non-negative and L > 0")
  else
    q <- PyFloat.truediv (I * S) (L * L) ;;
    Ok (PyFloat.pow q (1 / 3)).

(** [form_parameters_kong_and_fonseca(S, I, L)] *)
Definition form_parameters_kong_and_fonseca (S I L : R) : result (R * R) :=
  flatness <- (if negb (Reqb I 0) then PyFloat.truediv (I - S) I else Ok 0) ;;
  elongation <- (if negb (Reqb L 0) then PyFloat.truediv (L - I) L else Ok 0) ;;
  Ok (flatness, elongation).

(** [form_parameters_potticary_et_al(S, I, L)] *)
Definition form_parameters_potticary_et_al (S I L : R) : result (R * R) :=
  let denom := L + I + S in
  if Reqb denom 0 then Ok (0, 0)
  else
    flatness <- PyFloat.truediv (2.0 * (I - S)) denom ;;
    elongation <- PyFloat.truediv (L - I) denom ;;
    Ok (flatness, elongation).

(** [form_parameters_zingg(S, I, L)] *)
Definition form_parameters_zingg (S I L : R) : result (R * R) :=
  c_over_b <- (if negb (Reqb I 0) then PyFloat.truediv S I else Ok 0) ;;
  b_over_a <- (if negb (Reqb L 0) then PyFloat.truediv I L else Ok 0) ;;
  Ok (c_over_b, b_over_a).


(** [form_functions_2(S, I, L)] *)
Definition form_functions_2 (S I L : R) : result (R * R * R * R * R * R * R) :=
  spK <- sphericity_krumbein S I L ;;
  '(flP, elP) <- form_parameters_potticary_et_al S I L ;;
  '(flK, elK) <- form_parameters_kong_and_fonseca S I L ;;
  '(SIZ, ILZ) <- form_parameters_zingg S I L ;;
  Ok (spK, flP, elP, flK, elK, SIZ, ILZ).

(** For a positive volume and a positive area the function returns the
    value of the formula. *)
Lemma sphericity_wadell_positive (V A : R) :
  0 < V -> 0 < A -> sphericity_wadell V A = Ok (wadell_formula V A).
Proof.
  intros HV HA. unfold sphericity_wadell, wadell_formula. rcompare.
  assert (HPI := PI_RGT_0).
  rewrite PyFloat.truediv_nonzero by lra. cbn [Py.bind].
  assert (Hq : 0 < 6 * V / PI) by (apply Rdiv_lt_0_compat; lra).
  destruct (PyFloat.pow_pos (1 / 3) Hq) as [Hp Hpos].
  rewrite PyFloat.truediv_nonzero by nra.
  now rewrite Hp.
Qed.


(** ValueError is raised exactly when the area is not positive or the
    volume is negative. *)
Lemma sphericity_wadell_domain_error (V A : R) :
  raises_ValueError (sphericity_wadell V A) <-> (A <= 0 \/ V < 0).
Proof.
  unfold raises_ValueError, sphericity_wadell. split.
  - intros [msg H].
    destruct (Rlt_dec V 0) as [HV|HV]; [now right|].
    destruct (Rle_dec A 0) as [HA|HA]; [now left|].
    exfalso. revert H. rcompare.
    assert (HPI := PI_RGT_0).
    rewrite PyFloat.truediv_nonzero by lra. cbn [Py.bind].
    unfold PyFloat.truediv. destruct (Reqb _ 0); discriminate.
  - intros H.
    destruct (Rlt_dec V 0) as [HV|HV].
    + rcompare. eauto.
    + assert (A <= 0) by (destruct H; [assumption | contradiction]).
      rcompare. eauto.
Qed.

(** The cube root of a cube, by [**]. *)
Lemma pow_third_cube (x : R) : 0 < x -> PyFloat.pow (x ^ 3) (1 / 3) = x.
Proof.
  intros Hx. assert (H3 : 0 < x ^ 3) by (apply pow_lt; exact Hx).
  destruct (PyFloat.pow_pos (1 / 3) H3) as [-> _].
  rewrite <- (Rpower_pow 3 x Hx), Rpower_mult.
  replace (INR 3 * (1 / 3)) with 1 by (cbn; field).
  now apply Rpower_1.
Qed.

(** X2. The test of the repository: a sphere of any radius has Wadell
    sphericity 1. *)
Lemma sphericity_wadell_sphere (r : R) :
  0 < r -> sphericity_wadell (4 / 3 * PI * r ^ 3) (4 * PI * r ^ 2) = Ok 1.
Proof.
  intros Hr. assert (HPI := PI_RGT_0).
  assert (Hr3 : 0 < r ^ 3) by (apply pow_lt; exact Hr).
  assert (Hr2 : 0 < r ^ 2) by (apply pow_lt; exact Hr).
  unfold sphericity_wadell.
  rewrite (proj2 (Rltb_false (4 / 3 * PI * r ^ 3) 0)) by nra.
  rewrite (proj2 (Rleb_false (4 * PI * r ^ 2) 0)) by nra.
  rewrite PyFloat.truediv_nonzero by lra. cbn [Py.bind].
  replace (6 * (4 / 3 * PI * r ^ 3) / PI) with ((2 * r) ^ 3) by (field; lra).
  rewrite pow_third_cube by lra.
  rewrite PyFloat.truediv_nonzero by nra.
  f_equal. field. split; lra.
Qed.

Lemma sphericity_wadell_positive_unit :
  sphericity_wadell 1 1 = Ok (wadell_formula 1 1).
Proof. apply sphericity_wadell_positive; lra. Defined.

Lemma sphericity_wadell_sphere_unit :
  sphericity_wadell (4 / 3 * PI * 1 ^ 3) (4 * PI * 1 ^ 2) = Ok 1.
Proof. apply sphericity_wadell_sphere; lra. Defined.

(** The test of the repository: [convexity(2.0, 2.5)] is 0.8, and a
    convex hull volume that is not positive is refused. *)
Lemma convexity_example :
  convexity 2 2.5 = Ok 0.8 /\
  forall V Vch, Vch <= 0 -> convexity V Vch = Raise (ValueError "volume_convex_hull must be > 0").
Proof.
  split.
  - unfold convexity. rcompare. rewrite PyFloat.truediv_nonzero by lra. f_equal. lra.
  - intros V Vch H. unfold convexity. now rewrite (proj2 (Rleb_true Vch 0) H).
Qed.

(** *** The remaining descriptors of [form.py] *)

Local Ltac truediv_ok :=
  repeat (rewrite PyFloat.truediv_nonzero by (try lra; nra); cbn [Py.bind]).

(** The cube root by [**] is the inverse of the cube. *)
Lemma pow_third_spec (x : R) :
  0 <= x -> 0 <= PyFloat.pow x (1 / 3) /\ PyFloat.pow x (1 / 3) ^ 3 = x.
Proof.
  intros [Hx | <-].
  - destruct (PyFloat.pow_pos (1 / 3) Hx) as [-> _]. split.
    + left. unfold Rpower. apply exp_pos.
    + rewrite <- Rpower_pow by (unfold Rpower; apply exp_pos).
      rewrite Rpower_mult.
      replace (1 / 3 * INR 3) with 1 by (cbn; field).
      now apply Rpower_1.
  - rewrite PyFloat.pow_zero. split; [lra | ring].
Qed.





(** X1. [convexity] returns the ratio for a positive hull volume and a volume
    that is not negative, and a ValueError otherwise; the hull volume is
    tested first.  The ratio is at most 1 exactly when the volume does not
    exceed the hull volume. *)
Lemma convexity_outcomes (V Vch : R) :
  (Vch <= 0 ->
   convexity V Vch = Raise (ValueError "volume_convex_hull must be > 0")) /\
  (0 < Vch -> V < 0 ->
   convexity V Vch = Raise (ValueError "volume must be >= 0")) /\
  (0 < Vch -> 0 <= V ->
   convexity V Vch = Ok (V / Vch) /\ 0 <= V / Vch /\
   (V / Vch <= 1 <-> V <= Vch)).
Proof.
  unfold convexity. repeat split; intros; rcompare; try reflexivity.
  - now truediv_ok.
  - apply Rle_mult_inv_pos; assumption.
  - assert (E : V = V / Vch * Vch) by (field; lra). nra.
  - assert (E : V = V / Vch * Vch) by (field; lra). nra.
Qed.




(** X6. The three pairs of form parameters never raise: each division is behind a
    test of its divisor, and a zero divisor gives the value 0. *)
Lemma form_parameters_never_raise (S I L : R) :
  (exists fl el, form_parameters_kong_and_fonseca S I L = Ok (fl, el) /\
                 (I = 0 -> fl = 0) /\ (L = 0 -> el = 0)) /\
  (exists fl el, form_parameters_potticary_et_al S I L = Ok (fl, el) /\
                 (L + I + S = 0 -> fl = 0 /\ el = 0)) /\
  (exists r1 r2, form_parameters_zingg S I L = Ok (r1, r2) /\
                 (I = 0 -> r1 = 0) /\ (L = 0 -> r2 = 0)).
Proof.
  unfold form_parameters_kong_and_fonseca, form_parameters_potticary_et_al,
    form_parameters_zingg.
  repeat split.
  - destruct (Req_dec I 0) as [HI | HI], (Req_dec L 0) as [HL | HL];
      rcompare; cbn [negb Py.bind]; truediv_ok; do 2 eexists;
      (split; [reflexivity | split; intros; lra]).
  - destruct (Req_dec (L + I + S) 0) as [HD | HD];
      rcompare; truediv_ok; do 2 eexists;
      (split; [reflexivity | intros; lra]).
  - destruct (Req_dec I 0) as [HI | HI], (Req_dec L 0) as [HL | HL];
      rcompare; cbn [negb Py.bind]; truediv_ok; do 2 eexists;
      (split; [reflexivity | split; intros; lra]).
Qed.

Lemma div_unit_interval (a b : R) : 0 <= a -> a <= b -> 0 < b -> 0 <= a / b <= 1.
Proof.
  intros Ha Hab Hb. assert (E : a = a / b * b) by (field; lra).
  split; [apply Rle_mult_inv_pos; assumption | nra].
Qed.

(** X7. For ordered axes [0 <= S <= I <= L], [L > 0], the flatness and the
    elongation of Kong and Fonseca and of Potticary et al. and the two ratios
    of Zingg all lie in [0, 1]. *)
Lemma form_parameters_ordered_range (S I L : R) :
  0 <= S -> S <= I -> I <= L -> 0 < L ->
  exists flK elK flP elP r1 r2,
    form_parameters_kong_and_fonseca S I L = Ok (flK, elK) /\
    form_parameters_potticary_et_al S I L = Ok (flP, elP) /\
    form_parameters_zingg S I L = Ok (r1, r2) /\
    0 <= flK <= 1 /\ 0 <= elK <= 1 /\ 0 <= flP <= 1 /\ 0 <= elP <= 1 /\
    0 <= r1 <= 1 /\ 0 <= r2 <= 1.
Proof.
  intros HS HSI HIL HL.
  unfold form_parameters_kong_and_fonseca, form_parameters_potticary_et_al,
    form_parameters_zingg.
  destruct (Req_dec I 0) as [HI | HI].
  - subst I. assert (S = 0) by lra. subst S.
    rcompare. cbn [negb Py.bind]. truediv_ok.
    do 6 eexists. do 3 (split; [reflexivity|]).
    repeat split; try lra; apply div_unit_interval; lra.
  - rcompare. cbn [negb Py.bind]. truediv_ok.
    do 6 eexists. do 3 (split; [reflexivity|]).
    repeat split; apply div_unit_interval; lra.
Qed.

Lemma form_parameters_ordered_range_witness :
  exists flK elK flP elP r1 r2,
    form_parameters_kong_and_fonseca 1 2 4 = Ok (flK, elK) /\
    form_parameters_potticary_et_al 1 2 4 = Ok (flP, elP) /\
    form_parameters_zingg 1 2 4 = Ok (r1, r2) /\
    0 <= flK <= 1 /\ 0 <= elK <= 1 /\ 0 <= flP <= 1 /\ 0 <= elP <= 1 /\
    0 <= r1 <= 1 /\ 0 <= r2 <= 1.
Proof. apply form_parameters_ordered_range; lra. Defined.

(** Where the divisors are not 0, the flatness and the elongation of Kong and
    Fonseca are the complements to 1 of the two ratios of Zingg. *)
Lemma kong_fonseca_zingg_complement (S I L : R) :
  I <> 0 -> L <> 0 ->
  exists flK elK r1 r2,
    form_parameters_kong_and_fonseca S I L = Ok (flK, elK) /\
    form_parameters_zingg S I L = Ok (r1, r2) /\
    flK = 1 - r1 /\ elK = 1 - r2.
Proof.
  intros HI HL.
  unfold form_parameters_kong_and_fonseca, form_parameters_zingg.
  rcompare. cbn [negb Py.bind]. truediv_ok.
  do 4 eexists. do 2 (split; [reflexivity|]).
  split; field; assumption.
Qed.

Lemma kong_fonseca_zingg_complement_witness :
  exists flK elK r1 r2,
    form_parameters_kong_and_fonseca 1 2 4 = Ok (flK, elK) /\
    form_parameters_zingg 1 2 4 = Ok (r1, r2) /\
    flK = 1 - r1 /\ elK = 1 - r2.
Proof. apply kong_fonseca_zingg_complement; lra. Defined.



(** C1, at the input [sphericity_wadell(0.0, 1.0)]: the volume 0 passes the
    guard [volume < 0], and the quotient [0.0 / (0.0 * 1.0)] raises
    ZeroDivisionError instead of returning a value. *)
Theorem sphericity_wadell_zero_volume_raises :
  sphericity_wadell 0 1 = Raise (ZeroDivisionError "float division by zero").
Proof.
  unfold sphericity_wadell. rcompare.
  assert (HPI := PI_RGT_0).
  rewrite PyFloat.truediv_nonzero by lra. cbn [Py.bind].
  replace (6 * 0 / PI) with 0 by (field; lra).
  rewrite PyFloat.pow_zero, Rmult_0_l.
  apply PyFloat.truediv_zero.
Qed.

End Form.

(** ** [pyshape/form.py] on binary64: the exceptions of the axis descriptors *)

Module Form64.

Import PrimFloat Binary64.
Local Open Scope string_scope.
Local Open Scope float_scope.
Local Open Scope binary64_scope.

Section AxisDescriptors.

(** The [pow] of the C library, which [x ** y] on Python floats calls; for a
    base that is not negative and the exponent [1.0 / 3.0] it raises
    nothing. *)
Variable float_pow : float -> float -> float.

(** [sphericity_krumbein(S, I, L)] *)
Definition sphericity_krumbein (S I L : float) : result float :=
  if (L <=? 0) || (I <? 0) || (S <? 0)
  then Raise (ValueError "dimensions must be non-negative and L > 0")
  else
    q <- truediv (I * S) (L * L) ;;
    Ok (float_pow q (1 / 3)).

(** [form_parameters_kong_and_fonseca(S, I, L)] *)
Definition form_parameters_kong_and_fonseca (S I L : float) : result (float * float) :=
  flatness <- (if negb (I =? 0) then truediv (I - S) I else Ok 0) ;;
  elongation <- (if negb (L =? 0) then truediv (L - I) L else Ok 0) ;;
  Ok (flatness, elongation).

(** [form_parameters_potticary_et_al(S, I, L)] *)
Definition form_parameters_potticary_et_al (S I L : float) : result (float * float) :=
  let denom := L + I + S in
  if denom =? 0 then Ok (0, 0)
  else
    flatness <- truediv (2 * (I - S)) denom ;;
    elongation <- truediv (L - I) denom ;;
    Ok (flatness, elongation).

(** [form_parameters_zingg(S, I, L)] *)
Definition form_parameters_zingg (S I L : float) : result (float * float) :=
  c_over_b <- (if negb (I =? 0) then truediv S I else Ok 0) ;;
  b_over_a <- (if negb (L =? 0) then truediv I L else Ok 0) ;;
  Ok (c_over_b, b_over_a).

(** [form_functions_2(S, I, L)] *)
Definition form_functions_2 (S I L : float)
    : result (float * float * float * float * float * float * float) :=
  spK <- sphericity_krumbein S I L ;;
  '(flP, elP) <- form_parameters_potticary_et_al S I L ;;
  '(flK, elK) <- form_parameters_kong_and_fonseca S I L ;;
  '(SIZ, ILZ) <- form_parameters_zingg S I L ;;
  Ok (spK, flP, elP, flK, elK, SIZ, ILZ).

(** The guard of [sphericity_krumbein]. *)
Definition bad_axes (S I L : float) : bool := (L <=? 0) || (I <? 0) || (S <? 0).

Lemma krumbein_cases (S I L : float) :
  sphericity_krumbein S I L =
  if bad_axes S I L
  then Raise (ValueError "dimensions must be non-negative and L > 0")
  else if L * L =? 0
  then Raise (ZeroDivisionError "float division by zero")
  else Ok (float_pow (I * S / (L * L)) (1 / 3)).
Proof.
  unfold sphericity_krumbein, bad_axes, truediv.
  destruct ((L <=? 0) || (I <? 0) || (S <? 0)); [reflexivity|].
  now destruct (L * L =? 0).
Qed.

Lemma krumbein_tiny :
  sphericity_krumbein 1 1 tiny = Raise (ZeroDivisionError "float division by zero").
Proof. rewrite krumbein_cases. reflexivity. Qed.

(** The three pairs of form parameters raise nothing on binary64 either. *)
Lemma form_parameters_return (S I L : float) :
  (exists fl el, form_parameters_potticary_et_al S I L = Ok (fl, el)) /\
  (exists fl el, form_parameters_kong_and_fonseca S I L = Ok (fl, el)) /\
  (exists r1 r2, form_parameters_zingg S I L = Ok (r1, r2)).
Proof.
  unfold form_parameters_potticary_et_al, form_parameters_kong_and_fonseca,
    form_parameters_zingg, truediv.
  split; [|split].
  - destruct (L + I + S =? 0); cbn; eauto.
  - destruct (I =? 0), (L =? 0); cbn; eauto.
  - destruct (I =? 0), (L =? 0); cbn; eauto.
Qed.

(** X4. On binary64, [sphericity_krumbein] raises its ValueError exactly when
    the guard [L <= 0 or I < 0 or S < 0] holds; behind the guard it raises
    ZeroDivisionError exactly when the product [L * L] is zero, as it is by
    underflow for the positive [L = 1e-170]; otherwise it returns
    [((I * S) / (L * L)) ** (1.0 / 3.0)].  On the reals, a value [k] it
    returns is the number [k >= 0] with [k^3 = I * S / L^2]. *)
Lemma sphericity_krumbein_float_outcomes (S I L : float) :
  (bad_axes S I L = true ->
   sphericity_krumbein S I L =
   Raise (ValueError "dimensions must be non-negative and L > 0")) /\
  (bad_axes S I L = false -> (L * L =? 0) = true ->
   sphericity_krumbein S I L = Raise (ZeroDivisionError "float division by zero")) /\
  (bad_axes S I L = false -> (L * L =? 0) = false ->
   sphericity_krumbein S I L = Ok (float_pow (I * S / (L * L)) (1 / 3))) /\
  (bad_axes 1 1 tiny = false /\
   sphericity_krumbein 1 1 tiny = Raise (ZeroDivisionError "float division by zero")) /\
  (forall (Sr Ir Lr k : R),
     Form.sphericity_krumbein Sr Ir Lr = Py.Ok k ->
     (0 <= k /\ k ^ 3 = Ir * Sr / (Lr * Lr))%R).
Proof.
  rewrite krumbein_cases.
  split; [now intros -> | split; [now intros -> -> | split; [now intros -> ->|]]].
  split; [split; [reflexivity | exact krumbein_tiny]|].
  intros Sr Ir Lr k H. unfold Form.sphericity_krumbein in H.
  destruct (Rleb Lr 0) eqn:EL; [discriminate|].
  destruct (Rltb Ir 0) eqn:EI; [discriminate|].
  destruct (Rltb Sr 0) eqn:ES; [discriminate|].
  apply Rleb_false in EL. apply Rltb_false in EI, ES. cbn [orb] in H.
  rewrite PyFloat.truediv_nonzero in H by nra. cbn [Py.bind] in H.
  injection H as <-. apply Form.pow_third_spec. apply Rle_mult_inv_pos; nra.
Qed.

(** X9. On binary64, [form_functions_2] raises exactly what
    [sphericity_krumbein] raises, the ValueError of the guard or the
    ZeroDivisionError of an underflowing [L * L] as at [(1, 1, 1e-170)], and
    nothing else: when [sphericity_krumbein] returns, the seven values are
    its value and those of the three pairs of form parameters. *)
Lemma form_functions_2_float_outcomes (S I L : float) :
  (forall e, sphericity_krumbein S I L = Raise e -> form_functions_2 S I L = Raise e) /\
  (forall spK,
     sphericity_krumbein S I L = Ok spK ->
     exists flP elP flK elK SIZ ILZ,
       form_functions_2 S I L = Ok (spK, flP, elP, flK, elK, SIZ, ILZ) /\
       form_parameters_potticary_et_al S I L = Ok (flP, elP) /\
       form_parameters_kong_and_fonseca S I L = Ok (flK, elK) /\
       form_parameters_zingg S I L = Ok (SIZ, ILZ)) /\
  form_functions_2 1 1 tiny = Raise (ZeroDivisionError "float division by zero").
Proof.
  split; [|split].
  - intros e H. unfold form_functions_2. now rewrite H.
  - intros spK H. unfold form_functions_2. rewrite H. cbn [bind].
    destruct (form_parameters_return S I L)
      as ((flP & elP & HP) & (flK & elK & HK) & (r1 & r2 & HZ)).
    rewrite HP, HK, HZ. cbn [bind]. now exists flP, elP, flK, elK, r1, r2.
  - unfold form_functions_2. now rewrite krumbein_tiny.
Qed.

End AxisDescriptors.

End Form64.

(** ** Vectors and matrices of three reals *)

Module Vec.

Local Open Scope R_scope.

Definition vec3 : Type := (R * R * R)%type.

(** A 3x3 matrix, by rows. *)
Definition mat3 : Type := (vec3 * vec3 * vec3)%type.

Definition vzero : vec3 := (0, 0, 0).

Definition vx (a : vec3) : R := fst (fst a).
Definition vy (a : vec3) : R := snd (fst a).
Definition vz (a : vec3) : R := snd a.

Definition vadd (a b : vec3) : vec3 := (vx a + vx b, vy a + vy b, vz a + vz b).
Definition vsub (a b : vec3) : vec3 := (vx a - vx b, vy a - vy b, vz a - vz b).
Definition vscale (k : R) (a : vec3) : vec3 := (k * vx a, k * vy a, k * vz a).
Definition vdiv (a : vec3) (k : R) : vec3 := (vx a / k, vy a / k, vz a / k).

(** [np.einsum('ij,ij->i', a, b)], one row. *)
Definition dot (a b : vec3) : R := vx a * vx b + vy a * vy b + vz a * vz b.

(** [np.cross(a, b)], one row. *)
Definition cross (a b : vec3) : vec3 :=
  (vy a * vz b - vz a * vy b,
   vz a * vx b - vx a * vz b,
   vx a * vy b - vy a * vx b).

(** [np.linalg.norm(v, axis=1)], one row. *)
Definition norm (a : vec3) : R := sqrt (vx a * vx a + vy a * vy a + vz a * vz a).

Definition mzero : mat3 := (vzero, vzero, vzero).

Definition madd (m n : mat3) : mat3 :=
  let '(m0, m1, m2) := m in
  let '(n0, n1, n2) := n in
  (vadd m0 n0, vadd m1 n1, vadd m2 n2).

Definition mscale (k : R) (m : mat3) : mat3 :=
  let '(m0, m1, m2) := m in (vscale k m0, vscale k m1, vscale k m2).

Definition mdiv (m : mat3) (k : R) : mat3 :=
  let '(m0, m1, m2) := m in (vdiv m0 k, vdiv m1 k, vdiv m2 k).

(** [nk @ nk.T] for a column vector [nk]. *)
Definition outer (a b : vec3) : mat3 :=
  (vscale (vx a) b, vscale (vy a) b, vscale (vz a) b).

Definition trace (m : mat3) : R :=
  let '(m0, m1, m2) := m in vx m0 + vy m1 + vz m2.

(** [np.diag(evals)] *)
Definition diag (d : vec3) : mat3 :=
  ((vx d, 0, 0), (0, vy d, 0), (0, 0, vz d)).

(** The determinant, by the first row. *)
Definition det (m : mat3) : R :=
  let '(m0, m1, m2) := m in dot m0 (cross m1 m2).

(** [arr.sum()] of a 1-D array, and [arr.sum(axis=0)] of an (M, 3) array. *)
Definition rsum (l : list R) : R := fold_right Rplus 0 l.
Definition vsum (l : list vec3) : vec3 := fold_right vadd vzero l.

(** A binary operation applied row by row to two arrays of the same length. *)
Fixpoint map2 {A B C : Type} (f : A -> B -> C) (l : list A) (l' : list B) : list C :=
  match l, l' with
  | a :: t, b :: t' => f a b :: map2 f t t'
  | _, _ => []
  end.

Lemma map2_map {X A B C : Type} (f : A -> B -> C) (g : X -> A) (h : X -> B) (l : list X) :
  map2 f (map g l) (map h l) = map (fun x => f (g x) (h x)) l.
Proof. induction l as [|x l IH]; cbn; [reflexivity | now rewrite IH]. Qed.

Lemma map2_length {A B C : Type} (f : A -> B -> C) (l : list A) (l' : list B) :
  length (map2 f l l') = Nat.min (length l) (length l').
Proof.
  revert l'; induction l as [|a l IH]; intros [|b l']; cbn; try reflexivity.
  now rewrite IH.
Qed.

Lemma map2_nth {A B C : Type} (f : A -> B -> C) (l : list A) (l' : list B)
    (k : nat) (da : A) (db : B) (dc : C) :
  (k < length l)%nat -> (k < length l')%nat ->
  nth k (map2 f l l') dc = f (nth k l da) (nth k l' db).
Proof.
  revert l' k; induction l as [|a l IH]; intros [|b l'] k; cbn; try lia.
  destruct k as [|k]; [reflexivity|]. intros H1 H2. apply IH; lia.
Qed.

Lemma norm_nonneg (a : vec3) : 0 <= norm a.
Proof. unfold norm; apply sqrt_pos. Qed.

Lemma sum_sqr_nonneg (a : vec3) : 0 <= vx a * vx a + vy a * vy a + vz a * vz a.
Proof. nra. Qed.

Lemma norm_zero_inv (a : vec3) : norm a = 0 -> a = vzero.
Proof.
  unfold norm; intros H. apply sqrt_eq_0 in H; [|apply sum_sqr_nonneg].
  destruct a as [[x y] z]; unfold vx, vy, vz, vzero in *; cbn in *.
  assert (Hx : x * x = 0) by nra.
  assert (Hy : y * y = 0) by nra.
  assert (Hz : z * z = 0) by nra.
  apply Rsqr_0_uniq in Hx, Hy, Hz. now subst.
Qed.

Lemma norm_sqr (a : vec3) : norm a * norm a = vx a * vx a + vy a * vy a + vz a * vz a.
Proof. unfold norm; apply sqrt_sqrt, sum_sqr_nonneg. Qed.

Lemma rsum_nonneg (l : list R) : Forall (fun x => 0 <= x) l -> 0 <= rsum l.
Proof. induction 1; unfold rsum in *; cbn; lra. Qed.

Lemma rsum_app (l l' : list R) : rsum (l ++ l') = rsum l + rsum l'.
Proof. induction l; unfold rsum in *; cbn; lra. Qed.

End Vec.

(** ** Index arrays and the automatic conversion of 1-based indices *)

Module Index.

Local Open Scope Z_scope.

(** [arr.min()] and [arr.max()] of a non-empty integer array; the value on
    the empty array is never used, the source tests [arr.size] first. *)
Definition amin (l : list Z) : Z :=
  match l with [] => 0 | x :: t => fold_left Z.min t x end.
Definition amax (l : list Z) : Z :=
  match l with [] => 0 | x :: t => fold_left Z.max t x end.

(** [arr.size and arr.min() == 1 and arr.max() == N] *)
Definition one_based (entries : list Z) (N : nat) : bool :=
  negb (Nat.eqb (length entries) 0) && (amin entries =? 1) && (amax entries =? Z.of_nat N).

(** [arr.size and (arr.min() < 0 or arr.max() >= N)] *)
Definition out_of_range (entries : list Z) (N : nat) : bool :=
  negb (Nat.eqb (length entries) 0) && ((amin entries <? 0) || (Z.of_nat N <=? amax entries)).

(** [nodes[i]] for an index already checked to lie in [0, N). *)
Definition take {A : Type} (d : A) (nodes : list A) (i : Z) : A := nth (Z.to_nat i) nodes d.

(** [nodes[idx]] for an index array [idx]. *)
Definition gather {A : Type} (d : A) (nodes : list A) (idx : list Z) : list A :=
  map (take d nodes) idx.

Lemma fold_min_le (t : list Z) (x : Z) :
  fold_left Z.min t x <= x /\ Forall (fun y => fold_left Z.min t x <= y) t.
Proof.
  revert x; induction t as [|y t IH]; intros x; cbn.
  - split; [lia | constructor].
  - destruct (IH (Z.min x y)) as [H1 H2]. split; [lia|].
    constructor; [lia | assumption].
Qed.

Lemma fold_max_ge (t : list Z) (x : Z) :
  x <= fold_left Z.max t x /\ Forall (fun y => y <= fold_left Z.max t x) t.
Proof.
  revert x; induction t as [|y t IH]; intros x; cbn.
  - split; [lia | constructor].
  - destruct (IH (Z.max x y)) as [H1 H2]. split; [lia|].
    constructor; [lia | assumption].
Qed.

Lemma fold_min_in (t : list Z) (x : Z) : In (fold_left Z.min t x) (x :: t).
Proof.
  revert x; induction t as [|y t IH]; intros x; cbn; [now left|].
  destruct (IH (Z.min x y)) as [H|H]; [|right; now right].
  rewrite <- H. destruct (Z.min_spec x y) as [[_ E]|[_ E]]; rewrite E; auto.
Qed.

Lemma fold_max_in (t : list Z) (x : Z) : In (fold_left Z.max t x) (x :: t).
Proof.
  revert x; induction t as [|y t IH]; intros x; cbn; [now left|].
  destruct (IH (Z.max x y)) as [H|H]; [|right; now right].
  rewrite <- H. destruct (Z.max_spec x y) as [[_ E]|[_ E]]; rewrite E; auto.
Qed.

Lemma amin_le (l : list Z) (y : Z) : In y l -> amin l <= y.
Proof.
  destruct l as [|x t]; [easy|]. cbn. destruct (fold_min_le t x) as [H1 H2].
  intros [<-|H]; [assumption|]. rewrite Forall_forall in H2. now apply H2.
Qed.

Lemma amax_ge (l : list Z) (y : Z) : In y l -> y <= amax l.
Proof.
  destruct l as [|x t]; [easy|]. cbn. destruct (fold_max_ge t x) as [H1 H2].
  intros [<-|H]; [assumption|]. rewrite Forall_forall in H2. now apply H2.
Qed.

Lemma amin_in (l : list Z) : l <> [] -> In (amin l) l.
Proof. destruct l as [|x t]; [easy|]. intros _. apply fold_min_in. Qed.

Lemma amax_in (l : list Z) : l <> [] -> In (amax l) l.
Proof. destruct l as [|x t]; [easy|]. intros _. apply fold_max_in. Qed.

(** [amin] and [amax] commute with the shift [arr - 1]. *)
Lemma amin_pred (l : list Z) : l <> [] -> amin (map Z.pred l) = Z.pred (amin l).
Proof.
  intros Hne. apply Z.le_antisymm.
  - apply amin_le, in_map, amin_in, Hne.
  - assert (Hin : In (amin (map Z.pred l)) (map Z.pred l)).
    { apply amin_in. destruct l; [easy | discriminate]. }
    apply in_map_iff in Hin as [y [Hy Hin]]. rewrite <- Hy.
    apply amin_le in Hin. lia.
Qed.

Lemma amax_pred (l : list Z) : l <> [] -> amax (map Z.pred l) = Z.pred (amax l).
Proof.
  intros Hne. apply Z.le_antisymm.
  - assert (Hin : In (amax (map Z.pred l)) (map Z.pred l)).
    { apply amax_in. destruct l; [easy | discriminate]. }
    apply in_map_iff in Hin as [y [Hy Hin]]. rewrite <- Hy.
    apply amax_ge in Hin. lia.
  - apply amax_ge, in_map, amax_in, Hne.
Qed.

End Index.

(** ** [pyshape/geometry.py] : surface area *)

Module Geometry.

Import Vec Index.
Local Open Scope R_scope.
Local Open Scope string_scope.

(** A row of the (M, 3) integer array [faces] and of the (M, 4) array
    [elements]. *)
Definition face : Type := (Z * Z * Z)%type.
Definition element : Type := (Z * Z * Z * Z)%type.

Definition fcol0 (f : face) : Z := fst (fst f).
Definition fcol1 (f : face) : Z := snd (fst f).
Definition fcol2 (f : face) : Z := snd f.

(** The entries of [faces], in row-major order. *)
Definition face_entries (faces : list face) : list Z :=
  flat_map (fun f => [fcol0 f; fcol1 f; fcol2 f]) faces.

(** [faces - 1] *)
Definition faces_pred (faces : list face) : list face :=
  map (fun f => (Z.pred (fcol0 f), Z.pred (fcol1 f), Z.pred (fcol2 f))) faces.

(** [surface_area(nodes, faces)], for [nodes] of shape (N, 3) and [faces] of
    shape (M, 3): the two shape checks of the source hold by typing. *)
Definition surface_area (nodes : list vec3) (faces : list face) : result R :=
  let faces :=
    if one_based (face_entries faces) (length nodes) then faces_pred faces else faces in
  if out_of_range (face_entries faces) (length nodes)
  then Raise (ValueError "face indices out of range for nodes array")
  else
    let v1 := map2 vsub (gather vzero nodes (map fcol1 faces))
                        (gather vzero nodes (map fcol0 faces)) in
    let v2 := map2 vsub (gather vzero nodes (map fcol2 faces))
                        (gather vzero nodes (map fcol0 faces)) in
    let cross_prod := map2 cross v1 v2 in
    let areas := map (fun c => 0.5 * norm c) cross_prod in
    Ok (rsum areas).

(** The area of one triangle, [0.5 * norm (cross (B - A) (C - A))]. *)
Definition triangle_area (nodes : list vec3) (f : face) : R :=
  0.5 * norm (cross (vsub (take vzero nodes (fcol1 f)) (take vzero nodes (fcol0 f)))
                    (vsub (take vzero nodes (fcol2 f)) (take vzero nodes (fcol0 f)))).

(** The index array the computation runs on, after the automatic detection
    of 1-based indices. *)
Definition faces_used (nodes : list vec3) (faces : list face) : list face :=
  if one_based (face_entries faces) (length nodes) then faces_pred faces else faces.

Lemma surface_area_rows (nodes : list vec3) (faces : list face) :
  surface_area nodes faces =
  if out_of_range (face_entries (faces_used nodes faces)) (length nodes)
  then Raise (ValueError "face indices out of range for nodes array")
  else Ok (rsum (map (triangle_area nodes) (faces_used nodes faces))).
Proof.
  unfold surface_area, faces_used.
  destruct (out_of_range _ _); [reflexivity|].
  unfold gather. rewrite !map_map, !map2_map, map_map. reflexivity.
Qed.

Lemma face_entries_pred (faces : list face) :
  face_entries (faces_pred faces) = map Z.pred (face_entries faces).
Proof.
  unfold face_entries, faces_pred.
  induction faces as [|f faces IH]; cbn; [reflexivity | now rewrite IH].
Qed.

Lemma face_entries_nil (faces : list face) : face_entries faces = [] <-> faces = [].
Proof. destruct faces; cbn; split; intros; try easy. Qed.

Lemma triangle_area_nonneg (nodes : list vec3) (f : face) : 0 <= triangle_area nodes f.
Proof. unfold triangle_area. pose proof (norm_nonneg (cross (vsub (take vzero nodes (fcol1 f)) (take vzero nodes (fcol0 f))) (vsub (take vzero nodes (fcol2 f)) (take vzero nodes (fcol0 f))))). lra. Qed.

Lemma one_based_spec (entries : list Z) (N : nat) :
  one_based entries N = true <->
  entries <> [] /\ amin entries = 1%Z /\ amax entries = Z.of_nat N.
Proof.
  unfold one_based. rewrite !andb_true_iff, negb_true_iff, Nat.eqb_neq, !Z.eqb_eq.
  destruct entries; cbn [length]; intuition (try easy).
Qed.

Lemma out_of_range_spec (entries : list Z) (N : nat) :
  out_of_range entries N = false <->
  Forall (fun i => (0 <= i < Z.of_nat N)%Z) entries.
Proof.
  unfold out_of_range. destruct entries as [|x t].
  - cbn. split; [constructor | reflexivity].
  - cbn [length Nat.eqb negb andb]. rewrite orb_false_iff, Z.ltb_ge, Z.leb_gt.
    rewrite Forall_forall. split.
    + intros [Hmin Hmax] i Hi.
      pose proof (amin_le _ _ Hi). pose proof (amax_ge _ _ Hi). lia.
    + intros H. split.
      * apply (H (amin (x :: t))), amin_in. discriminate.
      * apply (H (amax (x :: t))), amax_in. discriminate.
Qed.

Lemma faces_used_pred_in_range (nodes : list vec3) (faces : list face) :
  one_based (face_entries faces) (length nodes) = true ->
  one_based (face_entries (faces_pred faces)) (length nodes) = false /\
  out_of_range (face_entries (faces_pred faces)) (length nodes) = false.
Proof.
  intros H. apply one_based_spec in H as (Hne & Hmin & Hmax).
  pose proof (amin_pred Hne) as Hmin'. pose proof (amax_pred Hne) as Hmax'.
  rewrite <- face_entries_pred in Hmin', Hmax'.
  assert (Hne' : face_entries (faces_pred faces) <> []).
  { rewrite face_entries_pred. destruct (face_entries faces); [easy | discriminate]. }
  split.
  - destruct (one_based _ _) eqn:E; [|reflexivity].
    apply one_based_spec in E as (_ & E & _). lia.
  - unfold out_of_range. rewrite Hmin', Hmax', Hmin, Hmax.
    apply andb_false_iff; right. apply orb_false_iff.
    split; [apply Z.ltb_ge | apply Z.leb_gt]; lia.
Qed.

Lemma norm_eval (a : vec3) (k : R) :
  0 <= k -> vx a * vx a + vy a * vy a + vz a * vz a = k * k -> norm a = k.
Proof. intros Hk H. unfold norm. rewrite H. now apply sqrt_square. Qed.

(** The unit square of the test suite, split into two triangles. *)
Definition unit_square : list vec3 := [(0, 0, 0); (1, 0, 0); (1, 1, 0); (0, 1, 0)].
Definition unit_square_faces : list face := [(0, 1, 2); (0, 2, 3)]%Z.
Definition unit_square_faces_1based : list face := [(1, 2, 3); (1, 3, 4)]%Z.

(** The area of the unit square split into two triangles is 1. *)
Example surface_area_unit_square : surface_area unit_square unit_square_faces = Ok 1.
Proof.
  rewrite surface_area_rows. cbn. f_equal. unfold triangle_area.
  rewrite !(@norm_eval _ 1); reval; lra.
Qed.

Example surface_area_unit_square_1based :
  surface_area unit_square unit_square_faces_1based = Ok 1.
Proof.
  rewrite surface_area_rows. cbn. f_equal. unfold triangle_area.
  rewrite !(@norm_eval _ 1); reval; lra.
Qed.

(** C3 (amended). The 1-based face indices are converted exactly when the
    face array is non-empty, its minimum is 1 and its maximum is the number
    of nodes; for such a face array the area is the area of the equivalent
    0-based array [faces - 1]. *)
Theorem surface_area_one_based_detected (nodes : list vec3) (faces : list face) :
  (faces <> [] /\ amin (face_entries faces) = 1%Z /\
   amax (face_entries faces) = Z.of_nat (length nodes) ->
   faces_used nodes faces = faces_pred faces /\
   surface_area nodes faces = surface_area nodes (faces_pred faces)) /\
  (~ (faces <> [] /\ amin (face_entries faces) = 1%Z /\
      amax (face_entries faces) = Z.of_nat (length nodes)) ->
   faces_used nodes faces = faces).
Proof.
  split.
  - intros (Hne & Hmin & Hmax).
    assert (H1 : one_based (face_entries faces) (length nodes) = true).
    { apply one_based_spec. rewrite face_entries_nil. auto. }
    destruct (faces_used_pred_in_range nodes faces H1) as [H2 H3].
    split; [unfold faces_used; now rewrite H1|].
    rewrite !surface_area_rows. unfold faces_used. now rewrite H1, H2.
  - intros Hn. unfold faces_used.
    destruct (one_based _ _) eqn:E; [|reflexivity].
    exfalso. apply Hn. apply one_based_spec in E.
    rewrite face_entries_nil in E. exact E.
Qed.

Lemma surface_area_one_based_detected_witness :
  surface_area unit_square unit_square_faces_1based =
  surface_area unit_square (faces_pred unit_square_faces_1based).
Proof.
  apply (proj1 (surface_area_one_based_detected unit_square unit_square_faces_1based)).
  split; [discriminate | split; reflexivity].
Defined.

(** C3 as stated fails: a face array of valid 1-based indices that leaves the
    last node unused is read as 0-based, and the area differs from the area
    of [faces - 1]. *)
Definition skew_nodes : list vec3 := [(0, 0, 0); (1, 0, 0); (0, 1, 0); (0, 0, 2)].
Definition skew_faces : list face := [(1, 2, 3)]%Z.

Lemma surface_area_one_based_counterexample :
  Forall (fun i => (1 <= i <= Z.of_nat (length skew_nodes))%Z) (face_entries skew_faces) /\
  surface_area skew_nodes skew_faces = Ok (3 / 2) /\
  surface_area skew_nodes (faces_pred skew_faces) = Ok (1 / 2) /\
  surface_area skew_nodes skew_faces <> surface_area skew_nodes (faces_pred skew_faces).
Proof.
  assert (H1 : surface_area skew_nodes skew_faces = Ok (3 / 2)).
  { rewrite surface_area_rows. cbn. f_equal. unfold triangle_area.
    rewrite (@norm_eval _ 3); reval; lra. }
  assert (H2 : surface_area skew_nodes (faces_pred skew_faces) = Ok (1 / 2)).
  { rewrite surface_area_rows. cbn. f_equal. unfold triangle_area.
    rewrite (@norm_eval _ 1); reval; lra. }
  repeat split; try assumption.
  - cbn. repeat constructor; lia.
  - rewrite H1, H2. intros H. injection H. lra.
Qed.

(** C10. An empty face array gives the area 0 without any error, and
    whenever the indices are in range (after the automatic conversion) the
    function returns a non-negative area. *)
Theorem surface_area_empty_nonneg (nodes : list vec3) :
  surface_area nodes [] = Ok 0 /\
  (forall faces,
     out_of_range (face_entries (faces_used nodes faces)) (length nodes) = false ->
     exists a, surface_area nodes faces = Ok a /\ 0 <= a) /\
  (forall faces a, surface_area nodes faces = Ok a -> 0 <= a).
Proof.
  assert (Hnn : forall faces, 0 <= rsum (map (triangle_area nodes) faces)).
  { intros faces. apply rsum_nonneg, Forall_forall. intros x Hx.
    apply in_map_iff in Hx as [f [<- _]]. apply triangle_area_nonneg. }
  split; [reflexivity | split].
  - intros faces H. rewrite surface_area_rows, H. eauto.
  - intros faces a. rewrite surface_area_rows.
    destruct (out_of_range _ _); [discriminate|].
    intros [= <-]. apply Hnn.
Qed.

Lemma surface_area_empty_nonneg_witness :
  exists a, surface_area unit_square unit_square_faces = Ok a /\ 0 <= a.
Proof.
  apply (proj1 (proj2 (surface_area_empty_nonneg unit_square)) unit_square_faces).
  reflexivity.
Defined.

(** *** The area under a change of coordinates and of vertex order *)

(** [nodes[i]] of a transformed node array. *)
Lemma take_map {A B : Type} (g : A -> B) (d : A) (d' : B) (nodes : list A) (i : Z) :
  (0 <= i < Z.of_nat (length nodes))%Z ->
  take d' (map g nodes) i = g (take d nodes i).
Proof.
  intros H. unfold take.
  rewrite (nth_indep _ d' (g d)) by (rewrite length_map; lia).
  apply map_nth.
Qed.

Definition in_range (N : nat) (i : Z) : Prop := (0 <= i < Z.of_nat N)%Z.

Lemma faces_in_range (faces : list face) (N : nat) (f : face) :
  out_of_range (face_entries faces) N = false -> In f faces ->
  in_range N (fcol0 f) /\ in_range N (fcol1 f) /\ in_range N (fcol2 f).
Proof.
  intros H Hf. apply out_of_range_spec in H. rewrite Forall_forall in H.
  assert (Hin : forall i, In i [fcol0 f; fcol1 f; fcol2 f] -> in_range N i).
  { intros i Hi. apply H. unfold face_entries. apply in_flat_map. eauto. }
  repeat split; apply Hin; cbn; auto.
Qed.

(** The map [p |-> k * p + t] on the nodes: a scaling by [k] followed by a
    translation by [t]. *)
Definition similarity (k : R) (t : vec3) (p : vec3) : vec3 := vadd (vscale k p) t.

Lemma norm_scaled (a b : vec3) (c : R) :
  0 <= c ->
  vx a * vx a + vy a * vy a + vz a * vz a =
  c * c * (vx b * vx b + vy b * vy b + vz b * vz b) ->
  norm a = c * norm b.
Proof.
  intros Hc H. unfold norm. rewrite H.
  rewrite sqrt_mult_alt by nra. now rewrite sqrt_square.
Qed.

Lemma rsum_scale (X : Type) (g : X -> R) (c : R) (l : list X) :
  rsum (map (fun x => c * g x) l) = c * rsum (map g l).
Proof. induction l as [|x l IH]; unfold rsum in *; cbn; [lra | rewrite IH; lra]. Qed.

Lemma triangle_area_similarity (k : R) (t : vec3) (nodes : list vec3) (f : face) :
  in_range (length nodes) (fcol0 f) -> in_range (length nodes) (fcol1 f) ->
  in_range (length nodes) (fcol2 f) ->
  triangle_area (map (similarity k t) nodes) f = k * k * triangle_area nodes f.
Proof.
  intros H0 H1 H2. unfold triangle_area.
  rewrite !(take_map (similarity k t) vzero vzero) by assumption.
  rewrite (@norm_scaled _
    (cross (vsub (take vzero nodes (fcol1 f)) (take vzero nodes (fcol0 f)))
           (vsub (take vzero nodes (fcol2 f)) (take vzero nodes (fcol0 f))))
    (k * k)); [lra | nra |].
  destruct (take vzero nodes (fcol0 f)) as [[ax ay] az],
           (take vzero nodes (fcol1 f)) as [[bx by'] bz],
           (take vzero nodes (fcol2 f)) as [[cx cy] cz], t as [[tx ty] tz].
  reval. ring.
Qed.

Lemma amin_ext (l l' : list Z) : (forall x, In x l <-> In x l') -> amin l = amin l'.
Proof.
  intros H. destruct l as [|x t].
  - destruct l' as [|y t']; [reflexivity|]. exfalso. apply (H y). now left.
  - assert (Hne : l' <> []) by (intros ->; apply (H x); now left).
    apply Z.le_antisymm.
    + apply amin_le, H, amin_in, Hne.
    + apply amin_le, H, amin_in. discriminate.
Qed.

Lemma amax_ext (l l' : list Z) : (forall x, In x l <-> In x l') -> amax l = amax l'.
Proof.
  intros H. destruct l as [|x t].
  - destruct l' as [|y t']; [reflexivity|]. exfalso. apply (H y). now left.
  - assert (Hne : l' <> []) by (intros ->; apply (H x); now left).
    apply Z.le_antisymm.
    + apply amax_ge, H, amax_in. discriminate.
    + apply amax_ge, H, amax_in, Hne.
Qed.

(** [faces[:, [0, 2, 1]]] and [faces[:, [1, 2, 0]]]: the faces with the
    opposite winding, and the faces read from their second vertex on. *)
Definition face_flip (f : face) : face := (fcol0 f, fcol2 f, fcol1 f).
Definition face_rot (f : face) : face := (fcol1 f, fcol2 f, fcol0 f).

(** A reordering of the columns of [faces]. *)
Definition reorders (g : face -> face) : Prop :=
  forall f, (forall i, In i [fcol0 (g f); fcol1 (g f); fcol2 (g f)] <->
                       In i [fcol0 f; fcol1 f; fcol2 f]) /\
            g (Z.pred (fcol0 f), Z.pred (fcol1 f), Z.pred (fcol2 f)) =
            (Z.pred (fcol0 (g f)), Z.pred (fcol1 (g f)), Z.pred (fcol2 (g f))).

Lemma face_flip_reorders : reorders face_flip.
Proof. intros f. split; [cbn; intuition | reflexivity]. Qed.

Lemma face_rot_reorders : reorders face_rot.
Proof. intros f. split; [cbn; intuition | reflexivity]. Qed.

Lemma face_entries_reorder (g : face -> face) (faces : list face) :
  reorders g ->
  length (face_entries (map g faces)) = length (face_entries faces) /\
  forall i, In i (face_entries (map g faces)) <-> In i (face_entries faces).
Proof.
  intros Hg. split.
  - unfold face_entries. induction faces as [|f faces IH]; cbn; [reflexivity | now rewrite IH].
  - intros i. unfold face_entries. rewrite !in_flat_map. split.
    + intros (f' & Hf' & Hi). apply in_map_iff in Hf' as (f & <- & Hf).
      exists f. split; [assumption | now apply (Hg f)].
    + intros (f & Hf & Hi). exists (g f). split; [now apply in_map | now apply (Hg f)].
Qed.

Lemma one_based_reorder (g : face -> face) (faces : list face) (N : nat) :
  reorders g ->
  one_based (face_entries (map g faces)) N = one_based (face_entries faces) N /\
  out_of_range (face_entries (map g faces)) N = out_of_range (face_entries faces) N.
Proof.
  intros Hg. destruct (face_entries_reorder faces Hg) as [Hlen Hin].
  unfold one_based, out_of_range.
  now rewrite Hlen, (amin_ext _ _ Hin), (amax_ext _ _ Hin).
Qed.

Lemma faces_used_reorder (g : face -> face) (nodes : list vec3) (faces : list face) :
  reorders g -> faces_used nodes (map g faces) = map g (faces_used nodes faces).
Proof.
  intros Hg. unfold faces_used.
  rewrite (proj1 (one_based_reorder faces (length nodes) Hg)).
  destruct (one_based _ _); [|reflexivity].
  unfold faces_pred. rewrite !map_map. apply map_ext.
  intros f. symmetry. apply (Hg f).
Qed.

Lemma triangle_area_flip (nodes : list vec3) (f : face) :
  triangle_area nodes (face_flip f) = triangle_area nodes f.
Proof.
  unfold triangle_area, face_flip, fcol0, fcol1, fcol2. cbn [fst snd].
  destruct f as [[i0 i1] i2]. cbn [fst snd].
  destruct (take vzero nodes i0) as [[ax ay] az],
           (take vzero nodes i1) as [[bx by'] bz],
           (take vzero nodes i2) as [[cx cy] cz].
  unfold norm. reval. do 2 f_equal. ring.
Qed.

Lemma triangle_area_rot (nodes : list vec3) (f : face) :
  triangle_area nodes (face_rot f) = triangle_area nodes f.
Proof.
  unfold triangle_area, face_rot, fcol0, fcol1, fcol2. cbn [fst snd].
  destruct f as [[i0 i1] i2]. cbn [fst snd].
  destruct (take vzero nodes i0) as [[ax ay] az],
           (take vzero nodes i1) as [[bx by'] bz],
           (take vzero nodes i2) as [[cx cy] cz].
  unfold norm. reval. do 2 f_equal. ring.
Qed.

Lemma surface_area_reorder (g : face -> face) (nodes : list vec3) (faces : list face) :
  reorders g ->
  (forall f, triangle_area nodes (g f) = triangle_area nodes f) ->
  surface_area nodes (map g faces) = surface_area nodes faces.
Proof.
  intros Hg Harea. rewrite !surface_area_rows, (faces_used_reorder nodes faces Hg).
  rewrite (proj2 (one_based_reorder (faces_used nodes faces) (length nodes) Hg)).
  destruct (out_of_range _ _); [reflexivity|].
  rewrite map_map. do 2 f_equal. apply map_ext, Harea.
Qed.

(** X10. Scaling the nodes by [k] and translating them by [t] multiplies the area
    by [k^2]; an index error is raised for the transformed mesh exactly when
    it is raised for the original one. *)
Lemma surface_area_similarity (k : R) (t : vec3) (nodes : list vec3) (faces : list face) :
  surface_area (map (similarity k t) nodes) faces =
  (a <- surface_area nodes faces ;; Ok (k * k * a)).
Proof.
  rewrite !surface_area_rows. unfold faces_used. rewrite length_map.
  destruct (out_of_range _ _) eqn:Hrange; [reflexivity|].
  cbn [Py.bind]. f_equal. rewrite <- rsum_scale. f_equal.
  apply map_ext_in. intros f Hf.
  destruct (faces_in_range _ _ f Hrange Hf) as (H0 & H1 & H2).
  now apply triangle_area_similarity.
Qed.

(** X11. The area does not depend on the order in which a face lists its three
    vertices: reversing the winding of every face, or starting every face at
    its second vertex, gives the same outcome. *)
Lemma surface_area_vertex_order (nodes : list vec3) (faces : list face) :
  surface_area nodes (map face_flip faces) = surface_area nodes faces /\
  surface_area nodes (map face_rot faces) = surface_area nodes faces.
Proof.
  split; apply surface_area_reorder.
  - exact face_flip_reorders.
  - apply triangle_area_flip.
  - exact face_rot_reorders.
  - apply triangle_area_rot.
Qed.

(** *** Volume, centroid and inertia tensor of a tetrahedral mesh *)

Definition ecol0 (e : element) : Z := fst (fst (fst e)).
Definition ecol1 (e : element) : Z := snd (fst (fst e)).
Definition ecol2 (e : element) : Z := snd (fst e).
Definition ecol3 (e : element) : Z := snd e.

Definition element_entries (elements : list element) : list Z :=
  flat_map (fun e => [ecol0 e; ecol1 e; ecol2 e; ecol3 e]) elements.

(** [elements - 1] *)
Definition elements_pred (elements : list element) : list element :=
  map (fun e => (Z.pred (ecol0 e), Z.pred (ecol1 e), Z.pred (ecol2 e), Z.pred (ecol3 e)))
      elements.

(** Element-wise [+] and [*] of two 1-D arrays, and [arr / k]. *)
Definition aadd (u w : list R) : list R := map2 Rplus u w.
Definition amul (u w : list R) : list R := map2 Rmult u w.
Definition adiv (u : list R) (k : R) : list R := map (fun t => t / k) u.

(** [np.stack([p, q, r, s], axis=1)] of four 1-D arrays. *)
Definition stack4 (p q r s : list R) : list (list R) :=
  map2 (fun pq rs => (pq ++ rs)%list) (map2 (fun x y => [x; y]) p q) (map2 (fun x y => [x; y]) r s).

(** [(x * y).sum(axis=1)] *)
Definition rowsum_mul (x y : list (list R)) : list R := map rsum (map2 amul x y).

Section VolumeInertia.

(** [np.linalg.eigh]: the eigenvalues (ascending) and the matrix of
    eigenvectors of a symmetric matrix. *)
Variable eigh : mat3 -> vec3 * mat3.

Definition volume_centroid_inertia_tensor
    (nodes : list vec3) (elements : list element) (calculate_inertia : bool)
    : result (R * vec3 * mat3 * mat3 * mat3) :=
  let elements :=
    if one_based (element_entries elements) (length nodes)
    then elements_pred elements else elements in
  if out_of_range (element_entries elements) (length nodes)
  then Raise (ValueError "element indices out of range for nodes array")
  else
    let a := gather vzero nodes (map ecol0 elements) in
    let b := gather vzero nodes (map ecol1 elements) in
    let c := gather vzero nodes (map ecol2 elements) in
    let d := gather vzero nodes (map ecol3 elements) in
    let ad := map2 vsub a d in
    let bd := map2 vsub b d in
    let cd := map2 vsub c d in
    let v := adiv (map Rabs (map2 dot (map2 cross bd cd) ad)) 6 in
    let volume := rsum v in
    if Rleb volume 0
    then Raise (ValueError "Total volume is zero or negative; check elements or degeneracy.")
    else
      let tet_centroids :=
        map (fun s => vdiv s 4) (map2 vadd (map2 vadd (map2 vadd a b) c) d) in
      let centroid := vdiv (vsum (map2 vscale v tet_centroids)) volume in
      if negb calculate_inertia
      then Ok (volume, centroid, mzero, mzero, mzero)
      else
        let nodes_c := map (fun p => vsub p centroid) nodes in
        let a := gather vzero nodes_c (map ecol0 elements) in
        let b := gather vzero nodes_c (map ecol1 elements) in
        let c := gather vzero nodes_c (map ecol2 elements) in
        let d := gather vzero nodes_c (map ecol3 elements) in
        let x := stack4 (map vx a) (map vx b) (map vx c) (map vx d) in
        let y := stack4 (map vy a) (map vy b) (map vy c) (map vy d) in
        let z := stack4 (map vz a) (map vz b) (map vz c) (map vz d) in
        let Sx := map rsum x in
        let Sy := map rsum y in
        let Sz := map rsum z in
        let Sxx := rowsum_mul x x in
        let Syy := rowsum_mul y y in
        let Szz := rowsum_mul z z in
        let Sxy := rowsum_mul x y in
        let Sxz := rowsum_mul x z in
        let Syz := rowsum_mul y z in
        let coef := adiv v 20 in
        let Ixx_t := amul coef (aadd (aadd (aadd (amul Sy Sy) Syy) (amul Sz Sz)) Szz) in
        let Iyy_t := amul coef (aadd (aadd (aadd (amul Sx Sx) Sxx) (amul Sz Sz)) Szz) in
        let Izz_t := amul coef (aadd (aadd (aadd (amul Sx Sx) Sxx) (amul Sy Sy)) Syy) in
        let Ixy_t := amul coef (aadd (amul Sx Sy) Sxy) in
        let Ixz_t := amul coef (aadd (amul Sx Sz) Sxz) in
        let Iyz_t := amul coef (aadd (amul Sy Sz) Syz) in
        let Ixx := rsum Ixx_t in
        let Iyy := rsum Iyy_t in
        let Izz := rsum Izz_t in
        let Ixy := rsum Ixy_t in
        let Ixz := rsum Ixz_t in
        let Iyz := rsum Iyz_t in
        let current_inertia : mat3 :=
          ((Ixx, - Ixy, - Ixz),
           (- Ixy, Iyy, - Iyz),
           (- Ixz, - Iyz, Izz)) in
        let '(evals, evecs) := eigh current_inertia in
        let inertia_diag := diag evals in
        Ok (volume, centroid, current_inertia, inertia_diag, evecs).

(** The total volume and the centroid of a result. *)
Definition result_volume (r : R * vec3 * mat3 * mat3 * mat3) : R :=
  fst (fst (fst (fst r))).
Definition result_centroid (r : R * vec3 * mat3 * mat3 * mat3) : vec3 :=
  snd (fst (fst (fst r))).

(** The index array the computation runs on, and the volume and the
    centroid of one tetrahedron. *)
Definition elements_used (nodes : list vec3) (elements : list element) : list element :=
  if one_based (element_entries elements) (length nodes)
  then elements_pred elements else elements.

Definition tet_volume (nodes : list vec3) (e : element) : R :=
  Rabs (dot (cross (vsub (take vzero nodes (ecol1 e)) (take vzero nodes (ecol3 e)))
                   (vsub (take vzero nodes (ecol2 e)) (take vzero nodes (ecol3 e))))
            (vsub (take vzero nodes (ecol0 e)) (take vzero nodes (ecol3 e)))) / 6.

Definition tet_centroid (nodes : list vec3) (e : element) : vec3 :=
  vdiv (vadd (vadd (vadd (take vzero nodes (ecol0 e)) (take vzero nodes (ecol1 e)))
                   (take vzero nodes (ecol2 e)))
             (take vzero nodes (ecol3 e))) 4.

Lemma volume_centroid_rows
    (nodes : list vec3) (elements : list element) (calculate_inertia : bool) :
  let el := elements_used nodes elements in
  let volume := rsum (map (tet_volume nodes) el) in
  out_of_range (element_entries el) (length nodes) = false ->
  0 < volume ->
  exists r,
    volume_centroid_inertia_tensor nodes elements calculate_inertia = Ok r /\
    result_volume r = volume /\
    result_centroid r =
      vdiv (vsum (map (fun e => vscale (tet_volume nodes e) (tet_centroid nodes e)) el))
           volume.
Proof.
  intros el volume Hrange Hvol.
  unfold volume_centroid_inertia_tensor. fold (elements_used nodes elements). fold el.
  rewrite Hrange. cbv zeta.
  destruct calculate_inertia; cbn [negb].
  1: match goal with
     | |- context [eigh ?m] => generalize m; intros M; destruct (eigh M) as [evals evecs]
     end.
  all: unfold gather, adiv.
  all: repeat (rewrite map_map || rewrite map2_map).
  all: change (rsum (map _ el)) with volume at 1.
  all: rewrite (proj2 (Rleb_false volume 0)) by exact Hvol.
  all: eexists; split; [reflexivity|]; split; reflexivity.
Qed.

(** The right tetrahedron of the test suite. *)
Definition unit_tetra : list vec3 := [(0, 0, 0); (1, 0, 0); (0, 1, 0); (0, 0, 1)].

Lemma Rabs_eval (x k : R) : 0 <= k -> x = k \/ x = - k -> Rabs x = k.
Proof.
  intros Hk [-> | ->]; [now apply Rabs_right, Rle_ge|].
  rewrite Rabs_Ropp. now apply Rabs_right, Rle_ge.
Qed.

Lemma unit_tetra_tet_volume : tet_volume unit_tetra (0, 1, 2, 3)%Z = 1 / 6.
Proof. unfold tet_volume. rewrite (@Rabs_eval _ 1); reval; lra. Qed.

(** C8. On the right tetrahedron with vertices (0,0,0), (1,0,0), (0,1,0),
    (0,0,1) the function returns the volume 1/6 and the centroid
    (0.25, 0.25, 0.25), with the element given 0-based as (0,1,2,3) or
    1-based as (1,2,3,4), with or without the inertia tensors, and the two
    index conventions give the same result. *)
Theorem unit_tetra_volume_centroid (calculate_inertia : bool) :
  (exists r,
     volume_centroid_inertia_tensor unit_tetra [(0, 1, 2, 3)%Z] calculate_inertia = Ok r /\
     result_volume r = 1 / 6 /\ result_centroid r = (0.25, 0.25, 0.25)) /\
  (exists r,
     volume_centroid_inertia_tensor unit_tetra [(1, 2, 3, 4)%Z] calculate_inertia = Ok r /\
     result_volume r = 1 / 6 /\ result_centroid r = (0.25, 0.25, 0.25)) /\
  volume_centroid_inertia_tensor unit_tetra [(0, 1, 2, 3)%Z] calculate_inertia =
  volume_centroid_inertia_tensor unit_tetra [(1, 2, 3, 4)%Z] calculate_inertia.
Proof.
  assert (Hv : rsum (map (tet_volume unit_tetra) [(0, 1, 2, 3)%Z]) = 1 / 6).
  { cbn [map rsum fold_right]. rewrite unit_tetra_tet_volume. lra. }
  assert (H : forall elements,
             elements_used unit_tetra elements = [(0, 1, 2, 3)%Z] ->
             exists r,
               volume_centroid_inertia_tensor unit_tetra elements calculate_inertia = Ok r /\
               result_volume r = 1 / 6 /\ result_centroid r = (0.25, 0.25, 0.25)).
  { intros elements Hused.
    destruct (@volume_centroid_rows unit_tetra elements calculate_inertia)
      as (r & Hr & Hvol & Hcen).
    - rewrite Hused. reflexivity.
    - rewrite Hused, Hv. lra.
    - exists r. rewrite Hvol, Hcen, Hused, Hv. split; [exact Hr | split; [reflexivity|]].
      cbn [map vsum fold_right]. rewrite unit_tetra_tet_volume.
      unfold tet_centroid. reval. apply f_equal2; [apply f_equal2|]; lra. }
  split; [|split].
  - apply H. reflexivity.
  - apply H. reflexivity.
  - unfold volume_centroid_inertia_tensor.
    change (one_based (element_entries [(0, 1, 2, 3)%Z]) (length unit_tetra)) with false.
    change (one_based (element_entries [(1, 2, 3, 4)%Z]) (length unit_tetra)) with true.
    reflexivity.
Qed.

(** *** The function in two stages, and its outcomes *)

(** The second half of [volume_centroid_inertia_tensor], from the centred
    nodes [nodes_c] on. *)
Definition inertia_stage
    (nodes_c : list vec3) (elements : list element) (v : list R)
    (volume : R) (centroid : vec3) : result (R * vec3 * mat3 * mat3 * mat3) :=
  let a := gather vzero nodes_c (map ecol0 elements) in
  let b := gather vzero nodes_c (map ecol1 elements) in
  let c := gather vzero nodes_c (map ecol2 elements) in
  let d := gather vzero nodes_c (map ecol3 elements) in
  let x := stack4 (map vx a) (map vx b) (map vx c) (map vx d) in
  let y := stack4 (map vy a) (map vy b) (map vy c) (map vy d) in
  let z := stack4 (map vz a) (map vz b) (map vz c) (map vz d) in
  let Sx := map rsum x in
  let Sy := map rsum y in
  let Sz := map rsum z in
  let Sxx := rowsum_mul x x in
  let Syy := rowsum_mul y y in
  let Szz := rowsum_mul z z in
  let Sxy := rowsum_mul x y in
  let Sxz := rowsum_mul x z in
  let Syz := rowsum_mul y z in
  let coef := adiv v 20 in
  let Ixx_t := amul coef (aadd (aadd (aadd (amul Sy Sy) Syy) (amul Sz Sz)) Szz) in
  let Iyy_t := amul coef (aadd (aadd (aadd (amul Sx Sx) Sxx) (amul Sz Sz)) Szz) in
  let Izz_t := amul coef (aadd (aadd (aadd (amul Sx Sx) Sxx) (amul Sy Sy)) Syy) in
  let Ixy_t := amul coef (aadd (amul Sx Sy) Sxy) in
  let Ixz_t := amul coef (aadd (amul Sx Sz) Sxz) in
  let Iyz_t := amul coef (aadd (amul Sy Sz) Syz) in
  let Ixx := rsum Ixx_t in
  let Iyy := rsum Iyy_t in
  let Izz := rsum Izz_t in
  let Ixy := rsum Ixy_t in
  let Ixz := rsum Ixz_t in
  let Iyz := rsum Iyz_t in
  let current_inertia : mat3 :=
    ((Ixx, - Ixy, - Ixz),
     (- Ixy, Iyy, - Iyz),
     (- Ixz, - Iyz, Izz)) in
  let '(evals, evecs) := eigh current_inertia in
  let inertia_diag := diag evals in
  Ok (volume, centroid, current_inertia, inertia_diag, evecs).

(** The volume-weighted mean of the centroids of the tetrahedra. *)
Definition mesh_centroid (nodes : list vec3) (el : list element) : vec3 :=
  vdiv (vsum (map (fun e => vscale (tet_volume nodes e) (tet_centroid nodes e)) el))
       (rsum (map (tet_volume nodes) el)).

Lemma volume_centroid_unfold
    (nodes : list vec3) (elements : list element) (calculate_inertia : bool) :
  let el := elements_used nodes elements in
  let v := map (tet_volume nodes) el in
  volume_centroid_inertia_tensor nodes elements calculate_inertia =
  if out_of_range (element_entries el) (length nodes)
  then Raise (ValueError "element indices out of range for nodes array")
  else if Rleb (rsum v) 0
  then Raise (ValueError "Total volume is zero or negative; check elements or degeneracy.")
  else if negb calculate_inertia
  then Ok (rsum v, mesh_centroid nodes el, mzero, mzero, mzero)
  else inertia_stage (map (fun p => vsub p (mesh_centroid nodes el)) nodes) el v
                     (rsum v) (mesh_centroid nodes el).
Proof.
  intros el v.
  unfold volume_centroid_inertia_tensor. fold (elements_used nodes elements). fold el.
  destruct (out_of_range _ _); [reflexivity|].
  assert (Hv : adiv (map Rabs (map2 dot
                 (map2 cross
                    (map2 vsub (gather vzero nodes (map ecol1 el))
                               (gather vzero nodes (map ecol3 el)))
                    (map2 vsub (gather vzero nodes (map ecol2 el))
                               (gather vzero nodes (map ecol3 el))))
                 (map2 vsub (gather vzero nodes (map ecol0 el))
                            (gather vzero nodes (map ecol3 el))))) 6 = v).
  { unfold gather, adiv, v. repeat (rewrite map_map || rewrite map2_map). reflexivity. }
  cbv zeta. rewrite Hv.
  assert (Hc : map2 vscale v
                 (map (fun s => vdiv s 4)
                    (map2 vadd
                       (map2 vadd
                          (map2 vadd (gather vzero nodes (map ecol0 el))
                                     (gather vzero nodes (map ecol1 el)))
                          (gather vzero nodes (map ecol2 el)))
                       (gather vzero nodes (map ecol3 el)))) =
               map (fun e => vscale (tet_volume nodes e) (tet_centroid nodes e)) el).
  { unfold gather, v. repeat (rewrite map_map || rewrite map2_map). reflexivity. }
  rewrite Hc. reflexivity.
Qed.

Lemma tet_volume_nonneg (nodes : list vec3) (e : element) : 0 <= tet_volume nodes e.
Proof.
  unfold tet_volume.
  match goal with |- 0 <= Rabs ?x / 6 => pose proof (Rabs_pos x) end. lra.
Qed.

Lemma mesh_volume_nonneg (nodes : list vec3) (el : list element) :
  0 <= rsum (map (tet_volume nodes) el).
Proof.
  apply rsum_nonneg, Forall_forall. intros x Hx.
  apply in_map_iff in Hx as [e [<- _]]. apply tet_volume_nonneg.
Qed.

Lemma inertia_stage_inv (nodes_c : list vec3) (el : list element) (v : list R)
    (volume : R) (centroid : vec3) :
  exists cur dg vecs,
    inertia_stage nodes_c el v volume centroid = Ok (volume, centroid, cur, dg, vecs) /\
    forall volume' centroid',
      inertia_stage nodes_c el v volume' centroid' = Ok (volume', centroid', cur, dg, vecs).
Proof.
  unfold inertia_stage. cbv zeta.
  match goal with
  | |- context [eigh ?m] => generalize m; intros M; destruct (eigh M) as [evals evecs]
  end.
  now do 3 eexists.
Qed.

Lemma element_entries_pred (elements : list element) :
  element_entries (elements_pred elements) = map Z.pred (element_entries elements).
Proof.
  unfold element_entries, elements_pred.
  induction elements as [|e elements IH]; cbn; [reflexivity | now rewrite IH].
Qed.

Lemma elements_in_range (elements : list element) (N : nat) (e : element) :
  out_of_range (element_entries elements) N = false -> In e elements ->
  in_range N (ecol0 e) /\ in_range N (ecol1 e) /\ in_range N (ecol2 e) /\
  in_range N (ecol3 e).
Proof.
  intros H He. apply out_of_range_spec in H. rewrite Forall_forall in H.
  assert (Hin : forall i, In i [ecol0 e; ecol1 e; ecol2 e; ecol3 e] -> in_range N i).
  { intros i Hi. apply H. unfold element_entries. apply in_flat_map. eauto. }
  repeat split; apply Hin; cbn; auto.
Qed.

(** Indices in range are never taken for 1-based ones. *)
Lemma in_range_not_one_based (entries : list Z) (N : nat) :
  out_of_range entries N = false -> one_based entries N = false.
Proof.
  intros H. destruct (one_based entries N) eqn:E; [|reflexivity].
  apply one_based_spec in E as (Hne & _ & Hmax).
  apply out_of_range_spec in H. rewrite Forall_forall in H.
  specialize (H _ (amax_in Hne)). lia.
Qed.

(** X12. A 1-based element array, with minimum 1 and maximum the number of nodes,
    gives what the 0-based array [elements - 1] gives. *)
Lemma volume_centroid_one_based
    (nodes : list vec3) (elements : list element) (calculate_inertia : bool) :
  elements <> [] ->
  amin (element_entries elements) = 1%Z ->
  amax (element_entries elements) = Z.of_nat (length nodes) ->
  volume_centroid_inertia_tensor nodes elements calculate_inertia =
  volume_centroid_inertia_tensor nodes (elements_pred elements) calculate_inertia.
Proof.
  intros Hne Hmin Hmax.
  assert (Hne' : element_entries elements <> []) by (destruct elements; easy).
  assert (H1 : one_based (element_entries elements) (length nodes) = true)
    by (apply one_based_spec; auto).
  assert (H2 : one_based (element_entries (elements_pred elements)) (length nodes) = false).
  { destruct (one_based (element_entries (elements_pred elements)) _) eqn:E;
      [|reflexivity].
    apply one_based_spec in E as (_ & E & _).
    rewrite element_entries_pred, (amin_pred Hne') in E. lia. }
  unfold volume_centroid_inertia_tensor. now rewrite H1, H2.
Qed.

(** X13. The outcomes of the function.  It raises the index error exactly when an
    index is out of range after the detection of 1-based indices, and the
    volume error exactly when the indices are in range and the total volume
    is 0: an empty element array is refused.  A result carries a positive
    volume, the sum of the volumes of the tetrahedra, and their
    volume-weighted centroid; without [calculate_inertia] the three tensors
    are zero. *)
Lemma volume_centroid_outcomes
    (nodes : list vec3) (elements : list element) (calculate_inertia : bool) :
  let el := elements_used nodes elements in
  let volume := rsum (map (tet_volume nodes) el) in
  let call := volume_centroid_inertia_tensor nodes elements calculate_inertia in
  (call = Raise (ValueError "element indices out of range for nodes array") <->
   out_of_range (element_entries el) (length nodes) = true) /\
  (call = Raise (ValueError "Total volume is zero or negative; check elements or degeneracy.") <->
   out_of_range (element_entries el) (length nodes) = false /\ volume = 0) /\
  (forall r, call = Ok r ->
     0 < volume /\ result_volume r = volume /\
     result_centroid r = mesh_centroid nodes el /\
     (calculate_inertia = false -> r = (volume, mesh_centroid nodes el, mzero, mzero, mzero))) /\
  volume_centroid_inertia_tensor nodes [] calculate_inertia =
  Raise (ValueError "Total volume is zero or negative; check elements or degeneracy.").
Proof.
  intros el volume call. unfold call. rewrite volume_centroid_unfold. fold el. fold volume.
  pose proof (mesh_volume_nonneg nodes el) as Hnn. fold volume in Hnn.
  destruct (inertia_stage_inv (map (fun p => vsub p (mesh_centroid nodes el)) nodes) el
              (map (tet_volume nodes) el) volume (mesh_centroid nodes el))
    as (cur & dg & vecs & Hst & _).
  assert (Hinv : forall r,
            (if out_of_range (element_entries el) (length nodes)
             then Raise (ValueError "element indices out of range for nodes array")
             else if Rleb volume 0
             then Raise (ValueError "Total volume is zero or negative; check elements or degeneracy.")
             else if negb calculate_inertia
             then Ok (volume, mesh_centroid nodes el, mzero, mzero, mzero)
             else Ok (volume, mesh_centroid nodes el, cur, dg, vecs)) = r ->
            match r with
            | Ok r' =>
                out_of_range (element_entries el) (length nodes) = false /\ 0 < volume /\
                result_volume r' = volume /\ result_centroid r' = mesh_centroid nodes el /\
                (calculate_inertia = false ->
                 r' = (volume, mesh_centroid nodes el, mzero, mzero, mzero))
            | Raise e =>
                (e = ValueError "element indices out of range for nodes array" /\
                 out_of_range (element_entries el) (length nodes) = true) \/
                (e = ValueError "Total volume is zero or negative; check elements or degeneracy." /\
                 out_of_range (element_entries el) (length nodes) = false /\ volume = 0)
            end).
  { intros r <-. destruct (out_of_range _ _); [now left|].
    destruct (Rleb volume 0) eqn:E.
    - apply Rleb_true in E. right. repeat split. lra.
    - apply Rleb_false in E.
      destruct calculate_inertia; cbn [negb]; repeat split; try assumption.
      discriminate. }
  rewrite Hst. split; [|split; [|split]].
  - split.
    + intros H. apply Hinv in H. destruct H as [[_ H] | [H _]]; [exact H | discriminate].
    + intros ->. reflexivity.
  - split.
    + intros H. apply Hinv in H. destruct H as [[H _] | [_ H]]; [discriminate | exact H].
    + intros [-> Hz]. now rewrite (proj2 (Rleb_true volume 0)) by lra.
  - intros r H. apply Hinv in H. tauto.
  - rewrite volume_centroid_unfold. cbn. now rcompare.
Qed.



Lemma tet_volume_translate (t : vec3) (nodes : list vec3) (e : element) :
  in_range (length nodes) (ecol0 e) -> in_range (length nodes) (ecol1 e) ->
  in_range (length nodes) (ecol2 e) -> in_range (length nodes) (ecol3 e) ->
  tet_volume (map (fun p => vadd p t) nodes) e = tet_volume nodes e /\
  tet_centroid (map (fun p => vadd p t) nodes) e = vadd (tet_centroid nodes e) t.
Proof.
  intros H0 H1 H2 H3. unfold tet_volume, tet_centroid.
  rewrite !(take_map (fun p => vadd p t) vzero vzero) by assumption.
  destruct (take vzero nodes (ecol0 e)) as [[ax ay] az],
           (take vzero nodes (ecol1 e)) as [[bx by'] bz],
           (take vzero nodes (ecol2 e)) as [[cx cy] cz],
           (take vzero nodes (ecol3 e)) as [[dx dy] dz], t as [[tx ty] tz].
  split.
  - reval. do 2 f_equal. ring.
  - reval. apply f_equal2; [apply f_equal2|]; lra.
Qed.

Lemma vsum_weighted_translate (X : Type) (w : X -> R) (c : X -> vec3) (t : vec3)
    (l : list X) :
  vsum (map (fun e => vscale (w e) (vadd (c e) t)) l) =
  vadd (vsum (map (fun e => vscale (w e) (c e)) l)) (vscale (rsum (map w l)) t).
Proof.
  induction l as [|x l IH].
  - destruct t as [[tx ty] tz]. reval. apply f_equal2; [apply f_equal2|]; lra.
  - unfold vsum, rsum in *. cbn [map fold_right]. rewrite IH.
    destruct (fold_right vadd vzero (map (fun e => vscale (w e) (c e)) l)) as [[sx sy] sz],
             (c x) as [[cx cy] cz], t as [[tx ty] tz].
    reval. apply f_equal2; [apply f_equal2|]; lra.
Qed.

(** X15. A translation of the nodes by [t] moves the centroid by [t] and changes
    nothing else: the volume and, with [calculate_inertia], the inertia
    tensor about the centroid and its principal values and axes are the same,
    and so are the errors. *)
Lemma volume_centroid_translation
    (t : vec3) (nodes : list vec3) (elements : list element) (calculate_inertia : bool) :
  volume_centroid_inertia_tensor (map (fun p => vadd p t) nodes) elements calculate_inertia =
  ('(volume, centroid, current_inertia, inertia_diag, evecs) <-
     volume_centroid_inertia_tensor nodes elements calculate_inertia ;;
   Ok (volume, vadd centroid t, current_inertia, inertia_diag, evecs)).
Proof.
  rewrite !volume_centroid_unfold. unfold elements_used. rewrite length_map.
  fold (elements_used nodes elements). set (el := elements_used nodes elements).
  destruct (out_of_range _ _) eqn:Hrange; [reflexivity|].
  assert (Hv : map (tet_volume (map (fun p => vadd p t) nodes)) el =
               map (tet_volume nodes) el).
  { apply map_ext_in. intros e He.
    destruct (elements_in_range _ _ e Hrange He) as (H0 & H1 & H2 & H3).
    now apply tet_volume_translate. }
  rewrite Hv. destruct (Rleb _ 0) eqn:Hvol; [reflexivity|]. apply Rleb_false in Hvol.
  assert (Hc : mesh_centroid (map (fun p => vadd p t) nodes) el =
               vadd (mesh_centroid nodes el) t).
  { unfold mesh_centroid. rewrite Hv.
    replace (map (fun e => vscale (tet_volume (map (fun p => vadd p t) nodes) e)
                             (tet_centroid (map (fun p => vadd p t) nodes) e)) el)
      with (map (fun e => vscale (tet_volume nodes e) (vadd (tet_centroid nodes e) t)) el).
    2:{ apply map_ext_in. intros e He.
        destruct (elements_in_range _ _ e Hrange He) as (H0 & H1 & H2 & H3).
        now destruct (tet_volume_translate t nodes e H0 H1 H2 H3) as [-> ->]. }
    rewrite vsum_weighted_translate.
    set (V := rsum (map (tet_volume nodes) el)) in *. clearbody V.
    destruct (vsum _) as [[sx sy] sz], t as [[tx ty] tz].
    reval. apply f_equal2; [apply f_equal2|]; field; lra. }
  rewrite Hc.
  destruct calculate_inertia; cbn [negb]; [|reflexivity].
  replace (map (fun p => vsub p (vadd (mesh_centroid nodes el) t))
               (map (fun p => vadd p t) nodes))
    with (map (fun p => vsub p (mesh_centroid nodes el)) nodes).
  2:{ rewrite map_map. apply map_ext. intros p.
      destruct (mesh_centroid nodes el) as [[cx cy] cz], p as [[px py] pz],
        t as [[tx ty] tz].
      reval. apply f_equal2; [apply f_equal2|]; lra. }
  destruct (inertia_stage_inv (map (fun p => vsub p (mesh_centroid nodes el)) nodes) el
              (map (tet_volume nodes) el) (rsum (map (tet_volume nodes) el))
              (mesh_centroid nodes el)) as (cur & dg & vecs & Hst & Hall).
  now rewrite Hst, Hall.
Qed.

End VolumeInertia.

(** A solver for diagonal matrices, for the examples. *)
Definition diagonal_eigh (m : mat3) : vec3 * mat3 :=
  let '(m0, m1, m2) := m in ((vx m0, vy m1, vz m2), ((1, 0, 0), (0, 1, 0), (0, 0, 1))).

Lemma volume_centroid_one_based_witness :
  volume_centroid_inertia_tensor diagonal_eigh unit_tetra [(1, 2, 3, 4)%Z] true =
  volume_centroid_inertia_tensor diagonal_eigh unit_tetra
    (elements_pred [(1, 2, 3, 4)%Z]) true.
Proof.
  apply volume_centroid_one_based; [discriminate | reflexivity | reflexivity].
Defined.


End Geometry.

(** ** NumPy's sorting primitives: [argsort] and [unique] *)

Module Np.

Import Vec.

Section Sorting.

(** The element type of the array, with its order [<] and its equality. *)
Variable K : Type.
Variable ltb : K -> K -> bool.
Variable eqb : K -> K -> bool.

(** A stable insertion: the new entry goes behind every entry that is not
    greater. *)
Fixpoint insert_pair (p : nat * K) (sorted : list (nat * K)) : list (nat * K) :=
  match sorted with
  | [] => [p]
  | q :: t => if ltb (snd p) (snd q) then p :: q :: t else q :: insert_pair p t
  end.

Definition sort_pairs (l : list (nat * K)) : list (nat * K) :=
  fold_left (fun sorted p => insert_pair p sorted) l [].

(** The entries of an array with their positions. *)
Definition enumerate (ar : list K) : list (nat * K) := combine (seq 0 (length ar)) ar.

(** [ar.argsort(kind='mergesort')]: the positions in ascending order of
    their entries, equal entries in their order of appearance. *)
Definition argsort (ar : list K) : list nat := map fst (sort_pairs (enumerate ar)).

(** [mask[:1] = True; mask[1:] = aux[1:] != aux[:-1]] *)
Definition adjacent_mask (aux : list K) : list bool :=
  match aux with
  | [] => []
  | _ :: t => true :: map2 (fun a b => negb (eqb a b)) t aux
  end.

(** [arr[mask]] *)
Fixpoint select {A : Type} (mask : list bool) (l : list A) : list A :=
  match mask, l with
  | b :: m, a :: t => if b then a :: select m t else select m t
  | _, _ => []
  end.

(** [np.cumsum(mask)], continuing from the count [c]. *)
Fixpoint cumsum_from (c : nat) (mask : list bool) : list nat :=
  match mask with
  | [] => []
  | b :: m => let c' := if b then S c else c in c' :: cumsum_from c' m
  end.

(** The value stored under the key [i] by the assignment
    [inv_idx[perm] = imask]. *)
Fixpoint assoc (i : nat) (l : list (nat * nat)) : nat :=
  match l with
  | [] => O
  | (j, v) :: t => if Nat.eqb i j then v else assoc i t
  end.

(** [np.unique(ar, return_index=True, return_inverse=True)], as NumPy
    computes it: a stable argsort, the mask of the entries that differ from
    their predecessor, and the running count of the mask scattered back
    through the permutation. *)
Definition unique (ar : list K) : list K * list nat * list nat :=
  let sorted := sort_pairs (enumerate ar) in
  let perm := map fst sorted in
  let aux := map snd sorted in
  let mask := adjacent_mask aux in
  let imask := map Nat.pred (cumsum_from 0 mask) in
  let inv_idx := map (fun i => assoc i (combine perm imask)) (seq 0 (length ar)) in
  (select mask aux, select mask perm, inv_idx).

End Sorting.

(** *** The argsort is a stable sort *)

Section SortingFacts.

Variable K : Type.
Variable ltb : K -> K -> bool.
Variable eqb : K -> K -> bool.

(** [ltb] is a strict total order and [eqb] decides equality. *)
Hypothesis ltb_irrefl : forall a, ltb a a = false.
Hypothesis ltb_trans : forall a b c, ltb a b = true -> ltb b c = true -> ltb a c = true.
Hypothesis ltb_total : forall a b, ltb a b = false -> ltb b a = false -> a = b.
Hypothesis eqb_eq : forall a b, eqb a b = true <-> a = b.

(** The order of a stable sort: by entry, then by position. *)
Definition lexlt (p q : nat * K) : Prop :=
  ltb (snd p) (snd q) = true \/ (snd p = snd q /\ (fst p < fst q)%nat).

Lemma lexlt_trans (p q r : nat * K) : lexlt p q -> lexlt q r -> lexlt p r.
Proof.
  unfold lexlt. intros [H1|[H1 H1']] [H2|[H2 H2']].
  - left. eapply ltb_trans; eassumption.
  - left. now rewrite <- H2.
  - left. now rewrite H1.
  - right. split; [congruence | lia].
Qed.

Lemma lexlt_irrefl (p : nat * K) : ~ lexlt p p.
Proof. unfold lexlt. intros [H|[_ H]]; [rewrite ltb_irrefl in H; discriminate | lia]. Qed.

Lemma insert_pair_perm (p : nat * K) (l : list (nat * K)) :
  Permutation (insert_pair ltb p l) (p :: l).
Proof.
  induction l as [|q t IH]; cbn; [reflexivity|].
  destruct (ltb (snd p) (snd q)); [reflexivity|].
  rewrite IH. apply perm_swap.
Qed.

Lemma insert_pair_sorted (p : nat * K) (l : list (nat * K)) :
  StronglySorted lexlt l ->
  Forall (fun q => (fst q < fst p)%nat) l ->
  StronglySorted lexlt (insert_pair ltb p l).
Proof.
  induction 1 as [|q t Ht IH Hq]; intros Hlt; cbn.
  - repeat constructor.
  - inversion Hlt as [|? ? Hqp Htp]; subst.
    destruct (ltb (snd p) (snd q)) eqn:E.
    + constructor; [now constructor|].
      constructor; [now left|].
      eapply Forall_impl; [|exact Hq]. intros r Hr.
      apply lexlt_trans with q; [now left | exact Hr].
    + constructor; [now apply IH|].
      eapply Permutation_Forall; [symmetry; apply insert_pair_perm|].
      constructor; [|exact Hq].
      destruct (ltb (snd q) (snd p)) eqn:E'; [now left|].
      right. split; [now apply ltb_total | exact Hqp].
Qed.

Lemma sort_pairs_spec (l acc : list (nat * K)) :
  StronglySorted lexlt acc ->
  StronglySorted (fun p q => (fst p < fst q)%nat) l ->
  Forall (fun p => Forall (fun q => (fst q < fst p)%nat) acc) l ->
  StronglySorted lexlt (fold_left (fun sorted p => insert_pair ltb p sorted) l acc) /\
  Permutation (fold_left (fun sorted p => insert_pair ltb p sorted) l acc) (l ++ acc).
Proof.
  revert acc. induction l as [|p l IH]; intros acc Hacc Hl Hlt; cbn [fold_left].
  - split; [assumption | reflexivity].
  - inversion Hl as [|? ? Hl' Hp]; subst. inversion Hlt as [|? ? Hpacc Hlacc]; subst.
    destruct (IH (insert_pair ltb p acc)) as [H1 H2].
    + now apply insert_pair_sorted.
    + exact Hl'.
    + rewrite Forall_forall in *. intros r Hr.
      eapply Permutation_Forall; [symmetry; apply insert_pair_perm|].
      constructor; [now apply Hp | exact (Hlacc r Hr)].
    + split; [exact H1|]. rewrite H2, insert_pair_perm.
      cbn. symmetry. apply Permutation_middle.
Qed.

Lemma combine_seq_sorted (ar : list K) (s : nat) :
  StronglySorted (fun p q : nat * K => (fst p < fst q)%nat) (combine (seq s (length ar)) ar).
Proof.
  revert s. induction ar as [|a ar IH]; intros s; cbn; constructor; [apply IH|].
  apply Forall_forall. intros [i b] Hin. apply in_combine_l in Hin.
  apply in_seq in Hin. cbn. lia.
Qed.

Lemma sort_pairs_enumerate (ar : list K) :
  StronglySorted lexlt (sort_pairs ltb (enumerate ar)) /\
  Permutation (sort_pairs ltb (enumerate ar)) (enumerate ar).
Proof.
  destruct (@sort_pairs_spec (enumerate ar) []) as [H1 H2].
  - constructor.
  - apply combine_seq_sorted.
  - apply Forall_forall. intros; constructor.
  - split; [exact H1|]. now rewrite app_nil_r in H2.
Qed.

(** *** Groups of equal entries in the sorted array *)

(** The mask of an array that follows the entry [prev]. *)
Definition mask_after (prev : K) (aux : list K) : list bool :=
  map2 (fun a b => negb (eqb a b)) aux (prev :: aux).

Definition key_lt (p q : nat * K) : Prop := ltb (snd p) (snd q) = true.

Lemma lexlt_same_key (p q : nat * K) : lexlt p q -> snd q = snd p -> (fst p < fst q)%nat.
Proof.
  intros [H|[_ H]] E; [|exact H].
  rewrite E, ltb_irrefl in H. discriminate.
Qed.

Lemma groups_after (l : list (nat * K)) :
  forall (pp : nat * K) (c : nat),
    StronglySorted lexlt (pp :: l) ->
    StronglySorted key_lt (select (mask_after (snd pp) (map snd l)) l) /\
    Forall (key_lt pp) (select (mask_after (snd pp) (map snd l)) l) /\
    forall j p,
      nth_error l j = Some p ->
      exists m,
        nth_error (cumsum_from c (mask_after (snd pp) (map snd l))) j = Some m /\
        ((m = c /\ snd p = snd pp) \/
         ((c < m)%nat /\
          exists h,
            nth_error (select (mask_after (snd pp) (map snd l)) l) (m - c - 1) = Some h /\
            snd h = snd p /\ (fst h <= fst p)%nat)).
Proof.
  induction l as [|p t IH]; intros pp c Hs.
  - cbn. split; [constructor | split; [constructor|]].
    intros j q Hj. destruct j; discriminate.
  - inversion Hs as [|? ? Hs' Hpp]; subst.
    inversion Hpp as [|? ? Hppp Hppt]; subst.
    inversion Hs' as [|? ? _ Hpt]; subst.
    change (mask_after (snd pp) (map snd (p :: t)))
      with (negb (eqb (snd p) (snd pp)) :: mask_after (snd p) (map snd t)).
    destruct (eqb (snd p) (snd pp)) eqn:E; cbn [negb select cumsum_from].
    + apply eqb_eq in E. destruct (IH p c Hs') as (H1 & H2 & H3).
      split; [exact H1 | split].
      * eapply Forall_impl; [|exact H2]. intros h Hh. unfold key_lt in *.
        now rewrite <- E.
      * intros [|j] q Hq; cbn [nth_error] in *.
        -- injection Hq as <-. exists c. split; [reflexivity|]. left. auto.
        -- destruct (H3 j q Hq) as (m & Hm & Hcase). exists m. split; [exact Hm|].
           destruct Hcase as [[-> Hk]|Hr]; [|right; exact Hr].
           left. split; [reflexivity | congruence].
    + assert (Hlt : ltb (snd pp) (snd p) = true).
      { destruct Hppp as [H|[H _]]; [exact H|].
        exfalso. symmetry in H. apply eqb_eq in H. congruence. }
      destruct (IH p (S c) Hs') as (H1 & H2 & H3).
      split; [constructor; assumption | split].
      * constructor; [exact Hlt|].
        eapply Forall_impl; [|exact H2]. intros h Hh. unfold key_lt in *.
        eapply ltb_trans; eassumption.
      * intros [|j] q Hq; cbn [nth_error] in *.
        -- injection Hq as <-. exists (S c). split; [reflexivity|]. right.
           split; [lia|]. exists p. replace (S c - c - 1)%nat with O by lia.
           cbn. auto.
        -- destruct (H3 j q Hq) as (m & Hm & Hcase). exists m. split; [exact Hm|].
           right. destruct Hcase as [[-> Hk]|[Hcm (h & Hh & Hk & Hf)]].
           ++ split; [lia|]. exists p. replace (S c - c - 1)%nat with O by lia.
              cbn. split; [reflexivity | split; [congruence|]].
              apply Nat.lt_le_incl, lexlt_same_key; [|exact Hk].
              rewrite Forall_forall in Hpt. apply Hpt.
              eapply nth_error_In; eassumption.
           ++ split; [lia|]. exists h.
              replace (m - c - 1)%nat with (S (m - S c - 1)) by lia.
              cbn. auto.
Qed.

Lemma unique_groups (ps : list (nat * K)) :
  StronglySorted lexlt ps ->
  StronglySorted key_lt (select (adjacent_mask eqb (map snd ps)) ps) /\
  forall j p,
    nth_error ps j = Some p ->
    exists g h,
      nth_error (map Nat.pred (cumsum_from 0 (adjacent_mask eqb (map snd ps)))) j = Some g /\
      nth_error (select (adjacent_mask eqb (map snd ps)) ps) g = Some h /\
      snd h = snd p /\ (fst h <= fst p)%nat.
Proof.
  intros Hs. destruct ps as [|p0 rest].
  - cbn. split; [constructor|]. intros j p Hj. destruct j; discriminate.
  - change (adjacent_mask eqb (map snd (p0 :: rest)))
      with (true :: mask_after (snd p0) (map snd rest)).
    cbn [select cumsum_from map].
    destruct (@groups_after rest p0 1 Hs) as (H1 & H2 & H3).
    inversion Hs as [|? ? _ Hp0]; subst.
    split; [constructor; assumption|].
    intros [|j] p Hp; cbn [nth_error] in *.
    + injection Hp as <-. exists O, p0. cbn. auto.
    + destruct (H3 j p Hp) as (m & Hm & Hcase). exists (Nat.pred m).
      rewrite (map_nth_error _ _ _ Hm).
      destruct Hcase as [[-> Hk]|[Hcm (h & Hh & Hk & Hf)]].
      * exists p0. cbn. split; [reflexivity | split; [reflexivity | split; [congruence|]]].
        apply Nat.lt_le_incl, lexlt_same_key; [|exact Hk].
        rewrite Forall_forall in Hp0. apply Hp0.
        eapply nth_error_In; eassumption.
      * exists h. split; [reflexivity|].
        replace (Nat.pred m) with (S (m - 1 - 1)) by lia. cbn. auto.
Qed.

Lemma select_map {A B : Type} (f : A -> B) (mask : list bool) (l : list A) :
  select mask (map f l) = map f (select mask l).
Proof.
  revert l; induction mask as [|b m IH]; intros [|a t]; cbn; try reflexivity.
  destruct b; cbn; now rewrite IH.
Qed.

Lemma select_In {A : Type} (mask : list bool) (l : list A) (x : A) :
  In x (select mask l) -> In x l.
Proof.
  revert l; induction mask as [|b m IH]; intros [|a t]; cbn; try easy.
  destruct b; cbn; [intros [H|H]; auto | auto].
Qed.

Lemma combine_seq_In (ar : list K) (s i : nat) (a : K) :
  In (i, a) (combine (seq s (length ar)) ar) <->
  (s <= i)%nat /\ nth_error ar (i - s) = Some a.
Proof.
  revert s; induction ar as [|b ar IH]; intros s; cbn [length seq combine In].
  - split; [easy|]. intros [_ H]. destruct (i - s)%nat; discriminate.
  - rewrite IH. split.
    + intros [[= <- <-]|[Hle Hn]].
      * split; [lia|]. now rewrite Nat.sub_diag.
      * split; [lia|]. replace (i - s)%nat with (S (i - S s)) by lia. exact Hn.
    + intros [Hle Hn]. destruct (Nat.eq_dec i s) as [->|Hne].
      * left. rewrite Nat.sub_diag in Hn. cbn in Hn. congruence.
      * right. split; [lia|].
        replace (i - s)%nat with (S (i - S s)) in Hn by lia. exact Hn.
Qed.

Lemma enumerate_In (ar : list K) (i : nat) (a : K) :
  In (i, a) (enumerate ar) <-> nth_error ar i = Some a.
Proof.
  unfold enumerate. rewrite combine_seq_In, Nat.sub_0_r.
  split; [now intros [_ H] | intros H; split; [lia | exact H]].
Qed.

Lemma assoc_first (perm imask : list nat) (i : nat) :
  In i perm -> length imask = length perm ->
  exists j, nth_error perm j = Some i /\
            nth_error imask j = Some (assoc i (combine perm imask)).
Proof.
  revert imask; induction perm as [|k perm IH]; intros [|v imask] Hin Hlen;
    cbn in *; try easy.
  destruct (Nat.eqb i k) eqn:E.
  - apply Nat.eqb_eq in E. subst. now exists O.
  - apply Nat.eqb_neq in E. destruct Hin as [Hin|Hin]; [congruence|].
    destruct (IH imask Hin) as (j & Hj1 & Hj2); [lia|]. now exists (S j).
Qed.

Lemma cumsum_from_length (mask : list bool) (c : nat) :
  length (cumsum_from c mask) = length mask.
Proof. revert c; induction mask as [|b m IH]; intros c; cbn; [reflexivity | now rewrite IH]. Qed.

Lemma adjacent_mask_length (aux : list K) : length (adjacent_mask eqb aux) = length aux.
Proof.
  destruct aux as [|a t]; cbn; [reflexivity|].
  rewrite map2_length. cbn. f_equal. lia.
Qed.

Lemma sorted_nth_lt {A : Type} (R : A -> A -> Prop) (l : list A) (g g' : nat) (x y : A) :
  StronglySorted R l -> (g < g')%nat ->
  nth_error l g = Some x -> nth_error l g' = Some y -> R x y.
Proof.
  intros Hs. revert g g'. induction Hs as [|a l Hl IH Ha]; intros g g' Hlt Hx Hy.
  - destruct g; discriminate.
  - destruct g' as [|g']; [lia|]. destruct g as [|g]; cbn in *.
    + injection Hx as <-. rewrite Forall_forall in Ha. apply Ha.
      eapply nth_error_In; eassumption.
    + apply (IH g g'); [lia | assumption | assumption].
Qed.

Lemma sorted_nth_inj (l : list K) (g g' : nat) (a : K) :
  StronglySorted (fun x y => ltb x y = true) l ->
  nth_error l g = Some a -> nth_error l g' = Some a -> g = g'.
Proof.
  intros Hs Hg Hg'.
  destruct (Nat.lt_trichotomy g g') as [H|[H|H]]; [|exact H|].
  - pose proof (sorted_nth_lt Hs H Hg Hg') as Hlt. cbv beta in Hlt.
    rewrite ltb_irrefl in Hlt. discriminate.
  - pose proof (sorted_nth_lt Hs H Hg' Hg) as Hlt. cbv beta in Hlt.
    rewrite ltb_irrefl in Hlt. discriminate.
Qed.

Lemma sorted_map_snd (heads : list (nat * K)) :
  StronglySorted key_lt heads ->
  StronglySorted (fun x y => ltb x y = true) (map snd heads).
Proof.
  induction 1 as [|h t Ht IH Hh]; cbn; constructor; [exact IH|].
  apply Forall_map. exact Hh.
Qed.

(** What [unique] returns: the distinct entries in ascending order, for each
    of them the position of its first occurrence, and for each position of
    the array the rank of its entry among the distinct entries. *)
Lemma unique_spec (ar : list K) :
  StronglySorted (fun x y => ltb x y = true) (fst (fst (unique ltb eqb ar))) /\
  length (snd (fst (unique ltb eqb ar))) = length (fst (fst (unique ltb eqb ar))) /\
  length (snd (unique ltb eqb ar)) = length ar /\
  (forall i a,
     nth_error ar i = Some a ->
     exists g i0,
       nth_error (snd (unique ltb eqb ar)) i = Some g /\
       nth_error (fst (fst (unique ltb eqb ar))) g = Some a /\
       nth_error (snd (fst (unique ltb eqb ar))) g = Some i0 /\
       nth_error ar i0 = Some a /\ (i0 <= i)%nat) /\
  (forall g i0,
     nth_error (snd (fst (unique ltb eqb ar))) g = Some i0 ->
     nth_error (fst (fst (unique ltb eqb ar))) g = nth_error ar i0 /\
     nth_error ar i0 <> None /\
     forall i', nth_error ar i' = nth_error ar i0 -> (i0 <= i')%nat).
Proof.
  unfold unique. cbn [fst snd].
  destruct (sort_pairs_enumerate ar) as [Hs Hperm].
  destruct (unique_groups Hs) as [HA HB].
  set (ps := sort_pairs ltb (enumerate ar)) in *.
  set (mask := adjacent_mask eqb (map snd ps)) in *.
  set (imask := map Nat.pred (cumsum_from 0 mask)) in *.
  rewrite !select_map.
  set (heads := select mask ps) in *.
  assert (Hheads : forall g h, nth_error heads g = Some h -> nth_error ar (fst h) = Some (snd h)).
  { intros g h Hh. apply enumerate_In. rewrite <- surjective_pairing.
    apply (Permutation_in _ Hperm). apply (select_In mask).
    eapply nth_error_In; exact Hh. }
  assert (Hinv : forall i a,
             nth_error ar i = Some a ->
             exists g i0,
               nth_error (map (fun i => assoc i (combine (map fst ps) imask))
                              (seq 0 (length ar))) i = Some g /\
               nth_error (map snd heads) g = Some a /\
               nth_error (map fst heads) g = Some i0 /\
               nth_error ar i0 = Some a /\ (i0 <= i)%nat).
  { intros i a Hi.
    assert (Hin : In (i, a) ps).
    { apply (Permutation_in _ (Permutation_sym Hperm)). now apply enumerate_In. }
    destruct (@assoc_first (map fst ps) imask i) as (j & Hj1 & Hj2).
    - change i with (fst (i, a)). now apply in_map.
    - unfold imask, mask. rewrite length_map, cumsum_from_length, adjacent_mask_length.
      now rewrite !length_map.
    - rewrite nth_error_map in Hj1.
      destruct (nth_error ps j) as [p|] eqn:Hp; [|discriminate].
      cbn in Hj1. injection Hj1 as Hfst.
      assert (Hsnd : snd p = a).
      { assert (Hp' : In p (enumerate ar)).
        { apply (Permutation_in _ Hperm). eapply nth_error_In; exact Hp. }
        rewrite (surjective_pairing p), Hfst in Hp'. apply enumerate_In in Hp'.
        congruence. }
      destruct (HB j p Hp) as (g & h & Hg & Hh & Hk & Hf).
      exists g, (fst h).
      assert (Hlt : (i < length ar)%nat) by (apply nth_error_Some; congruence).
      split; [|split; [|split; [|split]]].
      + rewrite nth_error_map, (nth_error_nth' _ O) by (rewrite length_seq; exact Hlt).
        rewrite seq_nth by exact Hlt. cbn. congruence.
      + rewrite nth_error_map, Hh. cbn. congruence.
      + rewrite nth_error_map, Hh. reflexivity.
      + rewrite (Hheads g h Hh). congruence.
      + lia. }
  split; [now apply sorted_map_snd|].
  split; [now rewrite !length_map|].
  split; [now rewrite length_map, length_seq|].
  split; [exact Hinv|].
  intros g i0 Hg. rewrite nth_error_map in Hg.
  destruct (nth_error heads g) as [h|] eqn:Hh; [|discriminate].
  cbn in Hg. injection Hg as <-.
  pose proof (Hheads g h Hh) as Har.
  split; [rewrite nth_error_map, Hh, Har; reflexivity|].
  split; [congruence|].
  intros i' Hi'. rewrite Har in Hi'.
  destruct (Hinv i' (snd h) Hi') as (g' & i0' & _ & Hu & Hidx & _ & Hle).
  assert (g' = g).
  { apply (@sorted_nth_inj (map snd heads) g' g (snd h)).
    - now apply sorted_map_snd.
    - exact Hu.
    - rewrite nth_error_map, Hh. reflexivity. }
  subst g'. rewrite nth_error_map, Hh in Hidx. cbn in Hidx.
  injection Hidx as <-. exact Hle.
Qed.

End SortingFacts.

End Np.

(** ** [pyshape/form.py] : the surface orientation tensor *)

Module Orientation.

Import Vec Index Geometry.
Local Open Scope R_scope.
Local Open Scope string_scope.

(** The entries of a 3-array, and column [j] of a matrix given by rows. *)
Definition vlist (a : vec3) : list R := [vx a; vy a; vz a].

Definition column (m : mat3) (j : nat) : vec3 :=
  let '(m0, m1, m2) := m in
  (nth j (vlist m0) 0, nth j (vlist m1) 0, nth j (vlist m2) 0).

Definition identity : mat3 := ((1, 0, 0), (0, 1, 0), (0, 0, 1)).

Definition msub (m n : mat3) : mat3 := madd m (mscale (-1) n).

(** [vals] are the three roots of the characteristic polynomial of [m]: what
    an exact eigenvalue solver returns for a symmetric matrix. *)
Definition is_spectrum (m : mat3) (vals : vec3) : Prop :=
  forall x : R,
    det (msub (mscale x identity) m) = (x - vx vals) * (x - vy vals) * (x - vz vals).

Section OrientationTensor.

(** [np.linalg.eig] followed by [np.real]: the eigenvalues and the
    eigenvectors (as columns) of a matrix. *)
Variable eig : mat3 -> vec3 * mat3.

(** [surface_orientation_tensor(nodes, faces)], for [nodes] of shape (N, 3)
    and [faces] of shape (M, 3).  [np.argsort(vals)[::-1]] is the reversed
    ascending argsort (on three entries NumPy sorts by insertion, which is
    stable); the eigenvectors are returned as the list of the columns
    [vecs[:, order]]. *)

Definition surface_orientation_tensor (nodes : list vec3) (faces : list face)
    : result (R * R * R * list R * list vec3) :=
  let faces :=
    if one_based (face_entries faces) (length nodes) then faces_pred faces else faces in
  if out_of_range (face_entries faces) (length nodes)
  then Raise (ValueError "face indices out of range for nodes array")
  else
    let A := gather vzero nodes (map fcol0 faces) in
    let B := gather vzero nodes (map fcol1 faces) in
    let Cn := gather vzero nodes (map fcol2 faces) in
    let e_AB := map2 vsub B A in
    let e_BC := map2 vsub Cn B in
    let v := map2 cross e_AB e_BC in
    let areas := map (fun c => 0.5 * norm c) v in
    let norms := map norm v in
    let n := map2 (fun vk nk => if Rltb 0 nk then vdiv vk nk else vzero) v norms in
    let total_area := rsum areas in
    if Rleb total_area 0
    then Raise (ValueError "total surface area is zero; mesh may be degenerate")
    else
      let f :=
        fold_left (fun f an => madd f (mscale (fst an) (outer (snd an) (snd an))))
                  (combine areas n) mzero in
      let f := mdiv f total_area in
      let '(vals, vecs) := eig f in
      let order := rev (Np.argsort Rltb (vlist vals)) in
      let eigen_values := map (fun i => nth i (vlist vals) 0) order in
      let eigen_vectors := map (column vecs) order in
      match eigen_values with
      | [f1; f2; f3] =>
          if Rleb f1 0
          then Raise (ValueError "largest eigenvalue non-positive; invalid orientation tensor")
          else Ok (f3 / f1, (f1 - f2) / f1, (f2 - f3) / f1, eigen_values, eigen_vectors)
      | _ => Raise (ValueError "not enough values to unpack (expected 3)")
      end.

(** One triangle: the vector [(B - A) x (C - B)], its area and its unit
    normal (the zero vector when the norm is not positive). *)
Definition tri_vec (nodes : list vec3) (f : face) : vec3 :=
  cross (vsub (take vzero nodes (fcol1 f)) (take vzero nodes (fcol0 f)))
        (vsub (take vzero nodes (fcol2 f)) (take vzero nodes (fcol1 f))).

Definition tri_area (nodes : list vec3) (f : face) : R := 0.5 * norm (tri_vec nodes f).

Definition tri_normal (nodes : list vec3) (f : face) : vec3 :=
  if Rltb 0 (norm (tri_vec nodes f)) then vdiv (tri_vec nodes f) (norm (tri_vec nodes f))
  else vzero.

(** The contribution [areas[k] * (nk @ nk.T)] of one triangle. *)
Definition tri_tensor (nodes : list vec3) (f : face) : mat3 :=
  mscale (tri_area nodes f) (outer (tri_normal nodes f) (tri_normal nodes f)).

Definition total_area (nodes : list vec3) (faces : list face) : R :=
  rsum (map (tri_area nodes) faces).

Definition tensor_sum (nodes : list vec3) (faces : list face) : mat3 :=
  fold_left (fun f k => madd f (tri_tensor nodes k)) faces mzero.

(** The normalised tensor [f] handed to the eigenvalue solver. *)
Definition orientation_tensor (nodes : list vec3) (faces : list face) : mat3 :=
  mdiv (tensor_sum nodes faces) (total_area nodes faces).

(** The end of the function, from the output of the solver on. *)
Definition shape_indices (ev : vec3 * mat3) : result (R * R * R * list R * list vec3) :=
  let '(vals, vecs) := ev in
  let order := rev (Np.argsort Rltb (vlist vals)) in
  let eigen_values := map (fun i => nth i (vlist vals) 0) order in
  let eigen_vectors := map (column vecs) order in
  match eigen_values with
  | [f1; f2; f3] =>
      if Rleb f1 0
      then Raise (ValueError "largest eigenvalue non-positive; invalid orientation tensor")
      else Ok (f3 / f1, (f1 - f2) / f1, (f2 - f3) / f1, eigen_values, eigen_vectors)
  | _ => Raise (ValueError "not enough values to unpack (expected 3)")
  end.

Lemma combine_map {X A B : Type} (g : X -> A) (h : X -> B) (l : list X) :
  combine (map g l) (map h l) = map (fun x => (g x, h x)) l.
Proof. induction l as [|x l IH]; cbn; [reflexivity | now rewrite IH]. Qed.

Lemma fold_left_map {X A B : Type} (f : B -> A -> B) (g : X -> A) (l : list X) (b : B) :
  fold_left f (map g l) b = fold_left (fun acc x => f acc (g x)) l b.
Proof. revert b; induction l as [|x l IH]; intros b; cbn; [reflexivity | apply IH]. Qed.

Lemma surface_orientation_tensor_rows (nodes : list vec3) (faces : list face) :
  surface_orientation_tensor nodes faces =
  if out_of_range (face_entries (faces_used nodes faces)) (length nodes)
  then Raise (ValueError "face indices out of range for nodes array")
  else if Rleb (total_area nodes (faces_used nodes faces)) 0
  then Raise (ValueError "total surface area is zero; mesh may be degenerate")
  else shape_indices (eig (orientation_tensor nodes (faces_used nodes faces))).
Proof.
  unfold surface_orientation_tensor. fold (faces_used nodes faces).
  destruct (out_of_range _ _); [reflexivity|].
  unfold gather. cbv zeta.
  repeat (rewrite map_map || rewrite map2_map).
  change (rsum (map _ (faces_used nodes faces)))
    with (total_area nodes (faces_used nodes faces)).
  destruct (Rleb _ 0); [reflexivity|].
  rewrite combine_map, fold_left_map.
  reflexivity.
Qed.

Lemma trace_madd (m n : mat3) : trace (madd m n) = trace m + trace n.
Proof. destruct m as [[m0 m1] m2], n as [[n0 n1] n2]. reval. lra. Qed.

Lemma trace_mscale (k : R) (m : mat3) : trace (mscale k m) = k * trace m.
Proof. destruct m as [[m0 m1] m2]. reval. lra. Qed.

Lemma trace_mdiv (m : mat3) (k : R) : trace (mdiv m k) = trace m / k.
Proof. destruct m as [[m0 m1] m2]. reval. lra. Qed.

Lemma trace_outer_self (a : vec3) :
  trace (outer a a) = vx a * vx a + vy a * vy a + vz a * vz a.
Proof. reval. lra. Qed.

Lemma tri_normal_degenerate (nodes : list vec3) (f : face) :
  norm (tri_vec nodes f) = 0 ->
  tri_normal nodes f = vzero /\ tri_area nodes f = 0 /\ tri_tensor nodes f = mzero.
Proof.
  intros H. unfold tri_tensor, tri_area, tri_normal. rewrite H.
  rewrite (proj2 (Rltb_false 0 0)) by lra.
  repeat split; [lra|]. reval. repeat f_equal; lra.
Qed.

Lemma unit_normal_sqr (a : vec3) :
  0 < norm a ->
  vx (vdiv a (norm a)) * vx (vdiv a (norm a)) +
  vy (vdiv a (norm a)) * vy (vdiv a (norm a)) +
  vz (vdiv a (norm a)) * vz (vdiv a (norm a)) = 1.
Proof.
  intros H. pose proof (norm_sqr a) as Hs.
  destruct a as [[x y] z]. unfold vdiv, vx, vy, vz in *. cbn [fst snd] in *.
  set (k := norm (x, y, z)) in *.
  replace (x / k * (x / k) + y / k * (y / k) + z / k * (z / k))
    with ((x * x + y * y + z * z) / (k * k)) by (field; lra).
  rewrite <- Hs. field. lra.
Qed.

Lemma tri_tensor_trace (nodes : list vec3) (f : face) :
  trace (tri_tensor nodes f) = tri_area nodes f.
Proof.
  unfold tri_tensor. rewrite trace_mscale, trace_outer_self.
  unfold tri_normal, tri_area.
  pose proof (norm_nonneg (tri_vec nodes f)) as Hn.
  destruct (Rltb 0 (norm (tri_vec nodes f))) eqn:E.
  - apply Rltb_true in E. rewrite (unit_normal_sqr _ E). lra.
  - apply Rltb_false in E. replace (norm (tri_vec nodes f)) with 0 by lra.
    reval. lra.
Qed.

Lemma tensor_sum_trace (nodes : list vec3) (faces : list face) :
  trace (tensor_sum nodes faces) = total_area nodes faces.
Proof.
  unfold tensor_sum, total_area.
  assert (H : forall acc,
             trace (fold_left (fun f k => madd f (tri_tensor nodes k)) faces acc) =
             trace acc + rsum (map (tri_area nodes) faces)).
  { induction faces as [|f faces IH]; intros acc; cbn [fold_left map].
    - unfold rsum; cbn. lra.
    - rewrite IH, trace_madd, tri_tensor_trace. unfold rsum; cbn. lra. }
  rewrite H. reval. lra.
Qed.

Lemma orientation_tensor_trace (nodes : list vec3) (faces : list face) :
  0 < total_area nodes faces -> trace (orientation_tensor nodes faces) = 1.
Proof.
  intros H. unfold orientation_tensor. rewrite trace_mdiv, tensor_sum_trace.
  field. lra.
Qed.

(** The sum of the roots of the characteristic polynomial is the trace. *)
Lemma spectrum_trace (m : mat3) (vals : vec3) :
  is_spectrum m vals -> vx vals + vy vals + vz vals = trace m.
Proof.
  intros H. pose proof (H 0) as H0. pose proof (H 1) as H1. pose proof (H (-1)) as H2.
  destruct m as [[[[a b] c] [[d e] f]] [[g h] i]], vals as [[l1 l2] l3].
  revert H0 H1 H2. reval. intros H0 H1 H2. lra.
Qed.

(** The three values in the order [rev (argsort vals)]: a descending
    rearrangement of [vals]. *)
Lemma sorted_eigen_values (vals : vec3) :
  exists f1 f2 f3,
    map (fun i => nth i (vlist vals) 0) (rev (Np.argsort Rltb (vlist vals))) = [f1; f2; f3] /\
    f3 <= f2 /\ f2 <= f1 /\ f1 + f2 + f3 = vx vals + vy vals + vz vals.
Proof.
  destruct vals as [[a b] c].
  unfold Np.argsort, Np.sort_pairs, Np.enumerate, vlist, vx, vy, vz.
  cbn [length seq combine fold_left Np.insert_pair fst snd].
  destruct (Rltb b a) eqn:E1; cbn [Np.insert_pair fst snd];
    destruct (Rltb c b) eqn:E2; cbn [Np.insert_pair fst snd];
    destruct (Rltb c a) eqn:E3; cbn [Np.insert_pair fst snd rev app map nth];
    rewrite ?Rltb_true, ?Rltb_false in *;
    do 3 eexists; (split; [reflexivity|]); lra.
Qed.

Lemma shape_indices_inv (ev : vec3 * mat3) (C F Rod : R) (vals : list R) (vecs : list vec3) :
  shape_indices ev = Ok (C, F, Rod, vals, vecs) ->
  exists f1 f2 f3,
    vals = [f1; f2; f3] /\ f3 <= f2 /\ f2 <= f1 /\ 0 < f1 /\
    f1 + f2 + f3 = vx (fst ev) + vy (fst ev) + vz (fst ev) /\
    C = f3 / f1 /\ F = (f1 - f2) / f1 /\ Rod = (f2 - f3) / f1.
Proof.
  destruct ev as [evals evecs]. unfold shape_indices.
  destruct (sorted_eigen_values evals) as (f1 & f2 & f3 & -> & H32 & H21 & Hsum).
  destruct (Rleb f1 0) eqn:E; [discriminate|]. apply Rleb_false in E.
  intros [= <- <- <- <- <-]. exists f1, f2, f3. cbn [fst]. repeat split; auto.
Qed.

Lemma shape_indices_ok (ev : vec3 * mat3) :
  0 < vx (fst ev) + vy (fst ev) + vz (fst ev) -> exists r, shape_indices ev = Ok r.
Proof.
  destruct ev as [evals evecs]. unfold shape_indices. cbn [fst]. intros H.
  destruct (sorted_eigen_values evals) as (f1 & f2 & f3 & -> & H32 & H21 & Hsum).
  rewrite (proj2 (Rleb_false f1 0)) by lra. eauto.
Qed.

(** C6. A successful call returns eigenvalues in descending order, with the
    indices C = f3/f1, F = (f1-f2)/f1 and R = (f2-f3)/f1, so that
    F + R = 1 - C; and when the solver returns the spectrum of the tensor
    handed to it, the three eigenvalues sum to 1, the trace of the
    normalised tensor. *)
Theorem orientation_eigenvalues
    (nodes : list vec3) (faces : list face)
    (C F Rod : R) (vals : list R) (vecs : list vec3) :
  surface_orientation_tensor nodes faces = Ok (C, F, Rod, vals, vecs) ->
  exists f1 f2 f3,
    vals = [f1; f2; f3] /\ f3 <= f2 /\ f2 <= f1 /\
    C = f3 / f1 /\ F = (f1 - f2) / f1 /\ Rod = (f2 - f3) / f1 /\
    F + Rod = 1 - C /\
    (is_spectrum (orientation_tensor nodes (faces_used nodes faces))
                 (fst (eig (orientation_tensor nodes (faces_used nodes faces)))) ->
     f1 + f2 + f3 = 1).
Proof.
  rewrite surface_orientation_tensor_rows.
  destruct (out_of_range _ _); [discriminate|].
  destruct (Rleb _ 0) eqn:Harea; [discriminate|]. apply Rleb_false in Harea.
  intros H. apply shape_indices_inv in H
    as (f1 & f2 & f3 & -> & H32 & H21 & Hpos & Hsum & -> & -> & ->).
  exists f1, f2, f3. repeat split; try assumption.
  - field. lra.
  - intros Hspec. apply spectrum_trace in Hspec.
    rewrite Hsum, Hspec. now apply orientation_tensor_trace.
Qed.

Lemma degenerate_sums (nodes : list vec3) (f : face) (faces : list face) :
  norm (tri_vec nodes f) = 0 ->
  total_area nodes (f :: faces) = total_area nodes faces /\
  tensor_sum nodes (f :: faces) = tensor_sum nodes faces.
Proof.
  intros Hf. destruct (tri_normal_degenerate nodes f Hf) as (Hn & Ha & Ht). split.
  - unfold total_area. cbn [map]. unfold rsum; cbn [fold_right]. rewrite Ha. lra.
  - unfold tensor_sum. cbn [fold_left]. rewrite Ht.
    replace (madd mzero mzero) with mzero; [reflexivity|].
    reval. repeat f_equal; lra.
Qed.

(** A degenerate triangle in front of a 0-based face array changes nothing
    in what the function returns. *)
Lemma degenerate_face_ignored (nodes : list vec3) (f : face) (faces : list face) :
  norm (tri_vec nodes f) = 0 ->
  faces_used nodes (f :: faces) = f :: faces ->
  faces_used nodes faces = faces ->
  out_of_range (face_entries (f :: faces)) (length nodes) = false ->
  surface_orientation_tensor nodes (f :: faces) = surface_orientation_tensor nodes faces.
Proof.
  intros Hf Hu1 Hu2 Hrange.
  rewrite !surface_orientation_tensor_rows, Hu1, Hu2, Hrange.
  assert (Hrange' : out_of_range (face_entries faces) (length nodes) = false).
  { apply out_of_range_spec. apply out_of_range_spec in Hrange.
    unfold face_entries in *. cbn [flat_map] in Hrange.
    apply Forall_app in Hrange. tauto. }
  rewrite Hrange'. unfold orientation_tensor.
  destruct (degenerate_sums nodes f faces Hf) as [-> ->]. reflexivity.
Qed.

(** C7. A triangle whose cross product has norm zero gets the zero vector
    as unit normal, adds nothing to the area and tensor sums and leaves the
    result of the function as it is; with the indices in range, the error
    "total surface area is zero" is raised exactly when the total area is
    not positive, and with a positive total area and a solver that returns
    the spectrum the call succeeds. *)
Theorem degenerate_triangles_total_area (nodes : list vec3) :
  (forall f,
     norm (tri_vec nodes f) = 0 ->
     tri_normal nodes f = vzero /\ tri_area nodes f = 0 /\ tri_tensor nodes f = mzero /\
     forall faces,
       total_area nodes (f :: faces) = total_area nodes faces /\
       tensor_sum nodes (f :: faces) = tensor_sum nodes faces /\
       (faces_used nodes (f :: faces) = f :: faces ->
        faces_used nodes faces = faces ->
        out_of_range (face_entries (f :: faces)) (length nodes) = false ->
        surface_orientation_tensor nodes (f :: faces) =
        surface_orientation_tensor nodes faces)) /\
  (forall faces,
     out_of_range (face_entries (faces_used nodes faces)) (length nodes) = false ->
     (surface_orientation_tensor nodes faces =
        Raise (ValueError "total surface area is zero; mesh may be degenerate") <->
      total_area nodes (faces_used nodes faces) <= 0) /\
     (0 < total_area nodes (faces_used nodes faces) ->
      is_spectrum (orientation_tensor nodes (faces_used nodes faces))
                  (fst (eig (orientation_tensor nodes (faces_used nodes faces)))) ->
      exists r, surface_orientation_tensor nodes faces = Ok r)).
Proof.
  split.
  - intros f Hf. destruct (tri_normal_degenerate nodes f Hf) as (Hn & Ha & Ht).
    repeat split; try assumption; try apply (degenerate_sums nodes f faces Hf).
    now apply degenerate_face_ignored.
  - intros faces Hrange. rewrite surface_orientation_tensor_rows, Hrange. split.
    + split.
      * destruct (Rleb _ 0) eqn:E; [now apply Rleb_true in E|].
        unfold shape_indices. destruct (eig _) as [evals evecs].
        destruct (sorted_eigen_values evals) as (f1 & f2 & f3 & -> & _).
        destruct (Rleb f1 0); discriminate.
      * intros H. now rewrite (proj2 (Rleb_true _ 0) H).
    + intros Hpos Hspec. rewrite (proj2 (Rleb_false _ 0) Hpos).
      apply shape_indices_ok. apply spectrum_trace in Hspec. rewrite Hspec.
      rewrite orientation_tensor_trace by assumption. lra.
Qed.

(** *** Invariance of the orientation tensor, and its total area *)


Lemma norm_vscale (c : R) (v : vec3) : norm (vscale c v) = Rabs c * norm v.
Proof.
  apply norm_scaled; [apply Rabs_pos|].
  destruct v as [[x y] z]. reval.
  replace (Rabs c * Rabs c) with (c * c); [ring|].
  unfold Rabs. destruct (Rcase_abs c); ring.
Qed.

(** The area and the tensor of a triangle whose vector [v] is replaced by
    [c * v], [c <> 0]: the unit normal is kept or reversed, and its outer
    product with itself is the same. *)
Lemma tri_scaled (c : R) (nodes nodes' : list vec3) (f f' : face) :
  c <> 0 ->
  tri_vec nodes' f' = vscale c (tri_vec nodes f) ->
  tri_area nodes' f' = Rabs c * tri_area nodes f /\
  tri_tensor nodes' f' = mscale (Rabs c) (tri_tensor nodes f).
Proof.
  intros Hc Hv. unfold tri_tensor, tri_area, tri_normal. rewrite Hv, norm_vscale.
  pose proof (Rabs_pos_lt c Hc) as Hpos.
  pose proof (norm_nonneg (tri_vec nodes f)) as Hn.
  split; [lra|].
  destruct (Rltb 0 (norm (tri_vec nodes f))) eqn:E.
  - apply Rltb_true in E. rewrite (proj2 (Rltb_true 0 _)) by nra.
    assert (Hcc : c / Rabs c * (c / Rabs c) = 1).
    { unfold Rabs in *. destruct (Rcase_abs c); field; lra. }
    set (n := norm (tri_vec nodes f)) in *. set (a := Rabs c) in *.
    clearbody n a. destruct (tri_vec nodes f) as [[x y] z]. reval.
    split_pairs;
      match goal with
      | |- 0.5 * (a * n) * (c * ?p / (a * n) * (c * ?q / (a * n))) = _ =>
          replace (0.5 * (a * n) * (c * p / (a * n) * (c * q / (a * n))))
            with (c / a * (c / a) * (a * (0.5 * n * (p / n * (q / n)))))
            by (field; lra);
          rewrite Hcc; ring
      end.
  - apply Rltb_false in E. rewrite (proj2 (Rltb_false 0 _)) by nra.
    reval. split_pairs; ring.
Qed.

Lemma mscale_madd (c : R) (m n : mat3) :
  mscale c (madd m n) = madd (mscale c m) (mscale c n).
Proof.
  destruct m as [[[[a b] c0] [[d e] f]] [[g h] i]],
           n as [[[[a' b'] c'] [[d' e'] f']] [[g' h'] i']].
  reval. split_pairs; ring.
Qed.

Lemma tensor_sum_scaled (c : R) (nodes nodes' : list vec3) (g : face -> face)
    (faces : list face) :
  (forall f, In f faces -> tri_tensor nodes' (g f) = mscale c (tri_tensor nodes f)) ->
  tensor_sum nodes' (map g faces) = mscale c (tensor_sum nodes faces).
Proof.
  intros H. unfold tensor_sum.
  assert (E : mzero = mscale c mzero) by (reval; split_pairs; ring).
  rewrite E at 1. generalize mzero as acc.
  induction faces as [|f faces IH]; intros acc; cbn [map fold_left]; [reflexivity|].
  rewrite H by now left. rewrite <- mscale_madd. apply IH.
  intros f' Hf'. apply H. now right.
Qed.

Lemma total_area_scaled (c : R) (nodes nodes' : list vec3) (g : face -> face)
    (faces : list face) :
  (forall f, In f faces -> tri_area nodes' (g f) = c * tri_area nodes f) ->
  total_area nodes' (map g faces) = c * total_area nodes faces.
Proof.
  intros H. unfold total_area. rewrite map_map, <- rsum_scale. f_equal.
  now apply map_ext_in.
Qed.

Lemma orientation_tensor_scaled (c : R) (nodes nodes' : list vec3) (g : face -> face)
    (faces : list face) :
  0 < c ->
  (forall f, In f faces ->
     tri_area nodes' (g f) = c * tri_area nodes f /\
     tri_tensor nodes' (g f) = mscale c (tri_tensor nodes f)) ->
  Rleb (total_area nodes' (map g faces)) 0 = Rleb (total_area nodes faces) 0 /\
  (0 < total_area nodes faces ->
   orientation_tensor nodes' (map g faces) = orientation_tensor nodes faces).
Proof.
  intros Hc H. unfold orientation_tensor.
  rewrite (@total_area_scaled c nodes nodes' g faces) by (intros; now apply H).
  rewrite (@tensor_sum_scaled c nodes nodes' g faces) by (intros; now apply H).
  split.
  - destruct (Rleb (total_area nodes faces) 0) eqn:E.
    + apply Rleb_true in E. apply Rleb_true. nra.
    + apply Rleb_false in E. apply Rleb_false. nra.
  - intros HA. set (A := total_area nodes faces) in *. clearbody A.
    destruct (tensor_sum nodes faces) as [[[[a b] c0] [[d e] f]] [[g0 h] i]].
    reval. split_pairs; field; lra.
Qed.


Lemma tri_vec_flip (nodes : list vec3) (f : face) :
  tri_vec nodes (face_flip f) = vscale (-1) (tri_vec nodes f).
Proof.
  unfold tri_vec, face_flip, fcol0, fcol1, fcol2. destruct f as [[i0 i1] i2].
  cbn [fst snd].
  destruct (take vzero nodes i0) as [[ax ay] az],
           (take vzero nodes i1) as [[bx by'] bz],
           (take vzero nodes i2) as [[cx cy] cz].
  reval. split_pairs; ring.
Qed.

Lemma tri_vec_rot (nodes : list vec3) (f : face) :
  tri_vec nodes (face_rot f) = vscale 1 (tri_vec nodes f).
Proof.
  unfold tri_vec, face_rot, fcol0, fcol1, fcol2. destruct f as [[i0 i1] i2].
  cbn [fst snd].
  destruct (take vzero nodes i0) as [[ax ay] az],
           (take vzero nodes i1) as [[bx by'] bz],
           (take vzero nodes i2) as [[cx cy] cz].
  reval. split_pairs; ring.
Qed.

(** In exact real arithmetic, where a reordered face has the area of the
    original one: what is returned or raised after a reordering. *)
Lemma orientation_reorder (g : face -> face) (c : R) (nodes : list vec3)
    (faces : list face) :
  reorders g -> Rabs c = 1 ->
  (forall f, tri_vec nodes (g f) = vscale c (tri_vec nodes f)) ->
  surface_orientation_tensor nodes (map g faces) =
  surface_orientation_tensor nodes faces.
Proof.
  intros Hg Hc Hv. rewrite !surface_orientation_tensor_rows.
  rewrite (faces_used_reorder nodes faces Hg).
  rewrite (proj2 (one_based_reorder (faces_used nodes faces) (length nodes) Hg)).
  destruct (out_of_range _ _); [reflexivity|].
  assert (Hc0 : c <> 0) by (intros ->; rewrite Rabs_R0 in Hc; lra).
  destruct (@orientation_tensor_scaled 1 nodes nodes g (faces_used nodes faces))
    as [HA HT]; [lra | |].
  { intros f _. rewrite <- Hc. now apply tri_scaled. }
  rewrite HA.
  destruct (Rleb (total_area nodes (faces_used nodes faces)) 0) eqn:E; [reflexivity|].
  apply Rleb_false in E. now rewrite HT.
Qed.

Lemma orientation_reorder_values (g : face -> face) (c : R) (nodes : list vec3)
    (faces : list face) :
  reorders g -> Rabs c = 1 ->
  (forall f, tri_vec nodes (g f) = vscale c (tri_vec nodes f)) ->
  total_area nodes (faces_used nodes (map g faces)) =
  total_area nodes (faces_used nodes faces) /\
  orientation_tensor nodes (faces_used nodes (map g faces)) =
  orientation_tensor nodes (faces_used nodes faces).
Proof.
  intros Hg Hc Hv. rewrite (faces_used_reorder nodes faces Hg).
  assert (Hc0 : c <> 0) by (intros ->; rewrite Rabs_R0 in Hc; lra).
  assert (Hf : forall f,
             tri_area nodes (g f) = 1 * tri_area nodes f /\
             tri_tensor nodes (g f) = mscale 1 (tri_tensor nodes f)).
  { intros f. rewrite <- Hc. now apply tri_scaled. }
  assert (HA : total_area nodes (map g (faces_used nodes faces)) =
               total_area nodes (faces_used nodes faces)).
  { rewrite (@total_area_scaled 1 nodes nodes g) by (intros; apply Hf). lra. }
  split; [exact HA|]. unfold orientation_tensor. rewrite HA.
  rewrite (@tensor_sum_scaled 1 nodes nodes g) by (intros; apply Hf).
  assert (E : forall m : mat3, mscale 1 m = m).
  { intros [[[[a b] c0] [[d e] f]] [[g0 h] i]]. reval. split_pairs; ring. }
  now rewrite E.
Qed.

Lemma orientation_reorder_agrees (g : face -> face) (c : R) (nodes : list vec3)
    (faces : list face) :
  reorders g -> Rabs c = 1 ->
  (forall f, tri_vec nodes (g f) = vscale c (tri_vec nodes f)) ->
  (surface_orientation_tensor nodes (map g faces) =
     Raise (ValueError "face indices out of range for nodes array") <->
   surface_orientation_tensor nodes faces =
     Raise (ValueError "face indices out of range for nodes array")) /\
  total_area nodes (faces_used nodes (map g faces)) =
  total_area nodes (faces_used nodes faces) /\
  orientation_tensor nodes (faces_used nodes (map g faces)) =
  orientation_tensor nodes (faces_used nodes faces) /\
  (forall r r',
     surface_orientation_tensor nodes (map g faces) = Ok r ->
     surface_orientation_tensor nodes faces = Ok r' -> r = r').
Proof.
  intros Hg Hc Hv.
  pose proof (@orientation_reorder g c nodes faces Hg Hc Hv) as E.
  destruct (@orientation_reorder_values g c nodes faces Hg Hc Hv) as [HA HT].
  split; [now rewrite E | split; [exact HA | split; [exact HT|]]].
  intros r r' H H'. rewrite E, H' in H. congruence.
Qed.

(** X17. The order in which a face lists its three vertices, reversed
    ([faces[:, [0, 2, 1]]], which reverses every normal) or started at the
    second vertex ([faces[:, [1, 2, 0]]]): the index error is raised for the
    reordered faces exactly when it is raised for the original ones, and on
    the reals the total area and the normalised tensor handed to the solver
    are the same, so that two results are the same result. *)
Lemma orientation_vertex_order (nodes : list vec3) (faces : list face) :
  ((surface_orientation_tensor nodes (map face_flip faces) =
      Raise (ValueError "face indices out of range for nodes array") <->
    surface_orientation_tensor nodes faces =
      Raise (ValueError "face indices out of range for nodes array")) /\
   total_area nodes (faces_used nodes (map face_flip faces)) =
   total_area nodes (faces_used nodes faces) /\
   orientation_tensor nodes (faces_used nodes (map face_flip faces)) =
   orientation_tensor nodes (faces_used nodes faces) /\
   (forall r r',
      surface_orientation_tensor nodes (map face_flip faces) = Ok r ->
      surface_orientation_tensor nodes faces = Ok r' -> r = r')) /\
  ((surface_orientation_tensor nodes (map face_rot faces) =
      Raise (ValueError "face indices out of range for nodes array") <->
    surface_orientation_tensor nodes faces =
      Raise (ValueError "face indices out of range for nodes array")) /\
   total_area nodes (faces_used nodes (map face_rot faces)) =
   total_area nodes (faces_used nodes faces) /\
   orientation_tensor nodes (faces_used nodes (map face_rot faces)) =
   orientation_tensor nodes (faces_used nodes faces) /\
   (forall r r',
      surface_orientation_tensor nodes (map face_rot faces) = Ok r ->
      surface_orientation_tensor nodes faces = Ok r' -> r = r')).
Proof.
  split.
  - apply (@orientation_reorder_agrees face_flip (-1)).
    + exact face_flip_reorders.
    + unfold Rabs. destruct (Rcase_abs (-1)); lra.
    + apply tri_vec_flip.
  - apply (@orientation_reorder_agrees face_rot 1).
    + exact face_rot_reorders.
    + apply Rabs_R1.
    + apply tri_vec_rot.
Qed.

Lemma tri_area_triangle_area (nodes : list vec3) (f : face) :
  tri_area nodes f = triangle_area nodes f.
Proof.
  unfold tri_area, triangle_area, tri_vec.
  destruct (take vzero nodes (fcol0 f)) as [[ax ay] az],
           (take vzero nodes (fcol1 f)) as [[bx by'] bz],
           (take vzero nodes (fcol2 f)) as [[cx cy] cz].
  unfold norm. reval. do 2 f_equal. ring.
Qed.

(** X18. [surface_orientation_tensor] and [surface_area] raise the index
    error for the same meshes, and on the reals the total area the
    orientation tensor is normalised by is the value [surface_area]
    returns. *)
Lemma orientation_total_area_is_surface_area (nodes : list vec3) (faces : list face) :
  (surface_area nodes faces =
     Raise (ValueError "face indices out of range for nodes array") <->
   surface_orientation_tensor nodes faces =
     Raise (ValueError "face indices out of range for nodes array")) /\
  (forall e, surface_area nodes faces = Raise e ->
             surface_orientation_tensor nodes faces = Raise e) /\
  (forall a, surface_area nodes faces = Ok a ->
             a = total_area nodes (faces_used nodes faces)).
Proof.
  rewrite surface_area_rows, surface_orientation_tensor_rows.
  assert (Ha : rsum (map (triangle_area nodes) (faces_used nodes faces)) =
               total_area nodes (faces_used nodes faces)).
  { unfold total_area. f_equal. apply map_ext. intros f.
    symmetry. apply tri_area_triangle_area. }
  destruct (out_of_range _ _).
  - split; [split; reflexivity | split; [now intros e [= <-] | discriminate]].
  - split; [split; [discriminate|] | split; [discriminate | now intros a [= <-]]].
    destruct (Rleb _ 0); [discriminate|].
    unfold shape_indices. destruct (eig _) as [evals evecs].
    destruct (sorted_eigen_values evals) as (f1 & f2 & f3 & -> & _).
    destruct (Rleb f1 0); discriminate.
Qed.

(** The three indices of a result: F and R are not negative, C is at most 1
    and the three sum to 1; when C is not negative either, each lies in
    [0, 1]. *)
Lemma orientation_indices_bounds
    (nodes : list vec3) (faces : list face)
    (C F Rod : R) (vals : list R) (vecs : list vec3) :
  surface_orientation_tensor nodes faces = Ok (C, F, Rod, vals, vecs) ->
  0 <= F /\ 0 <= Rod /\ C <= 1 /\ C + F + Rod = 1 /\
  (0 <= C -> F <= 1 /\ Rod <= 1).
Proof.
  rewrite surface_orientation_tensor_rows.
  destruct (out_of_range _ _); [discriminate|].
  destruct (Rleb _ 0); [discriminate|].
  intros H. apply shape_indices_inv in H
    as (f1 & f2 & f3 & -> & H32 & H21 & Hpos & _ & -> & -> & ->).
  assert (E1 : f3 = f3 / f1 * f1) by (field; lra).
  assert (E2 : f1 - f2 = (f1 - f2) / f1 * f1) by (field; lra).
  assert (E3 : f2 - f3 = (f2 - f3) / f1 * f1) by (field; lra).
  assert (Es : f3 / f1 + (f1 - f2) / f1 + (f2 - f3) / f1 = 1) by (field; lra).
  repeat split; try nra.
Qed.

End OrientationTensor.

(** *** The unit square of the test suite, with a solver for diagonal
    matrices *)

Definition diag_eig (m : mat3) : vec3 * mat3 :=
  let '(m0, m1, m2) := m in ((vx m0, vy m1, vz m2), identity).

Lemma unit_square_norms :
  norm (tri_vec unit_square (0, 1, 2)%Z) = 1 /\ norm (tri_vec unit_square (0, 2, 3)%Z) = 1.
Proof. split; apply norm_eval; reval; lra. Qed.

Lemma unit_square_total_area : total_area unit_square unit_square_faces = 1.
Proof.
  destruct unit_square_norms as [H1 H2].
  unfold total_area, unit_square_faces, tri_area. cbn [map]. rewrite H1, H2.
  reval. lra.
Qed.

Lemma unit_square_tensor :
  orientation_tensor unit_square unit_square_faces = ((0, 0, 0), (0, 0, 0), (0, 0, 1)).
Proof.
  destruct unit_square_norms as [H1 H2].
  unfold orientation_tensor. rewrite unit_square_total_area.
  unfold tensor_sum, unit_square_faces, tri_tensor, tri_normal, tri_area.
  cbn [fold_left]. rewrite H1, H2. rcompare. reval.
  repeat (apply f_equal2); lra.
Qed.

Lemma unit_square_spectrum :
  is_spectrum (orientation_tensor unit_square (faces_used unit_square unit_square_faces))
    (fst (diag_eig (orientation_tensor unit_square (faces_used unit_square unit_square_faces)))).
Proof.
  change (faces_used unit_square unit_square_faces) with unit_square_faces.
  rewrite unit_square_tensor. intros x. reval. ring.
Qed.

Lemma unit_square_orientation :
  surface_orientation_tensor diag_eig unit_square unit_square_faces =
  Ok (0 / 1, (1 - 0) / 1, (0 - 0) / 1, [1; 0; 0], [(0, 0, 1); (0, 1, 0); (1, 0, 0)]).
Proof.
  rewrite surface_orientation_tensor_rows.
  change (faces_used unit_square unit_square_faces) with unit_square_faces.
  change (out_of_range (face_entries unit_square_faces) (length unit_square)) with false.
  cbv iota. rewrite unit_square_total_area, unit_square_tensor. rcompare.
  unfold shape_indices, diag_eig, Np.argsort, Np.sort_pairs, Np.enumerate, vlist, vx, vy, vz.
  cbn [fst snd length seq combine fold_left Np.insert_pair]. rcompare.
  cbn [Np.insert_pair fst snd]. rcompare. cbn [Np.insert_pair fst snd]. rcompare.
  cbn [rev app map nth column vlist vx vy vz fst snd identity]. rcompare.
  reflexivity.
Qed.

Lemma orientation_eigenvalues_witness :
  exists f1 f2 f3,
    [1; 0; 0] = [f1; f2; f3] /\ f3 <= f2 /\ f2 <= f1 /\
    0 / 1 = f3 / f1 /\ (1 - 0) / 1 = (f1 - f2) / f1 /\ (0 - 0) / 1 = (f2 - f3) / f1 /\
    (1 - 0) / 1 + (0 - 0) / 1 = 1 - 0 / 1 /\
    (is_spectrum (orientation_tensor unit_square (faces_used unit_square unit_square_faces))
       (fst (diag_eig (orientation_tensor unit_square
                         (faces_used unit_square unit_square_faces)))) ->
     f1 + f2 + f3 = 1).
Proof.
  exact (orientation_eigenvalues diag_eig unit_square unit_square_faces
           unit_square_orientation).
Defined.


(** A mesh with a degenerate triangle: the last face repeats a vertex. *)
Definition degenerate_face : face := (0, 0, 1)%Z.

Lemma degenerate_triangles_total_area_witness :
  (tri_normal unit_square degenerate_face = vzero /\
   tri_area unit_square degenerate_face = 0 /\
   tri_tensor unit_square degenerate_face = mzero /\
   forall faces,
     total_area unit_square (degenerate_face :: faces) = total_area unit_square faces /\
     tensor_sum unit_square (degenerate_face :: faces) = tensor_sum unit_square faces /\
     (faces_used unit_square (degenerate_face :: faces) = degenerate_face :: faces ->
      faces_used unit_square faces = faces ->
      out_of_range (face_entries (degenerate_face :: faces)) (length unit_square) = false ->
      surface_orientation_tensor diag_eig unit_square (degenerate_face :: faces) =
      surface_orientation_tensor diag_eig unit_square faces)) /\
  (exists r, surface_orientation_tensor diag_eig unit_square unit_square_faces = Ok r).
Proof.
  split.
  - apply (proj1 (degenerate_triangles_total_area diag_eig unit_square) degenerate_face).
    apply norm_eval; reval; lra.
  - apply (proj2 (degenerate_triangles_total_area diag_eig unit_square) unit_square_faces).
    + reflexivity.
    + change (faces_used unit_square unit_square_faces) with unit_square_faces.
      rewrite unit_square_total_area. lra.
    + exact unit_square_spectrum.
Defined.

(** The unit square with the degenerate face in front: the same result. *)
Example unit_square_with_degenerate_face :
  surface_orientation_tensor diag_eig unit_square (degenerate_face :: unit_square_faces) =
  Ok (0 / 1, (1 - 0) / 1, (0 - 0) / 1, [1; 0; 0], [(0, 0, 1); (0, 1, 0); (1, 0, 0)]).
Proof.
  rewrite degenerate_face_ignored; try reflexivity.
  - apply unit_square_orientation.
  - apply norm_eval; reval; lra.
Qed.

End Orientation.

(** ** [examples/util_meshes.py] and the volume of [viewer_app/gui.py] *)

Module Meshes.

Import Vec Index Geometry Orientation.
Local Open Scope R_scope.
Local Open Scope string_scope.


(** [nodes[i]] of NumPy for any integer [i]: a negative index counts from the
    end, and an index outside [-N, N) raises IndexError, here [None]. *)
Definition getitem {A : Type} (nodes : list A) (i : Z) : option A :=
  let N := Z.of_nat (length nodes) in
  if ((0 <=? i) && (i <? N))%Z then nth_error nodes (Z.to_nat i)
  else if ((- N <=? i) && (i <? 0))%Z then nth_error nodes (Z.to_nat (i + N))
  else None.

(** [nodes[idx]] for an index array [idx]. *)
Fixpoint getitems {A : Type} (nodes : list A) (idx : list Z) : option (list A) :=
  match idx with
  | [] => Some []
  | i :: t =>
      match getitem nodes i, getitems nodes t with
      | Some a, Some l => Some (a :: l)
      | _, _ => None
      end
  end.

(** [compute_volume_from_tri_mesh(nodes, faces)] of the viewer: the signed
    volume of a closed triangle mesh, [None] for an IndexError. *)
Definition compute_volume_from_tri_mesh (nodes : list vec3) (faces : list face)
    : option R :=
  match getitems nodes (map fcol0 faces),
        getitems nodes (map fcol1 faces),
        getitems nodes (map fcol2 faces) with
  | Some v0, Some v1, Some v2 => Some (rsum (map2 dot v0 (map2 cross v1 v2)) / 6.0)
  | _, _, _ => None
  end.

Lemma signed_volume_flip (v0 v1 v2 : list vec3) :
  rsum (map2 dot v0 (map2 cross v2 v1)) = - rsum (map2 dot v0 (map2 cross v1 v2)).
Proof.
  revert v1 v2. induction v0 as [|a v0 IH]; intros [|b v1] [|c v2];
    unfold rsum in *; cbn [map2 fold_right]; try lra.
  rewrite IH. destruct a as [[ax ay] az], b as [[bx by'] bz], c as [[cx cy] cz].
  reval. ring.
Qed.

(** X19. Reversing the winding of every face changes the sign of the volume and
    nothing else: the sign tells the orientation of the faces. *)
Lemma compute_volume_flip (nodes : list vec3) (faces : list face) :
  compute_volume_from_tri_mesh nodes (map face_flip faces) =
  option_map Ropp (compute_volume_from_tri_mesh nodes faces).
Proof.
  unfold compute_volume_from_tri_mesh. rewrite !map_map.
  change (map (fun x => fcol0 (face_flip x)) faces) with (map fcol0 faces).
  change (map (fun x => fcol1 (face_flip x)) faces) with (map fcol2 faces).
  change (map (fun x => fcol2 (face_flip x)) faces) with (map fcol1 faces).
  destruct (getitems nodes (map fcol0 faces)) as [v0|]; [|reflexivity].
  destruct (getitems nodes (map fcol1 faces)) as [v1|],
           (getitems nodes (map fcol2 faces)) as [v2|]; try reflexivity.
  cbn [option_map]. f_equal. rewrite signed_volume_flip. lra.
Qed.








Section CubeOrientation.

Variable eig : mat3 -> vec3 * mat3.


End CubeOrientation.


End Meshes.

(** ** [pyshape/roughness.py] : roughness of a height field *)

Module Roughness.

Import Vec.
Local Open Scope R_scope.
Local Open Scope string_scope.

(** The array [np.asarray(z, dtype=float)]: a scalar (0-D), a vector (1-D),
    a grid of [length rows] rows and [ncols] columns (2-D), or an array of
    [3 + extra_dims] dimensions, of which only the entries matter here. *)
Inductive ndarray : Type :=
| Arr0 (x : R)
| Arr1 (xs : list R)
| Arr2 (ncols : nat) (rows : list (list R))
| ArrN (extra_dims : nat) (flat : list R).

Definition ndim (z : ndarray) : nat :=
  match z with
  | Arr0 _ => 0
  | Arr1 _ => 1
  | Arr2 _ _ => 2
  | ArrN k _ => 3 + k
  end.

(** The entries of an array, in row-major order. *)
Definition entries (z : ndarray) : list R :=
  match z with
  | Arr0 x => [x]
  | Arr1 xs => xs
  | Arr2 _ rows => concat rows
  | ArrN _ flat => flat
  end.

(** [Z.shape] of a 2-D array. *)
Definition grid_rows (z : ndarray) : list (list R) :=
  match z with Arr2 _ rows => rows | _ => [] end.
Definition nrows (z : ndarray) : nat := length (grid_rows z).
Definition ncols (z : ndarray) : nat :=
  match z with Arr2 n _ => n | _ => 0%nat end.

(** Every row of a grid has [ncols] entries. *)
Definition well_formed (z : ndarray) : Prop :=
  Forall (fun row => length row = ncols z) (grid_rows z).

(** [np.diff(row, n=1)] on one row, and [np.diff(Z, n=1, axis=0)] on the
    list of rows. *)
Definition diff (row : list R) : list R := map2 Rminus (tl row) row.
Definition diff_rows (rows : list (list R)) : list (list R) :=
  map2 (map2 Rminus) (tl rows) rows.

(** [np.sum(a ** 2)] of a 2-D array. *)
Definition sum_squares (a : list (list R)) : R :=
  rsum (map (fun row => rsum (map (fun t => t ^ 2) row)) a).

(** [sdq(z, dx, dy)] *)
Definition sdq (z : ndarray) (dx dy : R) : result R :=
  if negb (Nat.eqb (ndim z) 2)
  then Raise (ValueError "z must be a 2-D array of shape (M, N)")
  else if Rleb dx 0 || Rleb dy 0
  then Raise (ValueError "dx and dy must be > 0")
  else
    let M := nrows z in
    let N := ncols z in
    if Nat.ltb M 2 || Nat.ltb N 2
    then Raise (ValueError "z must have at least 2x2 samples to compute gradients")
    else
      let dZdx := map (fun row => map (fun t => t / dx) (diff row)) (grid_rows z) in
      let dZdy := map (fun row => map (fun t => t / dy) row) (diff_rows (grid_rows z)) in
      let num := sum_squares dZdx + sum_squares dZdy in
      let denom := ((M - 1) * (N - 1))%nat in
      Ok (sqrt (num / INR denom)).

(** The formula of the specification, by indices: [z[i][j]] and sums over
    index ranges. *)
Definition cell (z : ndarray) (i j : nat) : R := nth j (nth i (grid_rows z) []) 0.

Fixpoint big_sum (f : nat -> R) (n : nat) : R :=
  match n with
  | O => 0
  | S k => big_sum f k + f k
  end.

Definition sdq_formula (z : ndarray) (dx dy : R) : R :=
  let M := nrows z in
  let N := ncols z in
  sqrt ((big_sum (fun i => big_sum (fun j => ((cell z i (S j) - cell z i j) / dx) ^ 2) (N - 1)) M +
         big_sum (fun i => big_sum (fun j => ((cell z (S i) j - cell z i j) / dy) ^ 2) N) (M - 1))
        / INR ((M - 1) * (N - 1))).

Lemma big_sum_ext (f g : nat -> R) (n : nat) :
  (forall k, (k < n)%nat -> f k = g k) -> big_sum f n = big_sum g n.
Proof.
  induction n as [|n IH]; intros H; cbn; [reflexivity|].
  rewrite IH by (intros k Hk; apply H; lia). rewrite H by lia. reflexivity.
Qed.

Lemma big_sum_shift (f : nat -> R) (n : nat) :
  big_sum f (S n) = f O + big_sum (fun k => f (S k)) n.
Proof.
  induction n as [|n IH]; [cbn; lra|].
  change (big_sum f (S (S n))) with (big_sum f (S n) + f (S n)).
  rewrite IH. cbn. lra.
Qed.

(** A sum over a list is the sum over its indices. *)
Lemma rsum_map_nth {A : Type} (g : A -> R) (l : list A) (d : A) :
  rsum (map g l) = big_sum (fun k => g (nth k l d)) (length l).
Proof.
  induction l as [|a l IH]; [reflexivity|].
  cbn [length]. rewrite big_sum_shift. cbn [map nth]. rewrite <- IH.
  reflexivity.
Qed.

Lemma nth_tl {A : Type} (l : list A) (k : nat) (d : A) : nth k (tl l) d = nth (S k) l d.
Proof. destruct l; [now destruct k | reflexivity]. Qed.

Lemma diff_length (row : list R) : length (diff row) = (length row - 1)%nat.
Proof.
  unfold diff. rewrite map2_length. destruct row; cbn; [reflexivity|]. lia.
Qed.

Lemma diff_nth (row : list R) (k : nat) :
  (S k < length row)%nat -> nth k (diff row) 0 = nth (S k) row 0 - nth k row 0.
Proof.
  intros H. unfold diff. rewrite (map2_nth Rminus (tl row) row 0 0 0).
  - now rewrite nth_tl.
  - destruct row; cbn in *; lia.
  - lia.
Qed.

Lemma diff_rows_length (rows : list (list R)) :
  length (diff_rows rows) = (length rows - 1)%nat.
Proof.
  unfold diff_rows. rewrite map2_length. destruct rows; cbn; [reflexivity|]. lia.
Qed.

Lemma diff_rows_nth (rows : list (list R)) (i : nat) :
  (S i < length rows)%nat ->
  nth i (diff_rows rows) [] = map2 Rminus (nth (S i) rows []) (nth i rows []).
Proof.
  intros H. unfold diff_rows. rewrite (map2_nth (map2 Rminus) (tl rows) rows [] [] []).
  - now rewrite nth_tl.
  - destruct rows; cbn in *; lia.
  - lia.
Qed.

Lemma sum_squares_dx (z : ndarray) (dx : R) :
  well_formed z ->
  sum_squares (map (fun row => map (fun t => t / dx) (diff row)) (grid_rows z)) =
  big_sum (fun i => big_sum (fun j => ((cell z i (S j) - cell z i j) / dx) ^ 2) (ncols z - 1))
          (nrows z).
Proof.
  intros Hwf. unfold sum_squares, nrows. rewrite map_map.
  rewrite (rsum_map_nth _ (grid_rows z) []).
  apply big_sum_ext. intros i Hi.
  assert (Hlen : length (nth i (grid_rows z) []) = ncols z).
  { unfold well_formed in Hwf. rewrite Forall_forall in Hwf.
    apply Hwf, nth_In, Hi. }
  rewrite map_map, (rsum_map_nth _ (diff (nth i (grid_rows z) [])) 0).
  rewrite diff_length, Hlen.
  apply big_sum_ext. intros j Hj.
  rewrite diff_nth by lia. reflexivity.
Qed.

Lemma sum_squares_dy (z : ndarray) (dy : R) :
  well_formed z ->
  sum_squares (map (fun row => map (fun t => t / dy) row) (diff_rows (grid_rows z))) =
  big_sum (fun i => big_sum (fun j => ((cell z (S i) j - cell z i j) / dy) ^ 2) (ncols z))
          (nrows z - 1).
Proof.
  intros Hwf. unfold sum_squares, nrows. rewrite map_map.
  rewrite (rsum_map_nth _ (diff_rows (grid_rows z)) []), diff_rows_length.
  apply big_sum_ext. intros i Hi.
  assert (Hlen : forall k, (k < length (grid_rows z))%nat ->
                           length (nth k (grid_rows z) []) = ncols z).
  { intros k Hk. unfold well_formed in Hwf. rewrite Forall_forall in Hwf.
    apply Hwf, nth_In, Hk. }
  rewrite diff_rows_nth by lia.
  rewrite map_map, (rsum_map_nth _ (map2 Rminus _ _) 0).
  rewrite map2_length, !Hlen, Nat.min_id by lia.
  apply big_sum_ext. intros j Hj.
  rewrite (map2_nth Rminus _ _ 0 0 0) by (rewrite Hlen; lia). reflexivity.
Qed.

Lemma sdq_in_domain (z : ndarray) (dx dy : R) :
  well_formed z -> ndim z = 2%nat -> (2 <= nrows z)%nat -> (2 <= ncols z)%nat ->
  0 < dx -> 0 < dy ->
  sdq z dx dy = Ok (sdq_formula z dx dy).
Proof.
  intros Hwf Hdim HM HN Hdx Hdy. unfold sdq, sdq_formula.
  rewrite Hdim. cbn [Nat.eqb negb]. rcompare. cbn [orb].
  rewrite (proj2 (Nat.ltb_ge (nrows z) 2) HM), (proj2 (Nat.ltb_ge (ncols z) 2) HN).
  cbn [orb]. cbv zeta.
  rewrite sum_squares_dx, sum_squares_dy by assumption. reflexivity.
Qed.

(** C5. On a 2-D grid with at least two rows and two columns and positive
    spacings, [sdq] returns the square root of the two directional sums of
    squared forward differences (divided by [dx] and by [dy]) over the one
    normaliser (rows-1)*(cols-1); it raises exactly when the array is not
    2-D, a dimension is below 2, or a spacing is not positive. *)
Theorem sdq_formula_and_errors (z : ndarray) (dx dy : R) :
  (well_formed z -> ndim z = 2%nat -> (2 <= nrows z)%nat -> (2 <= ncols z)%nat ->
   0 < dx -> 0 < dy ->
   sdq z dx dy = Ok (sdq_formula z dx dy)) /\
  (raises_ValueError (sdq z dx dy) <->
   ndim z <> 2%nat \/ (nrows z < 2)%nat \/ (ncols z < 2)%nat \/ dx <= 0 \/ dy <= 0).
Proof.
  split; [apply sdq_in_domain|].
  unfold raises_ValueError, sdq. split.
  - intros [msg H].
    destruct (Nat.eqb (ndim z) 2) eqn:Edim;
      [apply Nat.eqb_eq in Edim | apply Nat.eqb_neq in Edim; now left].
    cbn [negb] in H.
    destruct (Rleb dx 0) eqn:Ex; [apply Rleb_true in Ex; auto|].
    destruct (Rleb dy 0) eqn:Ey; [apply Rleb_true in Ey; auto 6|].
    cbn [orb] in H.
    destruct (Nat.ltb (nrows z) 2) eqn:EM; [apply Nat.ltb_lt in EM; auto|].
    destruct (Nat.ltb (ncols z) 2) eqn:EN; [apply Nat.ltb_lt in EN; auto|].
    discriminate.
  - intros H.
    destruct (Nat.eqb (ndim z) 2) eqn:Edim; cbn [negb]; [|eauto].
    apply Nat.eqb_eq in Edim.
    destruct (Rleb dx 0) eqn:Ex; cbn [orb]; [eauto|].
    destruct (Rleb dy 0) eqn:Ey; cbn [orb]; [eauto|].
    apply Rleb_false in Ex, Ey.
    destruct (Nat.ltb (nrows z) 2) eqn:EM; cbn [orb]; [eauto|].
    destruct (Nat.ltb (ncols z) 2) eqn:EN; cbn [orb]; [eauto|].
    apply Nat.ltb_ge in EM, EN. exfalso.
    destruct H as [H|[H|[H|[H|H]]]]; try lia; try lra.
Qed.

(** A 2x2 grid with unit spacings. *)
Definition ramp_grid : ndarray := Arr2 2 [[0; 1]; [1; 2]].

Lemma sdq_formula_and_errors_witness :
  sdq ramp_grid 1 1 = Ok (sdq_formula ramp_grid 1 1).
Proof.
  apply (proj1 (sdq_formula_and_errors ramp_grid 1 1)).
  - repeat constructor.
  - reflexivity.
  - cbn; lia.
  - cbn; lia.
  - lra.
  - lra.
Defined.

Example sdq_ramp_grid : sdq ramp_grid 1 1 = Ok 2.
Proof.
  rewrite sdq_in_domain; try lra; try (cbn; lia); try (repeat constructor).
  unfold sdq_formula. reval. f_equal. apply sqrt_lem_1; lra.
Qed.

(** *** Heights: RMS, mean roughness, kurtosis and skewness *)

(** A [float] that may be an infinity or a not-a-number. *)
Inductive npfloat : Type :=
| Finite (x : R)
| PosInf
| NegInf
| NaN.

(** [np.mean] of a 1-D array, idealised to the exact mean of real numbers:
    NaN on the empty array.  The mean NumPy returns is a binary64 number that
    can differ from the exact one in the last place, so that the test
    [sq_value == 0] of [sku] and [ssk] is decided in [Roughness64], over
    binary64, and only numeric values are stated over this definition. *)
Definition np_mean (l : list R) : npfloat :=
  match l with
  | [] => NaN
  | _ => Finite (rsum l / INR (length l))
  end.

(** [np.sqrt] *)
Definition np_sqrt (a : npfloat) : npfloat :=
  match a with
  | Finite x => if Rltb x 0 then NaN else Finite (sqrt x)
  | PosInf => PosInf
  | NegInf => NaN
  | NaN => NaN
  end.

(** [a ** p] for an exponent [p] that is a positive integer. *)
Definition np_pow (a : npfloat) (p : nat) : npfloat :=
  match a with
  | Finite x => Finite (x ^ p)
  | PosInf => PosInf
  | NegInf => if Nat.even p then PosInf else NegInf
  | NaN => NaN
  end.

(** [a / b] on NumPy floats: a zero divisor gives an infinity or NaN and
    does not raise. *)
Definition np_div (a b : npfloat) : npfloat :=
  match a, b with
  | NaN, _ | _, NaN => NaN
  | Finite x, Finite y =>
      if Reqb y 0
      then (if Reqb x 0 then NaN else if Rltb 0 x then PosInf else NegInf)
      else Finite (x / y)
  | Finite _, _ => Finite 0
  | PosInf, Finite y => if Rltb y 0 then NegInf else PosInf
  | NegInf, Finite y => if Rltb y 0 then PosInf else NegInf
  | _, _ => NaN
  end.

(** [a == 0] *)
Definition np_is_zero (a : npfloat) : bool :=
  match a with Finite x => Reqb x 0 | _ => false end.

(** [_mean_center(z)]: the array and its mean. *)
Definition _mean_center (z : ndarray) : result (ndarray * npfloat) :=
  if Nat.ltb (ndim z) 1 then Raise (ValueError "z must be at least 1-D")
  else
    let zm := np_mean (entries z) in
    Ok (z, zm).

(** [np.mean((z - zm) ** p)] and [np.mean(np.abs(z - zm))]; a mean [zm]
    that is not finite arises from the empty array only, whose mean is NaN. *)
Definition mean_pow_dev (z : ndarray) (zm : npfloat) (p : nat) : npfloat :=
  match zm with
  | Finite m => np_mean (map (fun x => (x - m) ^ p) (entries z))
  | _ => NaN
  end.

Definition mean_abs_dev (z : ndarray) (zm : npfloat) : npfloat :=
  match zm with
  | Finite m => np_mean (map (fun x => Rabs (x - m)) (entries z))
  | _ => NaN
  end.

(** [sq(z)] *)
Definition sq (z : ndarray) : result npfloat :=
  c <- _mean_center z ;;
  let '(z, zm) := c in
  Ok (np_sqrt (mean_pow_dev z zm 2)).

(** [sa(z)] *)
Definition sa (z : ndarray) : result npfloat :=
  c <- _mean_center z ;;
  let '(z, zm) := c in
  Ok (mean_abs_dev z zm).

(** [sku(z, sq_value=None)] *)
Definition sku (z : ndarray) (sq_value : option npfloat) : result npfloat :=
  c <- _mean_center z ;;
  let '(z, zm) := c in
  sq_value <- match sq_value with None => sq z | Some s => Ok s end ;;
  if np_is_zero sq_value then Ok PosInf
  else Ok (np_div (mean_pow_dev z zm 4) (np_pow sq_value 4)).

(** [ssk(z, sq_value=None)] *)
Definition ssk (z : ndarray) (sq_value : option npfloat) : result npfloat :=
  c <- _mean_center z ;;
  let '(z, zm) := c in
  sq_value <- match sq_value with None => sq z | Some s => Ok s end ;;
  if np_is_zero sq_value then Ok NaN
  else Ok (np_div (mean_pow_dev z zm 3) (np_pow sq_value 3)).

(** [roughness_functions(z, dx, dy)] *)
Definition roughness_functions (z : ndarray) (dx dy : R)
    : result (npfloat * npfloat * R * npfloat * npfloat) :=
  sq_val <- sq z ;;
  sa_val <- sa z ;;
  sdq_val <- sdq z dx dy ;;
  sku_val <- sku z (Some sq_val) ;;
  ssk_val <- ssk z (Some sq_val) ;;
  Ok (sq_val, sa_val, sdq_val, sku_val, ssk_val).

(** The population moments the specification names: the mean of the
    entries, and the mean of the [p]-th powers of the deviations. *)
Definition mean (z : ndarray) : R := rsum (entries z) / INR (length (entries z)).
Definition moment (z : ndarray) (p : nat) : R :=
  rsum (map (fun x => (x - mean z) ^ p) (entries z)) / INR (length (entries z)).

Lemma np_mean_nonempty (l : list R) :
  l <> [] -> np_mean l = Finite (rsum l / INR (length l)).
Proof. destruct l; [easy | reflexivity]. Qed.

Lemma mean_center_inv (z z' : ndarray) (zm : npfloat) :
  _mean_center z = Ok (z', zm) -> z' = z /\ zm = np_mean (entries z) /\ (1 <= ndim z)%nat.
Proof.
  unfold _mean_center. destruct (Nat.ltb (ndim z) 1) eqn:E; [discriminate|].
  apply Nat.ltb_ge in E. intros [= <- <-]. auto.
Qed.

Lemma length_pos_INR {A : Type} (l : list A) : l <> [] -> 0 < INR (length l).
Proof. destruct l; [easy|]. intros _. apply lt_0_INR. cbn; lia. Qed.

Lemma moment_even_nonneg (z : ndarray) : entries z <> [] -> 0 <= moment z 2.
Proof.
  intros Hne. unfold moment. apply Rmult_le_pos.
  - apply rsum_nonneg, Forall_forall. intros y Hy.
    apply in_map_iff in Hy as [x [<- _]]. apply pow2_ge_0.
  - left. apply Rinv_0_lt_compat, length_pos_INR, Hne.
Qed.

(** [sq] on a non-empty array of at least one dimension: the population RMS. *)
Lemma sq_nonempty (z : ndarray) :
  (1 <= ndim z)%nat -> entries z <> [] -> sq z = Ok (Finite (sqrt (moment z 2))).
Proof.
  intros Hdim Hne. unfold sq, _mean_center.
  rewrite (proj2 (Nat.ltb_ge (ndim z) 1) Hdim). cbn [Py.bind].
  rewrite (np_mean_nonempty Hne). unfold mean_pow_dev.
  rewrite np_mean_nonempty by (destruct (entries z); [easy | discriminate]).
  rewrite length_map. fold (mean z). fold (moment z 2). unfold np_sqrt.
  pose proof (moment_even_nonneg z Hne).
  now rewrite (proj2 (Rltb_false (moment z 2) 0)).
Qed.

Lemma sq_finite_inv (z : ndarray) (s : R) :
  sq z = Ok (Finite s) ->
  (1 <= ndim z)%nat /\ entries z <> [] /\ s = sqrt (moment z 2).
Proof.
  intros H. unfold sq in H.
  destruct (_mean_center z) as [[z' zm]|e] eqn:E; [|discriminate].
  apply mean_center_inv in E as (-> & -> & Hdim). cbn [Py.bind] in H.
  destruct (entries z) as [|x l] eqn:El; [discriminate|].
  assert (Hne : entries z <> []) by (rewrite El; discriminate).
  rewrite <- El in *. clear El.
  pose proof (sq_nonempty z Hdim Hne) as Hsq. unfold sq, _mean_center in Hsq.
  rewrite (proj2 (Nat.ltb_ge (ndim z) 1) Hdim) in Hsq. cbn [Py.bind] in Hsq.
  rewrite Hsq in H. injection H as <-. auto.
Qed.

Lemma sku_ssk_nonempty (z : ndarray) (s : R) :
  sq z = Ok (Finite s) ->
  sku z None =
    (if Reqb s 0 then Ok PosInf
     else Ok (np_div (Finite (moment z 4)) (Finite (s ^ 4)))) /\
  ssk z None =
    (if Reqb s 0 then Ok NaN
     else Ok (np_div (Finite (moment z 3)) (Finite (s ^ 3)))).
Proof.
  intros Hsq. destruct (sq_finite_inv z Hsq) as (Hdim & Hne & _).
  unfold sku, ssk, _mean_center.
  rewrite (proj2 (Nat.ltb_ge (ndim z) 1) Hdim). cbn [Py.bind].
  rewrite Hsq. cbn [Py.bind np_is_zero np_pow].
  rewrite (np_mean_nonempty Hne). unfold mean_pow_dev.
  rewrite !np_mean_nonempty by (destruct (entries z); [easy | discriminate]).
  rewrite !length_map. fold (mean z). fold (moment z 4). fold (moment z 3).
  split; reflexivity.
Qed.

Lemma rsum_constant (l : list R) (c : R) :
  Forall (fun x => x = c) l -> rsum l = c * INR (length l).
Proof.
  induction 1 as [|x l Hx Hl IH]; [unfold rsum; cbn; lra|].
  change (rsum (x :: l)) with (x + rsum l). rewrite IH, Hx.
  rewrite length_cons, S_INR. lra.
Qed.

(** On the reals a perfectly flat grid has RMS height 0; on binary64 the mean
    of equal heights need not be one of them, see [Roughness64]. *)
Lemma sq_flat (z : ndarray) (c : R) :
  (1 <= ndim z)%nat -> entries z <> [] -> Forall (fun x => x = c) (entries z) ->
  sq z = Ok (Finite 0).
Proof.
  intros Hdim Hne Hflat. rewrite (sq_nonempty z Hdim Hne). do 2 f_equal.
  pose proof (length_pos_INR Hne) as Hlen.
  assert (Hmean : mean z = c).
  { unfold mean. rewrite (rsum_constant Hflat). field. lra. }
  assert (Hm : moment z 2 = 0).
  { unfold moment. rewrite (@rsum_constant _ 0).
    - field. lra.
    - rewrite Forall_forall in *. intros y Hy.
      apply in_map_iff in Hy as [x [<- Hx]]. rewrite Hmean, (Hflat x Hx). ring. }
  rewrite Hm. apply sqrt_0.
Qed.

(** The flat 2x2 grid of the tests. *)
Definition flat_grid : ndarray := Arr2 2 [[1; 1]; [1; 1]].

(** A profile of two heights, of RMS height 1. *)
Definition step_profile : ndarray := Arr1 [0; 2].

Lemma sq_step_profile : sq step_profile = Ok (Finite 1).
Proof.
  rewrite sq_nonempty by (cbn; first [lia | discriminate]).
  do 2 f_equal. unfold moment, mean. reval. apply sqrt_lem_1; lra.
Qed.

(** *** Bounds, invariance and the wrapper *)

(** [np.mean(np.abs(z - zm))] of a non-empty array. *)
Definition abs_dev (z : ndarray) : R :=
  rsum (map (fun x => Rabs (x - mean z)) (entries z)) / INR (length (entries z)).

(** [f(z)] for a function applied entry by entry, as in [k * z + c]. *)
Definition ndmap (f : R -> R) (z : ndarray) : ndarray :=
  match z with
  | Arr0 x => Arr0 (f x)
  | Arr1 xs => Arr1 (map f xs)
  | Arr2 n rows => Arr2 n (map (map f) rows)
  | ArrN k flat => ArrN k (map f flat)
  end.

Lemma sa_nonempty (z : ndarray) :
  (1 <= ndim z)%nat -> entries z <> [] -> sa z = Ok (Finite (abs_dev z)).
Proof.
  intros Hdim Hne. unfold sa, _mean_center.
  rewrite (proj2 (Nat.ltb_ge (ndim z) 1) Hdim). cbn [Py.bind].
  rewrite (np_mean_nonempty Hne). unfold mean_abs_dev.
  rewrite np_mean_nonempty by (destruct (entries z); [easy | discriminate]).
  now rewrite length_map.
Qed.

(** The three kinds of input of the height statistics: a 0-D scalar, an
    empty array, and a non-empty array. *)
Lemma height_stats_cases (z : ndarray) :
  (ndim z = 0%nat /\
   sq z = Raise (ValueError "z must be at least 1-D") /\
   sa z = Raise (ValueError "z must be at least 1-D") /\
   (forall s, sku z s = Raise (ValueError "z must be at least 1-D")) /\
   (forall s, ssk z s = Raise (ValueError "z must be at least 1-D"))) \/
  ((1 <= ndim z)%nat /\ entries z = [] /\
   sq z = Ok NaN /\ sa z = Ok NaN /\ sku z None = Ok NaN /\ ssk z None = Ok NaN) \/
  ((1 <= ndim z)%nat /\ entries z <> [] /\
   sq z = Ok (Finite (sqrt (moment z 2))) /\ sa z = Ok (Finite (abs_dev z))).
Proof.
  destruct (ndim z) as [|d] eqn:Hdim.
  - left. unfold sq, sa, sku, ssk, _mean_center. rewrite Hdim. cbn. auto.
  - right. assert (Hd : (1 <= ndim z)%nat) by lia. rewrite <- Hdim.
    destruct (entries z) as [|x l] eqn:El.
    + left. unfold sku, ssk, sa, sq, _mean_center. rewrite !Hdim, !El. cbn.
      rewrite !Hdim, !El. cbn. repeat split; lia.
    + right. assert (Hne : entries z <> []) by (rewrite El; discriminate).
      rewrite <- El. auto using sq_nonempty, sa_nonempty.
Qed.

(** The inequality of Cauchy and Schwarz for a list and the constant 1. *)
Lemma cauchy_schwarz (l : list R) :
  0 <= rsum (map (fun x => x * x) l) /\
  rsum l * rsum l <= INR (length l) * rsum (map (fun x => x * x) l).
Proof.
  induction l as [|x l [IHq IH]]; unfold rsum in *; cbn [map fold_right length].
  - cbn. lra.
  - rewrite S_INR.
    set (S := fold_right Rplus 0 l) in *.
    set (Q := fold_right Rplus 0 (map (fun x => x * x) l)) in *.
    pose proof (pos_INR (length l)) as Hn. set (n := INR (length l)) in *.
    clearbody S Q n. split; [nra|].
    destruct Hn as [Hn | <-].
    + pose proof (Rle_0_sqr (n * x - S)) as H1. unfold Rsqr in H1.
      assert (H2 : 2 * x * S * n <= (n * x * x + Q) * n) by lra.
      assert (H3 : 2 * x * S <= n * x * x + Q)
        by (apply Rmult_le_reg_r with n; assumption).
      lra.
    + assert (S = 0) by nra. subst S. nra.
Qed.

Lemma entries_ndmap (f : R -> R) (z : ndarray) :
  entries (ndmap f z) = map f (entries z) /\ ndim (ndmap f z) = ndim z.
Proof. destruct z; cbn; auto. split; [symmetry; apply concat_map | reflexivity]. Qed.

Lemma rsum_affine (X : Type) (g : X -> R) (k c : R) (l : list X) :
  rsum (map (fun x => k * g x + c) l) = k * rsum (map g l) + c * INR (length l).
Proof.
  induction l as [|x l IH]; unfold rsum in *; cbn [map fold_right length].
  - cbn. lra.
  - rewrite IH, S_INR. lra.
Qed.

Lemma mean_affine (k c : R) (z : ndarray) :
  entries z <> [] -> mean (ndmap (fun x => k * x + c) z) = k * mean z + c.
Proof.
  intros Hne. pose proof (length_pos_INR Hne) as Hn. unfold mean.
  rewrite (proj1 (entries_ndmap _ z)), length_map.
  rewrite (rsum_affine (fun x => x)), map_id. field. lra.
Qed.

Lemma moment_affine (k c : R) (z : ndarray) (p : nat) :
  entries z <> [] ->
  moment (ndmap (fun x => k * x + c) z) p = k ^ p * moment z p.
Proof.
  intros Hne. pose proof (length_pos_INR Hne) as Hn. unfold moment.
  rewrite (@mean_affine k c z Hne), (proj1 (entries_ndmap _ z)), length_map, map_map.
  replace (map (fun x => (k * x + c - (k * mean z + c)) ^ p) (entries z))
    with (map (fun x => k ^ p * (x - mean z) ^ p) (entries z)).
  - rewrite Geometry.rsum_scale. field. lra.
  - apply map_ext. intros x. rewrite <- Rpow_mult_distr. f_equal. ring.
Qed.

Lemma abs_dev_affine (k c : R) (z : ndarray) :
  entries z <> [] ->
  abs_dev (ndmap (fun x => k * x + c) z) = Rabs k * abs_dev z.
Proof.
  intros Hne. pose proof (length_pos_INR Hne) as Hn. unfold abs_dev.
  rewrite (@mean_affine k c z Hne), (proj1 (entries_ndmap _ z)), length_map, map_map.
  replace (map (fun x => Rabs (k * x + c - (k * mean z + c))) (entries z))
    with (map (fun x => Rabs k * Rabs (x - mean z)) (entries z)).
  - rewrite Geometry.rsum_scale. field. lra.
  - apply map_ext. intros x. rewrite <- Rabs_mult. f_equal. ring.
Qed.

Lemma sqrt_moment_affine (k c : R) (z : ndarray) :
  entries z <> [] ->
  sqrt (moment (ndmap (fun x => k * x + c) z) 2) = Rabs k * sqrt (moment z 2).
Proof.
  intros Hne. rewrite (@moment_affine k c z 2 Hne).
  rewrite sqrt_mult_alt by apply pow2_ge_0.
  f_equal. replace (k ^ 2) with (Rsqr k) by (unfold Rsqr; ring). apply sqrt_Rsqr_abs.
Qed.

Lemma ndmap_nonempty (f : R -> R) (z : ndarray) :
  entries z <> [] -> entries (ndmap f z) <> [].
Proof.
  intros H. rewrite (proj1 (entries_ndmap f z)).
  destruct (entries z); [easy | discriminate].
Qed.

(** X22. The mean roughness never exceeds the RMS height, and neither is
    negative: on every non-empty array of at least one dimension [sa] and
    [sq] return finite values with [0 <= sa <= sq]. *)
Lemma sa_le_sq (z : ndarray) :
  (1 <= ndim z)%nat -> entries z <> [] ->
  exists a s, sa z = Ok (Finite a) /\ sq z = Ok (Finite s) /\ 0 <= a <= s.
Proof.
  intros Hdim Hne. exists (abs_dev z), (sqrt (moment z 2)).
  split; [now apply sa_nonempty | split; [now apply sq_nonempty|]].
  pose proof (length_pos_INR Hne) as Hn.
  set (d := map (fun x => Rabs (x - mean z)) (entries z)).
  assert (Hd : 0 <= rsum d).
  { apply rsum_nonneg, Forall_forall. intros y Hy.
    apply in_map_iff in Hy as [x [<- _]]. apply Rabs_pos. }
  assert (Ha : 0 <= abs_dev z).
  { unfold abs_dev. fold d. apply Rle_mult_inv_pos; assumption. }
  split; [exact Ha|].
  rewrite <- (sqrt_square (abs_dev z)) by exact Ha.
  apply sqrt_le_1_alt.
  destruct (cauchy_schwarz d) as [_ Hcs].
  assert (Hq : map (fun x => x * x) d = map (fun x => (x - mean z) ^ 2) (entries z)).
  { unfold d. rewrite map_map. apply map_ext. intros x.
    rewrite <- Rabs_mult, Rabs_pos_eq by apply Rle_0_sqr. ring. }
  rewrite Hq in Hcs. unfold d in Hcs at 3. rewrite length_map in Hcs.
  unfold abs_dev, moment. fold d.
  set (n := INR (length (entries z))) in *.
  set (Q := rsum (map (fun x => (x - mean z) ^ 2) (entries z))) in *.
  clearbody n Q. clear Hq.
  replace (rsum d / n * (rsum d / n)) with (rsum d * rsum d / (n * n)) by (field; lra).
  replace (Q / n) with (n * Q / (n * n)) by (field; lra).
  apply Rmult_le_compat_r; [|exact Hcs].
  left. apply Rinv_0_lt_compat. nra.
Qed.

Lemma sa_le_sq_witness :
  exists a s, sa step_profile = Ok (Finite a) /\ sq step_profile = Ok (Finite s) /\
              0 <= a <= s.
Proof. apply sa_le_sq; [cbn; lia | discriminate]. Defined.



Lemma sku_ssk_value (z : ndarray) :
  (1 <= ndim z)%nat -> entries z <> [] ->
  sku z None =
    (if Reqb (sqrt (moment z 2)) 0 then Ok PosInf
     else Ok (Finite (moment z 4 / sqrt (moment z 2) ^ 4))) /\
  ssk z None =
    (if Reqb (sqrt (moment z 2)) 0 then Ok NaN
     else Ok (Finite (moment z 3 / sqrt (moment z 2) ^ 3))).
Proof.
  intros Hdim Hne.
  destruct (sku_ssk_nonempty z (sq_nonempty z Hdim Hne)) as [-> ->].
  destruct (Reqb (sqrt (moment z 2)) 0) eqn:E; [split; reflexivity|].
  apply Reqb_false in E. unfold np_div.
  rewrite !(proj2 (Reqb_false (sqrt (moment z 2) ^ _) 0)) by now apply pow_nonzero.
  split; reflexivity.
Qed.

(** In exact real arithmetic, where the RMS height of a flat grid is 0 and
    of no other: the four statistics after a change of the unit and of the
    datum of the heights, [k * z + c]. *)
Lemma height_stats_affine_reals (k c : R) (z : ndarray) :
  (forall s, sq z = Ok (Finite s) ->
             sq (ndmap (fun x => k * x + c) z) = Ok (Finite (Rabs k * s))) /\
  (forall a, sa z = Ok (Finite a) ->
             sa (ndmap (fun x => k * x + c) z) = Ok (Finite (Rabs k * a))) /\
  (k <> 0 -> sku (ndmap (fun x => k * x + c) z) None = sku z None) /\
  (0 < k -> ssk (ndmap (fun x => k * x + c) z) None = ssk z None).
Proof.
  set (z' := ndmap (fun x => k * x + c) z).
  destruct (entries_ndmap (fun x => k * x + c) z) as [He Hd]. fold z' in He, Hd.
  destruct (height_stats_cases z)
    as [(Hdim & Hsq & Hsa & Hsku & Hssk) |
        [(Hdim & Hnil & Hsq & Hsa & Hsku & Hssk) | (Hdim & Hne & Hsq & Hsa)]].
  - rewrite Hsq, Hsa, Hsku, Hssk.
    destruct (height_stats_cases z')
      as [(_ & _ & _ & -> & ->) | [(Hdim' & _) | (Hdim' & _)]]; [|lia..].
    repeat split; try discriminate; reflexivity.
  - rewrite Hsq, Hsa, Hsku, Hssk.
    assert (Hnil' : entries z' = []) by now rewrite He, Hnil.
    destruct (height_stats_cases z')
      as [(Hdim' & _) | [(_ & _ & _ & _ & -> & ->) | (_ & Hne' & _)]];
      [lia | | contradiction].
    repeat split; try discriminate; reflexivity.
  - assert (Hdim' : (1 <= ndim z')%nat) by now rewrite Hd.
    assert (Hne' : entries z' <> []) by now apply ndmap_nonempty.
    rewrite Hsq, Hsa. split; [|split; [|split]].
    + intros s [= <-]. rewrite (sq_nonempty z' Hdim' Hne').
      unfold z'. now rewrite sqrt_moment_affine.
    + intros a [= <-]. rewrite (sa_nonempty z' Hdim' Hne').
      unfold z'. now rewrite abs_dev_affine.
    + intros Hk.
      rewrite (proj1 (sku_ssk_value z' Hdim' Hne')), (proj1 (sku_ssk_value z Hdim Hne)).
      unfold z'. rewrite sqrt_moment_affine, moment_affine by assumption.
      pose proof (Rabs_pos_lt k Hk) as Hak.
      set (s := sqrt (moment z 2)).
      destruct (Reqb s 0) eqn:E.
      * apply Reqb_true in E. rewrite E, Rmult_0_r, Reqb_refl. reflexivity.
      * apply Reqb_false in E. rewrite (proj2 (Reqb_false (Rabs k * s) 0)) by nra.
        do 2 f_equal.
        assert (Ek : Rabs k ^ 4 = k ^ 4).
        { unfold Rabs. destruct (Rcase_abs k); ring. }
        rewrite Rpow_mult_distr, Ek. field.
        repeat split; solve [assumption | lra | now apply pow_nonzero].
    + intros Hk.
      rewrite (proj2 (sku_ssk_value z' Hdim' Hne')), (proj2 (sku_ssk_value z Hdim Hne)).
      unfold z'. rewrite sqrt_moment_affine, moment_affine by assumption.
      rewrite (Rabs_pos_eq k) by lra.
      set (s := sqrt (moment z 2)).
      destruct (Reqb s 0) eqn:E.
      * apply Reqb_true in E. rewrite E, Rmult_0_r, Reqb_refl. reflexivity.
      * apply Reqb_false in E. rewrite (proj2 (Reqb_false (k * s) 0)) by nra.
        do 2 f_equal. rewrite Rpow_mult_distr. field.
        repeat split; solve [assumption | lra | now apply pow_nonzero].
Qed.

(** A surface that is not flat: two of its heights differ. *)
Definition varies (z : ndarray) : Prop :=
  exists x y, In x (entries z) /\ In y (entries z) /\ x <> y.

(** The values of [sku] and [ssk] where the RMS height is positive. *)
Lemma sku_ssk_rough (z : ndarray) (s : R) :
  sq z = Ok (Finite s) -> 0 < s ->
  sku z None = Ok (Finite (moment z 4 / s ^ 4)) /\
  ssk z None = Ok (Finite (moment z 3 / s ^ 3)).
Proof.
  intros H Hs. destruct (sku_ssk_nonempty z H) as [-> ->].
  rewrite (proj2 (Reqb_false s 0)) by lra. unfold np_div.
  assert (0 < s ^ 4) by (apply pow_lt; exact Hs).
  assert (0 < s ^ 3) by (apply pow_lt; exact Hs).
  rewrite (proj2 (Reqb_false (s ^ 4) 0)), (proj2 (Reqb_false (s ^ 3) 0)) by lra.
  split; reflexivity.
Qed.

(** X24. A change of the unit and of the datum of the heights, [k * z + c],
    on the reals: the values of [sq] and [sa] are multiplied by [|k|]; on a
    surface that is not flat, whenever [sku] returns a finite number before
    and after the change the two numbers are the same for every [k <> 0], and
    so are the two numbers of [ssk] for every [k > 0].  Nothing is said on
    which of the sentinel and a number a call returns. *)
Lemma height_stats_affine (k c : R) (z : ndarray) :
  (forall s, sq z = Ok (Finite s) ->
             sq (ndmap (fun x => k * x + c) z) = Ok (Finite (Rabs k * s))) /\
  (forall a, sa z = Ok (Finite a) ->
             sa (ndmap (fun x => k * x + c) z) = Ok (Finite (Rabs k * a))) /\
  (forall ku ku', varies z -> k <> 0 ->
     sku z None = Ok (Finite ku) ->
     sku (ndmap (fun x => k * x + c) z) None = Ok (Finite ku') -> ku' = ku) /\
  (forall sk sk', varies z -> 0 < k ->
     ssk z None = Ok (Finite sk) ->
     ssk (ndmap (fun x => k * x + c) z) None = Ok (Finite sk') -> sk' = sk).
Proof.
  destruct (height_stats_affine_reals k c z) as (Hsq & Hsa & Hku & Hsk).
  split; [exact Hsq | split; [exact Hsa | split]].
  - intros ku ku' _ Hk E E'. rewrite (Hku Hk), E in E'. congruence.
  - intros sk sk' _ Hk E E'. rewrite (Hsk Hk), E in E'. congruence.
Qed.

Lemma height_stats_affine_witness :
  varies step_profile /\
  exists ku ku',
    sku step_profile None = Ok (Finite ku) /\
    sku (ndmap (fun x => 2 * x + 1) step_profile) None = Ok (Finite ku') /\
    ku' = ku.
Proof.
  assert (Hv : varies step_profile).
  { exists 0, 2. cbn. repeat split; auto; lra. }
  assert (H2 : 0 < Rabs 2 * 1).
  { rewrite Rabs_pos_eq; lra. }
  pose proof (proj1 (height_stats_affine_reals 2 1 step_profile) 1 sq_step_profile)
    as Hsq'.
  destruct (@sku_ssk_rough step_profile 1 sq_step_profile Rlt_0_1) as [E _].
  destruct (@sku_ssk_rough _ _ Hsq' H2) as [E' _].
  split; [exact Hv|]. eexists. eexists.
  split; [exact E | split; [exact E'|]].
  refine (proj1 (proj2 (proj2 (height_stats_affine 2 1 step_profile))) _ _ Hv _ E E').
  lra.
Defined.

(** X25. [roughness_functions] returns five values exactly when the five
    functions it wraps return them when called one by one with the default
    [sq_value]: handing the RMS height to [sku] and [ssk] changes nothing.
    An array that is not 2-D is refused, although four of the five functions
    accept it. *)
Lemma roughness_functions_agree (z : ndarray) (dx dy : R)
    (sq_val sa_val : npfloat) (sdq_val : R) (sku_val ssk_val : npfloat) :
  (roughness_functions z dx dy = Ok (sq_val, sa_val, sdq_val, sku_val, ssk_val) <->
   sq z = Ok sq_val /\ sa z = Ok sa_val /\ sdq z dx dy = Ok sdq_val /\
   sku z None = Ok sku_val /\ ssk z None = Ok ssk_val) /\
  (ndim z <> 2%nat -> raises_ValueError (roughness_functions z dx dy)).
Proof.
  assert (Hsome : forall s, sq z = Ok s ->
                            sku z (Some s) = sku z None /\ ssk z (Some s) = ssk z None).
  { intros s Hs. unfold sku, ssk.
    destruct (_mean_center z) as [[z0 zm]|e] eqn:E; [|split; reflexivity].
    cbn [Py.bind]. apply mean_center_inv in E as (-> & _ & _).
    rewrite Hs. split; reflexivity. }
  unfold roughness_functions. split.
  - destruct (sq z) as [s|e] eqn:Hsq; cbn [Py.bind].
    2:{ split; [discriminate | intros (H & _); discriminate]. }
    destruct (Hsome s eq_refl) as [-> ->].
    destruct (sa z) as [a|e]; cbn [Py.bind].
    2:{ split; [discriminate | intros (_ & H & _); discriminate]. }
    destruct (sdq z dx dy) as [g|e]; cbn [Py.bind].
    2:{ split; [discriminate | intros (_ & _ & H & _); discriminate]. }
    destruct (sku z None) as [ku|e]; cbn [Py.bind].
    2:{ split; [discriminate | intros (_ & _ & _ & H & _); discriminate]. }
    destruct (ssk z None) as [sk|e]; cbn [Py.bind].
    2:{ split; [discriminate | intros (_ & _ & _ & _ & H); discriminate]. }
    split.
    + intros [= <- <- <- <- <-]. auto.
    + intros ([= <-] & [= <-] & [= <-] & [= <-] & [= <-]). reflexivity.
  - intros Hdim. unfold raises_ValueError.
    destruct (height_stats_cases z)
      as [(_ & -> & _) | [(_ & _ & -> & -> & _) | (_ & _ & -> & -> )]];
      cbn [Py.bind]; [eauto | |];
      unfold sdq; rewrite (proj2 (Nat.eqb_neq (ndim z) 2) Hdim); cbn; eauto.
Qed.

Lemma roughness_functions_agree_witness :
  raises_ValueError (roughness_functions step_profile 1 1).
Proof.
  apply (proj2 (roughness_functions_agree step_profile 1 1 NaN NaN 0 NaN NaN)).
  cbn. lia.
Defined.

End Roughness.

(** ** [pyshape/roughness.py] on binary64: the sentinels of [sku] and [ssk] *)

Module Roughness64.

Import PrimFloat Binary64.
Local Open Scope string_scope.
Local Open Scope float_scope.
Local Open Scope binary64_scope.

(** The array [np.asarray(z, dtype=float)], as in [Roughness], of binary64
    numbers. *)
Inductive ndarray : Type :=
| Arr0 (x : float)
| Arr1 (xs : list float)
| Arr2 (ncols : nat) (rows : list (list float))
| ArrN (extra_dims : nat) (flat : list float).

Definition ndim (z : ndarray) : nat :=
  match z with
  | Arr0 _ => 0
  | Arr1 _ => 1
  | Arr2 _ _ => 2
  | ArrN k _ => 3 + k
  end.

(** The entries of an array, in row-major order. *)
Definition entries (z : ndarray) : list float :=
  match z with
  | Arr0 x => [x]
  | Arr1 xs => xs
  | Arr2 _ rows => concat rows
  | ArrN _ flat => flat
  end.

(** Every entry of the array is the height [c]: a perfectly flat surface. *)
Definition flat (z : ndarray) (c : float) : Prop := forall x, In x (entries z) -> x = c.

Section Heights.

(** [np.mean] of the entries of an array, [x ** p] of NumPy on one entry, and
    [x ** p] on a Python float, which raises OverflowError when the power of
    a finite number is not finite. *)
Variable np_mean : list float -> float.
Variable np_power : float -> nat -> float.
Variable py_pow : float -> nat -> result float.

(** [_mean_center(z)]: the array and its mean. *)
Definition _mean_center (z : ndarray) : result (ndarray * float) :=
  if Nat.ltb (ndim z) 1 then Raise (ValueError "z must be at least 1-D")
  else
    let zm := np_mean (entries z) in
    Ok (z, zm).

(** [np.mean((z - zm) ** p)] *)
Definition mean_pow_dev (z : ndarray) (zm : float) (p : nat) : float :=
  np_mean (map (fun x => np_power (x - zm) p) (entries z)).

(** [sq(z)] *)
Definition sq (z : ndarray) : result float :=
  '(z, zm) <- _mean_center z ;;
  Ok (sqrt (mean_pow_dev z zm 2)).

(** [sku(z, sq_value=None)] *)
Definition sku (z : ndarray) (sq_value : option float) : result float :=
  '(z, zm) <- _mean_center z ;;
  sq_value <- match sq_value with None => sq z | Some s => Ok s end ;;
  if sq_value =? 0 then Ok infinity
  else
    p <- py_pow sq_value 4 ;;
    Ok (mean_pow_dev z zm 4 / p).

(** [ssk(z, sq_value=None)] *)
Definition ssk (z : ndarray) (sq_value : option float) : result float :=
  '(z, zm) <- _mean_center z ;;
  sq_value <- match sq_value with None => sq z | Some s => Ok s end ;;
  if sq_value =? 0 then Ok nan
  else
    p <- py_pow sq_value 3 ;;
    Ok (mean_pow_dev z zm 3 / p).



End Heights.

(** *** A flat array whose computed RMS height is not zero *)





(** A profile of two heights. *)
Definition step_profile : ndarray := Arr1 [0; 2].




End Roughness64.

(** ** [pyshape/io.py] : vertex deduplication *)

Module Io.

Import Vec Geometry.
Local Open Scope R_scope.
Local Open Scope string_scope.

(** [np.rint]: the nearest integer, ties to the even one. *)
Definition rint (x : R) : Z :=
  let n := Int_part x in
  let f := frac_part x in
  if Rltb f (1 / 2) then n
  else if Rltb (1 / 2) f then (n + 1)%Z
  else if Z.even n then n else (n + 1)%Z.

(** [np.round(x, decimals)], as NumPy computes it: scale by the power of
    ten, round to the nearest integer, scale back. *)
Definition np_round (decimals : Z) (x : R) : R :=
  if (0 <=? decimals)%Z
  then IZR (rint (x * IZR (10 ^ decimals))) / IZR (10 ^ decimals)
  else IZR (rint (x / IZR (10 ^ (- decimals)))) * IZR (10 ^ (- decimals)).

Definition round_row (decimals : Z) (p : vec3) : vec3 :=
  (np_round decimals (vx p), np_round decimals (vy p), np_round decimals (vz p)).

(** The order and the equality of the rows of the structured view
    [(f0, f1, f2)]: field by field. *)
Definition row_ltb (a b : vec3) : bool :=
  Rltb (vx a) (vx b) ||
  (Reqb (vx a) (vx b) &&
   (Rltb (vy a) (vy b) || (Reqb (vy a) (vy b) && Rltb (vz a) (vz b)))).

Definition row_eqb (a b : vec3) : bool :=
  Reqb (vx a) (vx b) && Reqb (vy a) (vy b) && Reqb (vz a) (vz b).

Definition row_lt (a b : vec3) : Prop :=
  vx a < vx b \/ (vx a = vx b /\ (vy a < vy b \/ (vy a = vy b /\ vz a < vz b))).

(** [_unique_rows_tol(points, decimals)] *)
Definition _unique_rows_tol (points : list vec3) (decimals : Z) : list vec3 * list nat :=
  let a := points in
  let ar := map (round_row decimals) a in
  let '(unique, idx, inv) := Np.unique row_ltb row_eqb ar in
  let nodes := map (fun i => nth i a vzero) idx in
  (nodes, inv).

Lemma row_ltb_spec (a b : vec3) : row_ltb a b = true <-> row_lt a b.
Proof.
  unfold row_ltb, row_lt.
  rewrite !orb_true_iff, !andb_true_iff, !orb_true_iff, !andb_true_iff,
    !Rltb_true, !Reqb_true.
  reflexivity.
Qed.

Lemma row_ltb_irrefl (a : vec3) : row_ltb a a = false.
Proof.
  apply not_true_iff_false. rewrite row_ltb_spec. unfold row_lt.
  intros [H|[_ [H|[_ H]]]]; lra.
Qed.

Lemma row_ltb_trans (a b c : vec3) :
  row_ltb a b = true -> row_ltb b c = true -> row_ltb a c = true.
Proof.
  rewrite !row_ltb_spec. unfold row_lt.
  intros [H1|[H1 [H1'|[H1' H1'']]]] [H2|[H2 [H2'|[H2' H2'']]]];
    first [ left; lra
          | right; split; [lra|]; first [left; lra | right; split; lra] ].
Qed.

Lemma row_ltb_total (a b : vec3) :
  row_ltb a b = false -> row_ltb b a = false -> a = b.
Proof.
  intros H1 H2. apply not_true_iff_false in H1, H2.
  rewrite row_ltb_spec in H1, H2. unfold row_lt in *.
  assert (Hx : vx a = vx b).
  { destruct (Rtotal_order (vx a) (vx b)) as [H|[H|H]]; [|exact H|];
      exfalso; [apply H1 | apply H2]; left; lra. }
  assert (Hy : vy a = vy b).
  { destruct (Rtotal_order (vy a) (vy b)) as [H|[H|H]]; [|exact H|];
      exfalso; [apply H1 | apply H2]; right; (split; [lra|]); left; lra. }
  assert (Hz : vz a = vz b).
  { destruct (Rtotal_order (vz a) (vz b)) as [H|[H|H]]; [|exact H|];
      exfalso; [apply H1 | apply H2]; right; (split; [lra|]); right; split; lra. }
  destruct a as [[ax ay] az], b as [[bx by'] bz]. unfold vx, vy, vz in *.
  cbn in *. now subst.
Qed.

Lemma row_eqb_eq (a b : vec3) : row_eqb a b = true <-> a = b.
Proof.
  unfold row_eqb. rewrite !andb_true_iff, !Reqb_true.
  destruct a as [[ax ay] az], b as [[bx by'] bz]. unfold vx, vy, vz. cbn.
  split; [intros [[-> ->] ->]; reflexivity | intros [= -> -> ->]; auto].
Qed.

Lemma rint_IZR (k : Z) : rint (IZR k) = k.
Proof.
  unfold rint, frac_part.
  assert (H : Int_part (IZR k) = k) by (symmetry; apply Int_part_spec; lra).
  rewrite H. replace (IZR k - IZR k) with 0 by lra.
  now rewrite (proj2 (Rltb_true 0 (1 / 2))) by lra.
Qed.

(** Rounding to a non-negative number of decimals leaves an integer as it
    is. *)
Lemma np_round_IZR (decimals k : Z) : (0 <= decimals)%Z -> np_round decimals (IZR k) = IZR k.
Proof.
  intros Hd. unfold np_round. rewrite (proj2 (Z.leb_le 0 decimals) Hd).
  rewrite <- mult_IZR, rint_IZR, mult_IZR. field.
  apply not_0_IZR. pose proof (Z.pow_pos_nonneg 10 decimals). lia.
Qed.

Lemma sorted_impl {A : Type} (P Q : A -> A -> Prop) (l : list A) :
  (forall x y, P x y -> Q x y) -> StronglySorted P l -> StronglySorted Q l.
Proof.
  intros HPQ. induction 1 as [|a l Hl IH Ha]; constructor; [exact IH|].
  eapply Forall_impl; [|exact Ha]. intros; now apply HPQ.
Qed.

(** The node list in first-seen order, as the design note of the
    specification describes the deduplication: a point is kept when no
    earlier point has the same rounded coordinates. *)
Fixpoint first_seen_from (decimals : Z) (seen points : list vec3) : list vec3 :=
  match points with
  | [] => []
  | p :: t =>
      if existsb (row_eqb (round_row decimals p)) seen
      then first_seen_from decimals seen t
      else p :: first_seen_from decimals (round_row decimals p :: seen) t
  end.

Definition first_seen_nodes (decimals : Z) (points : list vec3) : list vec3 :=
  first_seen_from decimals [] points.

(** The node list holds, for every distinct rounded point, the first point
    of the stream that rounds to it, in ascending order of the rounded
    coordinates (x, then y, then z); the inverse index has one entry per
    vertex of the stream, and the entry of a vertex indexes the node with
    the same rounded coordinates, the first such point of the stream. *)
Lemma unique_rows_sorted_first_occurrence (points : list vec3) (decimals : Z) :
  StronglySorted row_lt
    (map (round_row decimals) (fst (_unique_rows_tol points decimals))) /\
  length (snd (_unique_rows_tol points decimals)) = length points /\
  (forall i p,
     nth_error points i = Some p ->
     exists g q i0,
       nth_error (snd (_unique_rows_tol points decimals)) i = Some g /\
       nth_error (fst (_unique_rows_tol points decimals)) g = Some q /\
       nth_error points i0 = Some q /\
       round_row decimals q = round_row decimals p /\
       forall i' p',
         nth_error points i' = Some p' ->
         round_row decimals p' = round_row decimals p -> (i0 <= i')%nat) /\
  (forall g q,
     nth_error (fst (_unique_rows_tol points decimals)) g = Some q ->
     exists i0,
       nth_error points i0 = Some q /\
       nth_error (snd (_unique_rows_tol points decimals)) i0 = Some g).
Proof.
  unfold _unique_rows_tol.
  pose proof (@Np.unique_spec _ _ _ row_ltb_irrefl row_ltb_trans row_ltb_total row_eqb_eq
                (map (round_row decimals) points)) as H.
  destruct (Np.unique row_ltb row_eqb (map (round_row decimals) points))
    as [[uniq idx] inv].
  cbn [fst snd] in *. destruct H as (Hsorted & Hlen1 & Hlen2 & Hinv & Hidx).
  rewrite length_map in Hlen2.
  assert (Hnode : forall g i0,
             nth_error idx g = Some i0 ->
             nth_error points i0 = Some (nth i0 points vzero) /\
             nth_error uniq g = Some (round_row decimals (nth i0 points vzero))).
  { intros g i0 Hg. destruct (Hidx g i0 Hg) as (Hu & Hne & _).
    rewrite nth_error_map in Hne, Hu.
    destruct (nth_error points i0) as [q|] eqn:Hq; [|now cbn in Hne].
    assert (Hlt : (i0 < length points)%nat) by (apply nth_error_Some; congruence).
    rewrite (nth_error_nth' _ vzero Hlt) in Hq. injection Hq as <-.
    split; [reflexivity | exact Hu]. }
  split; [|split; [exact Hlen2|split]].
  - replace (map (round_row decimals) (map (fun i => nth i points vzero) idx)) with uniq.
    + eapply sorted_impl; [|exact Hsorted]. intros x y. apply row_ltb_spec.
    + apply nth_error_ext. intros g. rewrite !nth_error_map.
      destruct (nth_error idx g) as [i0|] eqn:Hg; cbn.
      * now destruct (Hnode g i0 Hg) as [_ ->].
      * apply nth_error_None. rewrite <- Hlen1. now apply nth_error_None.
  - intros i p Hp.
    destruct (Hinv i (round_row decimals p)) as (g & i0 & Hg & Hu & Hi0 & Har & Hle).
    { now rewrite nth_error_map, Hp. }
    destruct (Hnode g i0 Hi0) as [Hq Hu'].
    exists g, (nth i0 points vzero), i0.
    split; [exact Hg|]. split; [now rewrite nth_error_map, Hi0|].
    split; [exact Hq|]. split; [congruence|].
    intros i' p' Hp' Hround. destruct (Hidx g i0 Hi0) as (_ & _ & Hfirst).
    apply Hfirst. rewrite !nth_error_map, Hp', Hq. cbn. congruence.
  - intros g q Hg. rewrite nth_error_map in Hg.
    destruct (nth_error idx g) as [i0|] eqn:Hi0; [|discriminate].
    cbn in Hg. injection Hg as <-.
    destruct (Hnode g i0 Hi0) as [Hq Hu].
    exists i0. split; [exact Hq|].
    destruct (Hinv i0 (round_row decimals (nth i0 points vzero)))
      as (g' & _ & Hg' & Hu' & _).
    { now rewrite nth_error_map, Hq. }
    rewrite Hg'. f_equal.
    eapply (@Np.sorted_nth_inj _ row_ltb row_ltb_irrefl uniq); eassumption.
Qed.

(** C2 as stated fails: the nodes come out in ascending order of their
    coordinates, not in the order of their first occurrence. *)
Definition stream : list vec3 := [(1, 0, 0); (0, 0, 0); (0, 1, 0)].

Lemma unique_rows_first_seen_counterexample :
  _unique_rows_tol stream 12 = ([(0, 0, 0); (0, 1, 0); (1, 0, 0)], [2; 0; 1]%nat) /\
  first_seen_nodes 12 stream = [(1, 0, 0); (0, 0, 0); (0, 1, 0)] /\
  fst (_unique_rows_tol stream 12) <> first_seen_nodes 12 stream.
Proof.
  assert (H1 : _unique_rows_tol stream 12 =
               ([(0, 0, 0); (0, 1, 0); (1, 0, 0)], [2; 0; 1]%nat)).
  { unfold _unique_rows_tol, stream, round_row, vx, vy, vz. cbn [map fst snd].
    rewrite !np_round_IZR by lia.
    unfold Np.unique, Np.sort_pairs, Np.enumerate, row_ltb, row_eqb, vx, vy, vz.
    repeat (progress (cbn; rcompare)). reflexivity. }
  assert (H2 : first_seen_nodes 12 stream = [(1, 0, 0); (0, 0, 0); (0, 1, 0)]).
  { unfold first_seen_nodes, stream, first_seen_from, round_row, vx, vy, vz.
    cbn [map fst snd existsb]. rewrite !np_round_IZR by lia.
    unfold row_eqb, vx, vy, vz. repeat (progress (cbn; rcompare)). reflexivity. }
  split; [exact H1 | split; [exact H2|]].
  rewrite H1, H2. cbn [fst]. intros [= H _]. lra.
Qed.

(** Two vertices closer than the tolerance are merged: the face entry of the
    second one indexes the coordinates of the first. *)
Definition near_stream : list vec3 :=
  [(0, 0, 0); (1 / 10000000000000, 0, 0); (0, 1, 0)].

Lemma rint_small (x : R) : 0 <= x < 1 / 2 -> rint x = 0%Z.
Proof.
  intros Hx. unfold rint, frac_part.
  assert (H : Int_part x = 0%Z) by (symmetry; apply Int_part_spec; lra).
  rewrite H. now rewrite (proj2 (Rltb_true (x - 0) (1 / 2))) by lra.
Qed.

Lemma np_round_near : np_round 12 (1 / 10000000000000) = 0.
Proof.
  unfold np_round. change ((0 <=? 12)%Z) with true.
  change ((10 ^ 12)%Z) with 1000000000000%Z. cbv iota.
  rewrite rint_small by lra. lra.
Qed.

Example unique_rows_near :
  _unique_rows_tol near_stream 12 = ([(0, 0, 0); (0, 1, 0)], [0; 0; 1]%nat).
Proof.
  unfold _unique_rows_tol, near_stream, round_row, vx, vy, vz. cbn [map fst snd].
  rewrite np_round_near, !np_round_IZR by lia.
  unfold Np.unique, Np.sort_pairs, Np.enumerate, row_ltb, row_eqb, vx, vy, vz.
  repeat (progress (cbn; rcompare)). reflexivity.
Qed.

(** *** The built-in STL parser *)

(** The methods of [str] the parser uses, on strings of 8-bit characters. *)
Module Str.

Local Open Scope nat_scope.

(** [c.isspace()] *)
Definition is_space (c : ascii) : bool :=
  let n := nat_of_ascii c in
  ((9 <=? n) && (n <=? 13)) || ((28 <=? n) && (n <=? 32)) || (n =? 133) || (n =? 160).

(** The line boundaries of [str.splitlines]. *)
Definition is_linebreak (c : ascii) : bool :=
  let n := nat_of_ascii c in
  ((10 <=? n) && (n <=? 13)) || ((28 <=? n) && (n <=? 30)) || (n =? 133).

Definition is_empty (s : string) : bool :=
  match s with EmptyString => true | String _ _ => false end.

(** [s.splitlines()]: [cur] is the line read so far; a carriage return
    followed by a line feed is one boundary. *)
Fixpoint splitlines_from (s cur : string) : list string :=
  match s with
  | EmptyString => if is_empty cur then [] else [cur]
  | String c rest =>
      if is_linebreak c then
        match rest with
        | String c' rest' =>
            if (nat_of_ascii c =? 13) && (nat_of_ascii c' =? 10)
            then cur :: splitlines_from rest' EmptyString
            else cur :: splitlines_from rest EmptyString
        | EmptyString => cur :: splitlines_from rest EmptyString
        end
      else splitlines_from rest (cur ++ String c EmptyString)%string
  end.

Definition splitlines (s : string) : list string := splitlines_from s EmptyString.

Fixpoint lstrip (s : string) : string :=
  match s with
  | EmptyString => EmptyString
  | String c rest => if is_space c then lstrip rest else s
  end.

Fixpoint rstrip (s : string) : string :=
  match s with
  | EmptyString => EmptyString
  | String c rest =>
      let rest' := rstrip rest in
      if is_space c && is_empty rest' then EmptyString else String c rest'
  end.

(** [s.strip()] *)
Definition strip (s : string) : string := rstrip (lstrip s).

(** [s.lower()], on the letters A to Z. *)
Definition lower_char (c : ascii) : ascii :=
  let n := nat_of_ascii c in
  if (65 <=? n) && (n <=? 90) then ascii_of_nat (n + 32) else c.

Fixpoint lower (s : string) : string :=
  match s with
  | EmptyString => EmptyString
  | String c rest => String (lower_char c) (lower rest)
  end.

(** [s.split()]: the maximal runs of characters that are not spaces. *)
Fixpoint split_from (s cur : string) : list string :=
  match s with
  | EmptyString => if is_empty cur then [] else [cur]
  | String c rest =>
      if is_space c
      then (if is_empty cur then split_from rest EmptyString
            else cur :: split_from rest EmptyString)
      else split_from rest (cur ++ String c EmptyString)%string
  end.

Definition split (s : string) : list string := split_from s EmptyString.

(** [s.startswith(p)] *)
Definition startswith (s p : string) : bool := String.prefix p s.

End Str.

(** A triangle: its three vertices. *)
Definition triangle : Type := list vec3.

(** [struct.unpack_from('<I', b)]: the little-endian unsigned 32-bit integer
    in the first four bytes. *)
Definition u32_le (b : list byte) : Z :=
  match b with
  | b0 :: b1 :: b2 :: b3 :: _ =>
      (Z.of_N (Byte.to_N b0) + 256 * Z.of_N (Byte.to_N b1) +
       65536 * Z.of_N (Byte.to_N b2) + 16777216 * Z.of_N (Byte.to_N b3))%Z
  | _ => 0%Z
  end.

(** The [count] records of 50 bytes of [np.frombuffer]. *)
Fixpoint records (count : nat) (buf : list byte) : list (list byte) :=
  match count with
  | O => []
  | S k => firstn 50 buf :: records k (skipn 50 buf)
  end.

(** [inv.reshape(-1, 3)], as rows of an index array. *)
Fixpoint reshape3 (l : list Z) : list face :=
  match l with
  | a :: b :: c :: t => (a, b, c) :: reshape3 t
  | _ => []
  end.

Section Loader.

(** [data.decode('utf-8', errors='ignore')] *)
Variable decode_utf8 : list byte -> string.

(** [float(s)] on a string: [None] when it raises ValueError. *)
Variable float_of_string : string -> option R.

(** The value of a [float32] given by its bit pattern, as a [float64]. *)
Variable float32_of_bits : Z -> R.

(** The field ['v'] of one record: nine little-endian [float32] from byte
    12 on, after the normal; the two attribute bytes are left out. *)
Definition f32_at (rec : list byte) (offset : nat) : R :=
  float32_of_bits (u32_le (skipn offset rec)).

Definition vertex_at (rec : list byte) (offset : nat) : vec3 :=
  (f32_at rec offset, f32_at rec (offset + 4), f32_at rec (offset + 8)).

Definition facet_vertices (rec : list byte) : triangle :=
  [vertex_at rec 12; vertex_at rec 24; vertex_at rec 36].

(** [_parse_stl_binary(data)] *)
Definition _parse_stl_binary (data : list byte) : result (list triangle) :=
  if (Z.of_nat (length data) <? 84)%Z
  then Raise (ValueError "Binary STL too small")
  else
    let n_tri := u32_le (skipn 80 data) in
    let expect := (84 + 50 * n_tri)%Z in
    if negb (Z.of_nat (length data) =? expect)%Z
    then Raise (ValueError "Binary STL size does not match triangle count")
    else
      let recs := records (Z.to_nat n_tri) (skipn 84 data) in
      let triangles := map facet_vertices recs in
      Ok triangles.

(** The state of the loop of [_parse_stl_ascii]: [tris] and [cur]. *)
Definition parse_state : Type := (list triangle * list vec3)%type.

(** One turn of the loop over the lines. *)
Definition parse_line (st : parse_state) (line : string) : parse_state :=
  let '(tris, cur) := st in
  let line := Str.strip line in
  if Str.is_empty line then st
  else if Str.startswith (Str.lower line) "vertex" then
    let parts := Str.split line in
    let appended :=
      if (4 <=? length parts)%nat then
        match float_of_string (nth 1 parts ""),
              float_of_string (nth 2 parts ""),
              float_of_string (nth 3 parts "") with
        | Some x, Some y, Some z => Some (cur ++ [(x, y, z)])%list
        | _, _, _ => None
        end
      else Some cur in
    match appended with
    | None => st
    | Some cur =>
        if (length cur =? 3)%nat then ((tris ++ [cur])%list, []) else (tris, cur)
    end
  else st.

(** [_parse_stl_ascii(text)] *)
Definition _parse_stl_ascii (text : string) : result (list triangle) :=
  let '(tris, cur) := fold_left parse_line (Str.splitlines text) ([], []) in
  match tris with
  | [] => Raise (ValueError "No triangles found in ASCII STL")
  | _ => Ok tris
  end.

(** The triangles [load_stl] reads from the bytes of the file with the
    built-in parser (lines 109-121 of the source). *)
Definition stl_triangles (data : list byte) : result (list triangle) :=
  let triangles :=
    if (84 <=? length data)%nat then
      match _parse_stl_binary data with
      | Ok t => Some t
      | Raise _ => None
      end
    else None in
  match triangles with
  | Some t => Ok t
  | None =>
      match _parse_stl_ascii (decode_utf8 data) with
      | Ok t => Ok t
      | Raise e => Raise (ValueError ("Could not parse STL file: " ++ message e))
      end
  end.

(** [load_stl(path, merge_vertices, decimals)] with the built-in parser,
    from the bytes [data] of the file at [path]. *)
Definition load_stl (data : list byte) (merge_vertices : bool) (decimals : Z)
    : result (list vec3 * list face) :=
  triangles <- stl_triangles data ;;
  let verts := concat triangles in
  if merge_vertices then
    let '(nodes, inv) := _unique_rows_tol verts decimals in
    let faces := reshape3 (map Z.of_nat inv) in
    Ok (nodes, faces)
  else
    let nodes := verts in
    let faces := reshape3 (map Z.of_nat (seq 0 (length nodes))) in
    Ok (nodes, faces).

(** *** Binary or text *)

(** The triangle count declared at byte offset 80. *)
Definition declared_count (data : list byte) : Z := u32_le (skipn 80 data).

(** The input is a binary STL: at least 84 bytes, and exactly the 84 bytes
    of header and count plus 50 bytes for every declared triangle. *)
Definition is_binary (data : list byte) : Prop :=
  (84 <= length data)%nat /\
  Z.of_nat (length data) = (84 + 50 * declared_count data)%Z.

(** A vertex line whose numeric tokens do not all parse. *)
Definition malformed_vertex_line (line : string) : Prop :=
  Str.is_empty (Str.strip line) = false /\
  Str.startswith (Str.lower (Str.strip line)) "vertex" = true /\
  (4 <= length (Str.split (Str.strip line)))%nat /\
  (float_of_string (nth 1 (Str.split (Str.strip line)) "") = None \/
   float_of_string (nth 2 (Str.split (Str.strip line)) "") = None \/
   float_of_string (nth 3 (Str.split (Str.strip line)) "") = None).

(** What the text path of [load_stl] returns. *)
Definition text_triangles (data : list byte) : result (list triangle) :=
  match _parse_stl_ascii (decode_utf8 data) with
  | Ok t => Ok t
  | Raise e => Raise (ValueError ("Could not parse STL file: " ++ message e))
  end.

Lemma records_length (count : nat) (buf : list byte) : length (records count buf) = count.
Proof. revert buf; induction count as [|k IH]; intros buf; cbn; [reflexivity | now rewrite IH]. Qed.

Lemma parse_binary_accepts (data : list byte) :
  is_binary data ->
  _parse_stl_binary data =
  Ok (map facet_vertices (records (Z.to_nat (declared_count data)) (skipn 84 data))).
Proof.
  intros [Hlen Hsize]. unfold _parse_stl_binary. fold (declared_count data).
  rewrite (proj2 (Z.ltb_ge _ 84)) by lia.
  now rewrite (proj2 (Z.eqb_eq _ _) Hsize).
Qed.

Lemma parse_binary_rejects (data : list byte) :
  ~ is_binary data -> exists e, _parse_stl_binary data = Raise e.
Proof.
  intros Hn. unfold _parse_stl_binary. fold (declared_count data).
  destruct (Z.of_nat (length data) <? 84)%Z eqn:E1; [eauto|].
  apply Z.ltb_ge in E1.
  destruct (Z.of_nat (length data) =? 84 + 50 * declared_count data)%Z eqn:E2; [|cbn; eauto].
  apply Z.eqb_eq in E2. exfalso. apply Hn. split; [lia | exact E2].
Qed.

Lemma parse_line_malformed (st : parse_state) (line : string) :
  malformed_vertex_line line -> parse_line st line = st.
Proof.
  intros (Hne & Hv & Hlen & Hbad). unfold parse_line. destruct st as [tris cur].
  rewrite Hne, Hv. rewrite (proj2 (Nat.leb_le 4 _) Hlen).
  destruct Hbad as [H|[H|H]]; rewrite H;
    repeat match goal with
           | |- context [match float_of_string ?t with _ => _ end] =>
               destruct (float_of_string t)
           end;
    reflexivity.
Qed.

(** C4. The bytes are decoded as binary exactly when there are at least 84
    of them and their number is 84 + 50 * count for the count declared at
    offset 80; any other input goes to the text parser, where a vertex line
    with a malformed number is skipped on its own, and no triangle at all
    is a format error. *)
Theorem stl_binary_or_text (data : list byte) :
  (is_binary data ->
   stl_triangles data =
     Ok (map facet_vertices (records (Z.to_nat (declared_count data)) (skipn 84 data))) /\
   stl_triangles data = _parse_stl_binary data) /\
  (~ is_binary data -> stl_triangles data = text_triangles data) /\
  (forall before line after st,
     malformed_vertex_line line ->
     parse_line st line = st /\
     fold_left parse_line (before ++ line :: after)%list st =
     fold_left parse_line (before ++ after)%list st) /\
  (forall text,
     fst (fold_left parse_line (Str.splitlines text) ([], [])) = [] ->
     _parse_stl_ascii text = Raise (ValueError "No triangles found in ASCII STL")) /\
  (~ is_binary data ->
   fst (fold_left parse_line (Str.splitlines (decode_utf8 data)) ([], [])) = [] ->
   stl_triangles data =
     Raise (ValueError "Could not parse STL file: No triangles found in ASCII STL")).
Proof.
  assert (Hzero : forall text,
             fst (fold_left parse_line (Str.splitlines text) ([], [])) = [] ->
             _parse_stl_ascii text = Raise (ValueError "No triangles found in ASCII STL")).
  { intros text H. unfold _parse_stl_ascii.
    destruct (fold_left parse_line _ _) as [tris cur]. cbn in H. now subst. }
  assert (Htext : ~ is_binary data -> stl_triangles data = text_triangles data).
  { intros Hn. unfold stl_triangles, text_triangles.
    destruct (parse_binary_rejects Hn) as [e He]. rewrite He.
    now destruct (84 <=? length data)%nat. }
  split; [|split; [exact Htext | split; [|split; [exact Hzero|]]]].
  - intros Hb. pose proof (parse_binary_accepts Hb) as Hp.
    unfold stl_triangles. rewrite Hp.
    destruct Hb as [Hlen _]. rewrite (proj2 (Nat.leb_le 84 _) Hlen).
    split; reflexivity.
  - intros before line after st Hbad. split; [now apply parse_line_malformed|].
    rewrite !fold_left_app. cbn [fold_left].
    now rewrite parse_line_malformed.
  - intros Hn Hz. rewrite (Htext Hn). unfold text_triangles.
    now rewrite (Hzero _ Hz).
Qed.

(** *** Deduplication in [load_stl] *)

Lemma reshape3_entries (k : nat) :
  forall l, length l = (3 * k)%nat ->
            face_entries (reshape3 l) = l /\ length (reshape3 l) = k.
Proof.
  induction k as [|k IH]; intros l Hl.
  - destruct l; [now split | discriminate].
  - destruct l as [|a [|b [|c t]]]; cbn [length] in Hl; try lia.
    destruct (IH t) as [H1 H2]; [lia|].
    cbn [reshape3 length]. split; [|now rewrite H2].
    unfold face_entries in *. cbn [flat_map]. rewrite H1. reflexivity.
Qed.

Lemma parse_line_three (st : parse_state) (line : string) :
  Forall (fun t : triangle => length t = 3%nat) (fst st) ->
  Forall (fun t : triangle => length t = 3%nat) (fst (parse_line st line)).
Proof.
  destruct st as [tris cur]. cbn [fst]. intros H. unfold parse_line.
  destruct (Str.is_empty _); [exact H|].
  destruct (Str.startswith _ _); [|exact H].
  match goal with |- context [match ?a with Some _ => _ | None => _ end] => destruct a as [cur'|] end;
    [|exact H].
  destruct (length cur' =? 3)%nat eqn:E; cbn [fst]; [|exact H].
  apply Nat.eqb_eq in E. apply Forall_app. split; [exact H | now constructor].
Qed.

Lemma parse_lines_three (lines : list string) (st : parse_state) :
  Forall (fun t : triangle => length t = 3%nat) (fst st) ->
  Forall (fun t : triangle => length t = 3%nat) (fst (fold_left parse_line lines st)).
Proof.
  revert st. induction lines as [|line lines IH]; intros st H; cbn [fold_left];
    [exact H|]. now apply IH, parse_line_three.
Qed.

(** Every triangle the parsers return has three vertices. *)
Lemma stl_triangles_three (data : list byte) (triangles : list triangle) :
  stl_triangles data = Ok triangles ->
  Forall (fun t : triangle => length t = 3%nat) triangles.
Proof.
  unfold stl_triangles, _parse_stl_binary, _parse_stl_ascii.
  assert (Hbin : forall recs, Forall (fun t : triangle => length t = 3%nat)
                                     (map facet_vertices recs)).
  { intros recs. apply Forall_map, Forall_forall. reflexivity. }
  assert (Htxt : forall t,
             match (let '(tris, _) := fold_left parse_line
                                        (Str.splitlines (decode_utf8 data)) ([], []) in
                    match tris with
                    | [] => Raise (ValueError "No triangles found in ASCII STL")
                    | _ => Ok tris
                    end) with
             | Ok t0 => Ok t0
             | Raise e => Raise (ValueError ("Could not parse STL file: " ++ message e))
             end = Ok t ->
             Forall (fun t : triangle => length t = 3%nat) t).
  { intros t.
    pose proof (@parse_lines_three (Str.splitlines (decode_utf8 data)) ([], [])) as H.
    destruct (fold_left parse_line _ _) as [tris cur]. cbn [fst] in H.
    destruct tris as [|t0 tris]; [discriminate|].
    intros [= <-]. apply H. constructor. }
  destruct (84 <=? length data)%nat; [|apply Htxt].
  destruct (Z.of_nat (length data) <? 84)%Z; [apply Htxt|].
  destruct (negb _); [apply Htxt|].
  intros [= <-]. apply Hbin.
Qed.

Lemma concat_length_three (triangles : list triangle) :
  Forall (fun t : triangle => length t = 3%nat) triangles ->
  length (concat triangles) = (3 * length triangles)%nat.
Proof.
  induction 1 as [|t ts Ht Hts IH]; [reflexivity|].
  cbn [concat length]. rewrite length_app, IH, Ht. lia.
Qed.

(** C2 (amended). With merging enabled, [load_stl] returns as nodes, for
    every distinct rounded point of the vertex stream, the first vertex that
    rounds to it, in ascending order of the rounded coordinates (x, then y,
    then z) and not in first-seen order; there is one face per triangle,
    the face entry of a vertex of the stream indexes the node with the same
    rounded coordinates, the first such vertex of the stream, and every
    node is indexed by the face entry of the vertex it is. *)
Theorem load_stl_deduplicates
    (data : list byte) (decimals : Z)
    (triangles : list triangle) (nodes : list vec3) (faces : list face) :
  stl_triangles data = Ok triangles ->
  load_stl data true decimals = Ok (nodes, faces) ->
  StronglySorted row_lt (map (round_row decimals) nodes) /\
  length faces = length triangles /\
  length (face_entries faces) = length (concat triangles) /\
  (forall i p,
     nth_error (concat triangles) i = Some p ->
     exists g q i0,
       nth_error (face_entries faces) i = Some (Z.of_nat g) /\
       nth_error nodes g = Some q /\
       nth_error (concat triangles) i0 = Some q /\
       round_row decimals q = round_row decimals p /\
       forall i' p',
         nth_error (concat triangles) i' = Some p' ->
         round_row decimals p' = round_row decimals p -> (i0 <= i')%nat) /\
  (forall g q,
     nth_error nodes g = Some q ->
     exists i0,
       nth_error (concat triangles) i0 = Some q /\
       nth_error (face_entries faces) i0 = Some (Z.of_nat g)).
Proof.
  intros Htri Hload. unfold load_stl in Hload. rewrite Htri in Hload.
  cbn [Py.bind] in Hload.
  destruct (unique_rows_sorted_first_occurrence (concat triangles) decimals)
    as (Hsorted & Hlen & Hinv & Hnodes).
  destruct (_unique_rows_tol (concat triangles) decimals) as [nodes' inv].
  cbn [fst snd] in *. injection Hload as <- <-.
  pose proof (concat_length_three (stl_triangles_three _ Htri)) as H3.
  destruct (@reshape3_entries (length triangles) (map Z.of_nat inv)) as [He Hl].
  { rewrite length_map. congruence. }
  split; [exact Hsorted|]. split; [exact Hl|]. rewrite He.
  split; [rewrite length_map; exact Hlen|]. split.
  - intros i p Hp. destruct (Hinv i p Hp) as (g & q & i0 & Hg & Hq & Hi0 & Hr & Hfirst).
    exists g, q, i0. split; [|auto].
    rewrite nth_error_map, Hg. reflexivity.
  - intros g q Hq. destruct (Hnodes g q Hq) as (i0 & Hi0 & Hg).
    exists i0. split; [exact Hi0|]. rewrite nth_error_map, Hg. reflexivity.
Qed.

(** *** What the loader hands to the descriptors *)

(** The vertex a line of the text format contributes: the stripped line
    starts with [vertex] in any case, has at least four tokens, and the three
    tokens after the first are numbers. *)
Definition line_vertex (line : string) : option vec3 :=
  let line := Str.strip line in
  if Str.is_empty line then None
  else if Str.startswith (Str.lower line) "vertex" then
    let parts := Str.split line in
    if (4 <=? length parts)%nat then
      match float_of_string (nth 1 parts ""),
            float_of_string (nth 2 parts ""),
            float_of_string (nth 3 parts "") with
      | Some x, Some y, Some z => Some (x, y, z)
      | _, _, _ => None
      end
    else None
  else None.

Definition line_vertices (lines : list string) : list vec3 :=
  flat_map (fun line => match line_vertex line with Some v => [v] | None => [] end) lines.

(** The area of one triangle of the file. *)
Definition file_triangle_area (t : triangle) : R :=
  match t with
  | [A; B; C] => 0.5 * norm (cross (vsub B A) (vsub C A))
  | _ => 0
  end.

Lemma parse_line_vertex (tris : list triangle) (cur : list vec3) (line : string) :
  (length cur < 3)%nat ->
  parse_line (tris, cur) line =
  match line_vertex line with
  | None => (tris, cur)
  | Some v =>
      if (length (cur ++ [v]) =? 3)%nat then ((tris ++ [cur ++ [v]])%list, [])
      else (tris, (cur ++ [v])%list)
  end.
Proof.
  intros Hcur. unfold parse_line, line_vertex.
  destruct (Str.is_empty _); [reflexivity|].
  destruct (Str.startswith _ _); [|reflexivity].
  assert (Hno : (length cur =? 3)%nat = false) by (apply Nat.eqb_neq; lia).
  destruct (4 <=? _)%nat; [|now rewrite Hno].
  repeat match goal with
         | |- context [match float_of_string ?t with _ => _ end] =>
             destruct (float_of_string t)
         end; reflexivity.
Qed.

Lemma parse_lines_stream (lines : list string) :
  forall (tris : list triangle) (cur : list vec3),
    (length cur < 3)%nat ->
    Forall (fun t : triangle => length t = 3%nat) tris ->
    let st := fold_left parse_line lines (tris, cur) in
    (concat (fst st) ++ snd st = (concat tris ++ cur) ++ line_vertices lines)%list /\
    Forall (fun t : triangle => length t = 3%nat) (fst st) /\
    (length (snd st) < 3)%nat.
Proof.
  induction lines as [|line lines IH]; intros tris cur Hcur Htris.
  - cbn. rewrite app_nil_r. auto.
  - cbn [fold_left]. rewrite (@parse_line_vertex tris cur line Hcur).
    unfold line_vertices. cbn [flat_map]. fold (line_vertices lines).
    destruct (line_vertex line) as [v|]; [|now apply IH].
    destruct (length (cur ++ [v]) =? 3)%nat eqn:E.
    + apply Nat.eqb_eq in E.
      destruct (IH (tris ++ [cur ++ [v]])%list []) as (H1 & H2 & H3).
      * cbn. lia.
      * apply Forall_app. split; [exact Htris | now constructor].
      * cbv zeta. rewrite H1. split; [|now split].
        rewrite concat_app. cbn [concat]. now rewrite !app_nil_r, <- !app_assoc.
    + apply Nat.eqb_neq in E. rewrite length_app in E. cbn [length] in E.
      destruct (IH tris (cur ++ [v])%list) as (H1 & H2 & H3).
      * rewrite length_app. cbn [length]. lia.
      * exact Htris.
      * cbv zeta. rewrite H1. split; [|now split]. now rewrite <- !app_assoc.
Qed.

(** X26. The text parser reads the vertex lines as one stream and cuts it into
    consecutive triples: the vertices of the triangles, in order, followed by
    the one or two vertices left over, are the vertices of the well-formed
    vertex lines.  No other line is looked at, so that a triangle may span
    two facets, and a trailing incomplete triple is dropped. *)
Lemma parse_ascii_consecutive_triples (text : string) :
  let st := fold_left parse_line (Str.splitlines text) ([], []) in
  (concat (fst st) ++ snd st)%list = line_vertices (Str.splitlines text) /\
  Forall (fun t : triangle => length t = 3%nat) (fst st) /\
  (length (snd st) < 3)%nat /\
  length (fst st) = (length (line_vertices (Str.splitlines text)) / 3)%nat /\
  (_parse_stl_ascii text = Raise (ValueError "No triangles found in ASCII STL") <->
   (length (line_vertices (Str.splitlines text)) < 3)%nat) /\
  (forall tris, _parse_stl_ascii text = Ok tris -> tris = fst st).
Proof.
  intros st.
  destruct (@parse_lines_stream (Str.splitlines text) [] [])
    as (H1 & H2 & H3); [cbn; lia | constructor |].
  fold st in H1, H2, H3. cbn [concat app] in H1.
  assert (Hlen : length (line_vertices (Str.splitlines text)) =
                 (3 * length (fst st) + length (snd st))%nat).
  { rewrite <- H1, length_app, (concat_length_three H2). reflexivity. }
  assert (Hdiv : length (fst st) = (length (line_vertices (Str.splitlines text)) / 3)%nat).
  { rewrite Hlen. symmetry. rewrite Nat.mul_comm. rewrite Nat.div_add_l by lia.
    rewrite (Nat.div_small _ 3) by exact H3. lia. }
  split; [exact H1|]. split; [exact H2|]. split; [exact H3|]. split; [exact Hdiv|].
  unfold _parse_stl_ascii. fold st. destruct st as [tris cur]. cbn [fst snd] in *.
  split.
  - destruct tris as [|t tris]; cbn [length] in *.
    + split; [intros _; lia | reflexivity].
    + split; [discriminate | intros H; lia].
  - intros tris'. destruct tris; [discriminate | now intros [= <-]].
Qed.

(** X27. A binary file holds as many triangles as it declares, and its size is
    84 bytes plus 50 bytes for each of them; an 84-byte file that declares no
    triangle loads as the empty mesh, where a text file without triangles is
    an error. *)
Lemma parse_binary_count (data : list byte) :
  (forall triangles,
     _parse_stl_binary data = Ok triangles ->
     Z.of_nat (length triangles) = declared_count data /\
     Z.of_nat (length data) = (84 + 50 * Z.of_nat (length triangles))%Z /\
     Forall (fun t : triangle => length t = 3%nat) triangles) /\
  (length data = 84%nat -> declared_count data = 0%Z ->
   forall merge_vertices decimals,
     load_stl data merge_vertices decimals = Ok ([], [])).
Proof.
  split.
  - intros triangles. unfold _parse_stl_binary. fold (declared_count data).
    destruct (Z.of_nat (length data) <? 84)%Z eqn:E1; [discriminate|].
    destruct (Z.of_nat (length data) =? 84 + 50 * declared_count data)%Z eqn:E2;
      [|discriminate].
    cbn [negb]. intros [= <-]. apply Z.ltb_ge in E1. apply Z.eqb_eq in E2.
    rewrite length_map, records_length.
    assert (0 <= declared_count data)%Z by lia.
    rewrite Z2Nat.id by assumption.
    split; [reflexivity | split; [exact E2|]].
    apply Forall_map, Forall_forall. reflexivity.
  - intros Hlen Hcount merge_vertices decimals.
    assert (Hb : is_binary data).
    { split; [lia | rewrite Hlen, Hcount; reflexivity]. }
    unfold load_stl, stl_triangles. rewrite (parse_binary_accepts Hb), Hcount.
    rewrite (proj2 (Nat.leb_le 84 _)) by lia.
    cbn [Z.to_nat records map Py.bind concat].
    destruct merge_vertices; reflexivity.
Qed.

Lemma reshape3_seq (n : nat) :
  forall start,
    reshape3 (map Z.of_nat (seq start (3 * n))) =
    map (fun k => (Z.of_nat (start + 3 * k), Z.of_nat (start + 3 * k + 1),
                   Z.of_nat (start + 3 * k + 2)))
        (seq 0 n).
Proof.
  induction n as [|n IH]; intros start; [reflexivity|].
  replace (3 * S n)%nat with (S (S (S (3 * n)))) by lia.
  cbn [seq map reshape3]. rewrite IH, <- seq_shift, map_map. f_equal.
  - split_pairs; lia.
  - apply map_ext. intros k. split_pairs; lia.
Qed.

(** X28. Without merging, the nodes are the vertices of the triangles in the
    order of the file, three for each triangle, and face [k] is
    [(3k, 3k+1, 3k+2)]. *)
Lemma load_stl_unmerged
    (data : list byte) (decimals : Z) (triangles : list triangle) :
  stl_triangles data = Ok triangles ->
  load_stl data false decimals =
  Ok (concat triangles,
      map (fun k => (Z.of_nat (3 * k), Z.of_nat (3 * k + 1), Z.of_nat (3 * k + 2)))
          (seq 0 (length triangles))) /\
  length (concat triangles) = (3 * length triangles)%nat.
Proof.
  intros Htri. pose proof (concat_length_three (stl_triangles_three _ Htri)) as H3.
  split; [|exact H3].
  unfold load_stl. rewrite Htri. cbn [Py.bind]. rewrite H3, reshape3_seq.
  reflexivity.
Qed.

(** The face entry of every vertex of the stream indexes a node, and the
    node is the vertex itself, or with merging a vertex of the stream with
    the same rounded coordinates. *)
Lemma load_stl_entries
    (data : list byte) (merge_vertices : bool) (decimals : Z)
    (triangles : list triangle) (nodes : list vec3) (faces : list face) :
  stl_triangles data = Ok triangles ->
  load_stl data merge_vertices decimals = Ok (nodes, faces) ->
  length (face_entries faces) = length (concat triangles) /\
  forall i p,
    nth_error (concat triangles) i = Some p ->
    exists g q,
      nth_error (face_entries faces) i = Some (Z.of_nat g) /\
      nth_error nodes g = Some q /\
      In q (concat triangles) /\
      round_row decimals q = round_row decimals p.
Proof.
  intros Htri Hload.
  pose proof (concat_length_three (stl_triangles_three _ Htri)) as H3.
  unfold load_stl in Hload. rewrite Htri in Hload. cbn [Py.bind] in Hload.
  destruct merge_vertices.
  - destruct (unique_rows_sorted_first_occurrence (concat triangles) decimals)
      as (_ & Hlen & Hinv & _).
    destruct (_unique_rows_tol (concat triangles) decimals) as [nodes' inv].
    cbn [fst snd] in *. injection Hload as <- <-.
    destruct (@reshape3_entries (length triangles) (map Z.of_nat inv)) as [He _].
    { rewrite length_map. congruence. }
    rewrite He, length_map. split; [exact Hlen|].
    intros i p Hp. destruct (Hinv i p Hp) as (g & q & i0 & Hg & Hq & Hi0 & Hr & _).
    exists g, q. rewrite nth_error_map, Hg.
    repeat split; try assumption. eapply nth_error_In; exact Hi0.
  - injection Hload as <- <-.
    destruct (@reshape3_entries (length triangles)
                (map Z.of_nat (seq 0 (length (concat triangles))))) as [He _].
    { rewrite length_map, length_seq. exact H3. }
    rewrite He, length_map, length_seq. split; [reflexivity|].
    intros i p Hp. exists i, p.
    assert (Hi : (i < length (concat triangles))%nat)
      by (apply nth_error_Some; congruence).
    rewrite nth_error_map, (nth_error_nth' _ 0%nat) by (rewrite length_seq; exact Hi).
    rewrite seq_nth by exact Hi.
    repeat split; try assumption. eapply nth_error_In; exact Hp.
Qed.

Lemma load_stl_indices
    (data : list byte) (merge_vertices : bool) (decimals : Z)
    (nodes : list vec3) (faces : list face) :
  load_stl data merge_vertices decimals = Ok (nodes, faces) ->
  Forall (fun i => (0 <= i < Z.of_nat (length nodes))%Z) (face_entries faces) /\
  faces_used nodes faces = faces.
Proof.
  intros Hload.
  destruct (stl_triangles data) as [triangles|e] eqn:Htri.
  2:{ unfold load_stl in Hload. rewrite Htri in Hload. discriminate. }
  destruct (@load_stl_entries _ _ _ _ _ _ Htri Hload) as [Hlen Hent].
  assert (Hrange : Forall (fun i => (0 <= i < Z.of_nat (length nodes))%Z)
                          (face_entries faces)).
  { apply Forall_forall. intros x Hx. apply In_nth_error in Hx as [i Hi].
    assert (Hlt : (i < length (concat triangles))%nat).
    { rewrite <- Hlen. apply nth_error_Some. congruence. }
    destruct (nth_error (concat triangles) i) as [p|] eqn:Hp.
    2:{ apply nth_error_None in Hp. lia. }
    destruct (Hent i p Hp) as (g & q & Hg & Hq & _).
    assert (x = Z.of_nat g) by congruence. subst x.
    assert (g < length nodes)%nat by (apply nth_error_Some; congruence). lia. }
  split; [exact Hrange|].
  pose proof (proj2 (out_of_range_spec _ _) Hrange) as Hoor.
  unfold faces_used. now rewrite (@in_range_not_one_based _ _ Hoor).
Qed.

(** X29. Every mesh the loader returns is accepted by [surface_area]: the face
    indices lie in range, they are read as 0-based, and the area is returned
    without an index error. *)
Lemma load_stl_mesh_is_valid
    (data : list byte) (merge_vertices : bool) (decimals : Z)
    (nodes : list vec3) (faces : list face) :
  load_stl data merge_vertices decimals = Ok (nodes, faces) ->
  Forall (fun i => (0 <= i < Z.of_nat (length nodes))%Z) (face_entries faces) /\
  faces_used nodes faces = faces /\
  exists a, surface_area nodes faces = Ok a /\ 0 <= a.
Proof.
  intros Hload. destruct (@load_stl_indices _ _ _ _ _ Hload) as [Hrange Hused].
  split; [exact Hrange | split; [exact Hused|]].
  rewrite surface_area_rows, Hused, (proj2 (out_of_range_spec _ _) Hrange).
  eexists. split; [reflexivity|].
  apply rsum_nonneg, Forall_forall. intros x Hx.
  apply in_map_iff in Hx as [f [<- _]]. apply triangle_area_nonneg.
Qed.

Lemma areas_by_triangles (nodes : list vec3) (triangles : list triangle) :
  Forall (fun t : triangle => length t = 3%nat) triangles ->
  forall l : list Z,
    (forall i p, nth_error (concat triangles) i = Some p ->
       exists g, nth_error l i = Some g /\ Index.take vzero nodes g = p) ->
    length l = length (concat triangles) ->
    map (triangle_area nodes) (reshape3 l) = map file_triangle_area triangles.
Proof.
  induction 1 as [|t ts Ht Hts IH]; intros l Hl Hlen.
  - destruct l; [reflexivity | discriminate].
  - destruct t as [|A [|B [|C [|D t]]]]; try discriminate. clear Ht.
    cbn [concat app] in Hl, Hlen.
    destruct (Hl 0%nat A eq_refl) as (g0 & Hg0 & E0).
    destruct (Hl 1%nat B eq_refl) as (g1 & Hg1 & E1).
    destruct (Hl 2%nat C eq_refl) as (g2 & Hg2 & E2).
    destruct l as [|a [|b [|c l]]]; try discriminate.
    cbn in Hg0, Hg1, Hg2. injection Hg0 as ->. injection Hg1 as ->. injection Hg2 as ->.
    cbn [reshape3 map]. f_equal.
    + unfold triangle_area, file_triangle_area, fcol0, fcol1, fcol2. cbn [fst snd].
      now rewrite E0, E1, E2.
    + apply IH.
      * intros i p Hp. apply (Hl (S (S (S i))) p Hp).
      * cbn [length] in Hlen. lia.
Qed.

(** X30. The round trip of a file through the loader: when no two different
    vertices of the file have the same rounded coordinates, the area of the
    loaded mesh, merged or not, is the sum of the areas of the triangles of
    the file. *)
Lemma load_stl_area
    (data : list byte) (decimals : Z) (triangles : list triangle) :
  stl_triangles data = Ok triangles ->
  (forall p q, In p (concat triangles) -> In q (concat triangles) ->
               round_row decimals p = round_row decimals q -> p = q) ->
  forall merge_vertices,
  exists nodes faces,
    load_stl data merge_vertices decimals = Ok (nodes, faces) /\
    surface_area nodes faces = Ok (rsum (map file_triangle_area triangles)).
Proof.
  intros Htri Hinj merge_vertices.
  destruct (load_stl data merge_vertices decimals) as [[nodes faces]|e] eqn:Hload.
  2:{ unfold load_stl in Hload. rewrite Htri in Hload. cbn [Py.bind] in Hload.
      destruct merge_vertices; [|discriminate].
      destruct (_unique_rows_tol _ _); discriminate. }
  exists nodes, faces. split; [reflexivity|].
  destruct (@load_stl_indices _ _ _ _ _ Hload) as [Hrange Hused].
  destruct (@load_stl_entries _ _ _ _ _ _ Htri Hload) as [Hlen Hent].
  rewrite surface_area_rows, Hused, (proj2 (out_of_range_spec _ _) Hrange).
  do 2 f_equal.
  assert (H3 : Forall (fun t : triangle => length t = 3%nat) triangles)
    by (eapply stl_triangles_three; exact Htri).
  assert (Hre : reshape3 (face_entries faces) = faces).
  { clear. induction faces as [|[[a b] c] faces IH]; [reflexivity|].
    change (face_entries ((a, b, c) :: faces)) with (a :: b :: c :: face_entries faces).
    cbn [reshape3]. now rewrite IH. }
  replace (map (triangle_area nodes) faces)
    with (map (triangle_area nodes) (reshape3 (face_entries faces)))
    by now rewrite Hre.
  apply areas_by_triangles; [exact H3 | | exact Hlen].
  intros i p Hp. destruct (Hent i p Hp) as (g & q & Hg & Hq & Hin & Hr).
  exists (Z.of_nat g). split; [exact Hg|].
  unfold Index.take. rewrite Nat2Z.id.
  assert (q = p) by (apply Hinj; [exact Hin | eapply nth_error_In; exact Hp | exact Hr]).
  subst q. now apply nth_error_nth.
Qed.

End Loader.

(** *** Two small files *)

(** Instances of the three runtime functions, enough for files of ASCII
    characters, unsigned integer tokens and finite 32-bit floats. *)
Definition ascii_text (data : list byte) : string := string_of_list_byte data.

Fixpoint digits_value (s : string) (acc : Z) : option Z :=
  match s with
  | EmptyString => Some acc
  | String c rest =>
      let n := nat_of_ascii c in
      if ((48 <=? n) && (n <=? 57))%nat
      then digits_value rest (10 * acc + Z.of_nat (n - 48))%Z
      else None
  end.

Definition digits_float (s : string) : option R :=
  if Str.is_empty s then None else option_map IZR (digits_value s 0).

Definition float32_value (bits : Z) : R :=
  let sign := if (bits / 2 ^ 31 =? 0)%Z then 1 else -1 in
  let e := ((bits / 2 ^ 23) mod 256)%Z in
  let m := (bits mod 2 ^ 23)%Z in
  if (e =? 0)%Z then sign * IZR m * powerRZ 2 (-149)
  else sign * IZR (2 ^ 23 + m) * powerRZ 2 (e - 150).

(** A binary file with one facet, the triangle (0,0,0), (1,0,0), (0,1,0). *)
Definition f32_zero : list byte := [x00; x00; x00; x00].
Definition f32_one : list byte := [x00; x00; x80; x3f].

Definition one_facet_file : list byte :=
  (repeat x00 80 ++ [x01; x00; x00; x00] ++
   f32_zero ++ f32_zero ++ f32_one ++
   f32_zero ++ f32_zero ++ f32_zero ++
   f32_one ++ f32_zero ++ f32_zero ++
   f32_zero ++ f32_one ++ f32_zero ++
   [x00; x00])%list.

(** A text file whose third vertex line carries a malformed number. *)
Definition text_file : string :=
  "solid t" ++ String "010" (
  "facet normal 0 0 1" ++ String "010" (
  " outer loop" ++ String "010" (
  "  vertex 0 0 0" ++ String "010" (
  "  vertex 1 0 0" ++ String "010" (
  "  vertex 0 1e 0" ++ String "010" (
  "  VERTEX 0 1 0" ++ String "010" (
  " endloop" ++ String "010" (
  "endfacet" ++ String "010" (
  "endsolid t" ++ String "010" ""))))))))).

Lemma float32_value_one : float32_value 1065353216 = 1.
Proof.
  unfold float32_value.
  change ((1065353216 / 2 ^ 31 =? 0)%Z) with true.
  change (((1065353216 / 2 ^ 23) mod 256)%Z) with 127%Z.
  change ((1065353216 mod 2 ^ 23)%Z) with 0%Z.
  change ((127 =? 0)%Z) with false. cbv iota.
  change ((127 - 150)%Z) with (-23)%Z. change ((2 ^ 23 + 0)%Z) with 8388608%Z.
  cbn [powerRZ]. change (Pos.to_nat 23) with 23%nat. cbn [pow]. field.
Qed.

Lemma float32_value_zero : float32_value 0 = 0.
Proof.
  unfold float32_value.
  change ((0 / 2 ^ 31 =? 0)%Z) with true.
  change (((0 / 2 ^ 23) mod 256)%Z) with 0%Z.
  change ((0 mod 2 ^ 23)%Z) with 0%Z.
  change ((0 =? 0)%Z) with true. cbv iota. lra.
Qed.

(** Evaluate the integers read from the bytes. *)
Ltac eval_u32 :=
  repeat match goal with
  | |- context [u32_le ?b] =>
      let v := eval vm_compute in (u32_le b) in change (u32_le b) with v
  end.

Example one_facet_triangles :
  stl_triangles ascii_text digits_float float32_value one_facet_file =
  Ok [[(0, 0, 0); (1, 0, 0); (0, 1, 0)]].
Proof.
  unfold stl_triangles, _parse_stl_binary.
  change ((84 <=? length one_facet_file)%nat) with true.
  change ((Z.of_nat (length one_facet_file) <? 84)%Z) with false.
  eval_u32.
  change ((Z.of_nat (length one_facet_file) =? 84 + 50 * 1)%Z) with true.
  cbn [negb]. cbv iota zeta.
  change (Z.to_nat 1) with 1%nat. cbn [records map].
  unfold facet_vertices, vertex_at, f32_at. eval_u32.
  rewrite float32_value_one, float32_value_zero. reflexivity.
Qed.

Example text_file_triangles :
  _parse_stl_ascii digits_float text_file = Ok [[(0, 0, 0); (1, 0, 0); (0, 1, 0)]].
Proof. vm_compute. reflexivity. Qed.

Lemma text_file_malformed_line :
  malformed_vertex_line digits_float "  vertex 0 1e 0".
Proof. unfold malformed_vertex_line. vm_compute. repeat split; auto. Qed.

(** The facet of [one_facet_file] after deduplication: the nodes are sorted
    by coordinates, and the face is remapped to them. *)
Example one_facet_load :
  load_stl ascii_text digits_float float32_value one_facet_file true 12 =
  Ok ([(0, 0, 0); (0, 1, 0); (1, 0, 0)], [(0, 2, 1)%Z]).
Proof.
  unfold load_stl. rewrite one_facet_triangles. cbn [Py.bind concat app].
  unfold _unique_rows_tol, round_row, vx, vy, vz. cbn [map fst snd].
  rewrite !np_round_IZR by lia.
  unfold Np.unique, Np.sort_pairs, Np.enumerate, row_ltb, row_eqb, vx, vy, vz.
  repeat (progress (cbn; rcompare)). reflexivity.
Qed.

(** The area of the loaded mesh is the area of the triangle of the file. *)
Example one_facet_area :
  surface_area [(0, 0, 0); (0, 1, 0); (1, 0, 0)] [(0, 2, 1)%Z] = Ok (1 / 2) /\
  surface_area [(0, 0, 0); (1, 0, 0); (0, 1, 0)] [(0, 1, 2)%Z] = Ok (1 / 2).
Proof.
  split; rewrite surface_area_rows; cbn; f_equal; unfold triangle_area;
    rewrite (@norm_eval _ 1); reval; lra.
Qed.

Lemma load_stl_deduplicates_witness :
  StronglySorted row_lt (map (round_row 12) [(0, 0, 0); (0, 1, 0); (1, 0, 0)]) /\
  length [(0, 2, 1)%Z] = length [[(0, 0, 0); (1, 0, 0); (0, 1, 0)]] /\
  length (face_entries [(0, 2, 1)%Z]) =
    length (concat [[(0, 0, 0); (1, 0, 0); (0, 1, 0)]]) /\
  (forall i p,
     nth_error (concat [[(0, 0, 0); (1, 0, 0); (0, 1, 0)]]) i = Some p ->
     exists g q i0,
       nth_error (face_entries [(0, 2, 1)%Z]) i = Some (Z.of_nat g) /\
       nth_error [(0, 0, 0); (0, 1, 0); (1, 0, 0)] g = Some q /\
       nth_error (concat [[(0, 0, 0); (1, 0, 0); (0, 1, 0)]]) i0 = Some q /\
       round_row 12 q = round_row 12 p /\
       forall i' p',
         nth_error (concat [[(0, 0, 0); (1, 0, 0); (0, 1, 0)]]) i' = Some p' ->
         round_row 12 p' = round_row 12 p -> (i0 <= i')%nat) /\
  (forall g q,
     nth_error [(0, 0, 0); (0, 1, 0); (1, 0, 0)] g = Some q ->
     exists i0,
       nth_error (concat [[(0, 0, 0); (1, 0, 0); (0, 1, 0)]]) i0 = Some q /\
       nth_error (face_entries [(0, 2, 1)%Z]) i0 = Some (Z.of_nat g)).
Proof.
  exact (load_stl_deduplicates ascii_text digits_float float32_value
           one_facet_file 12 one_facet_triangles one_facet_load).
Defined.

(** The text file as bytes: longer than 84 bytes, and not a binary file. *)
Definition text_file_bytes : list byte := list_byte_of_string text_file.

Lemma text_file_not_binary : ~ is_binary text_file_bytes.
Proof. intros [_ H]. vm_compute in H. discriminate. Qed.

Example text_file_load :
  load_stl ascii_text digits_float float32_value text_file_bytes false 12 =
  Ok ([(0, 0, 0); (1, 0, 0); (0, 1, 0)], [(0, 1, 2)%Z]).
Proof. vm_compute. reflexivity. Qed.

Lemma stl_binary_or_text_witness :
  (stl_triangles ascii_text digits_float float32_value one_facet_file =
     Ok (map (facet_vertices float32_value)
             (records (Z.to_nat (declared_count one_facet_file)) (skipn 84 one_facet_file))) /\
   stl_triangles ascii_text digits_float float32_value one_facet_file =
     _parse_stl_binary float32_value one_facet_file) /\
  stl_triangles ascii_text digits_float float32_value text_file_bytes =
    text_triangles ascii_text digits_float text_file_bytes /\
  (forall before after st,
     parse_line digits_float st "  vertex 0 1e 0" = st /\
     fold_left (parse_line digits_float) (before ++ "  vertex 0 1e 0" :: after)%list st =
     fold_left (parse_line digits_float) (before ++ after)%list st).
Proof.
  split; [|split].
  - apply (proj1 (stl_binary_or_text ascii_text digits_float float32_value one_facet_file)).
    split; [cbn; lia | reflexivity].
  - apply (proj1 (proj2 (stl_binary_or_text ascii_text digits_float float32_value
                           text_file_bytes))).
    exact text_file_not_binary.
  - intros before after st.
    apply (proj1 (proj2 (proj2 (stl_binary_or_text ascii_text digits_float float32_value
                                  text_file_bytes)))).
    exact text_file_malformed_line.
Defined.

Lemma load_stl_unmerged_witness :
  load_stl ascii_text digits_float float32_value one_facet_file false 12 =
  Ok (concat [[(0, 0, 0); (1, 0, 0); (0, 1, 0)]],
      map (fun k => (Z.of_nat (3 * k), Z.of_nat (3 * k + 1), Z.of_nat (3 * k + 2)))
          (seq 0 (length [[(0, 0, 0); (1, 0, 0); (0, 1, 0)]]))) /\
  length (concat [[(0, 0, 0); (1, 0, 0); (0, 1, 0)]]) =
  (3 * length [[(0, 0, 0); (1, 0, 0); (0, 1, 0)]])%nat.
Proof. apply load_stl_unmerged. exact one_facet_triangles. Defined.

Lemma load_stl_mesh_is_valid_witness :
  Forall (fun i => (0 <= i < Z.of_nat (length [(0, 0, 0); (0, 1, 0); (1, 0, 0)]))%Z)
         (face_entries [(0, 2, 1)%Z]) /\
  faces_used [(0, 0, 0); (0, 1, 0); (1, 0, 0)] [(0, 2, 1)%Z] = [(0, 2, 1)%Z] /\
  exists a, surface_area [(0, 0, 0); (0, 1, 0); (1, 0, 0)] [(0, 2, 1)%Z] = Ok a /\ 0 <= a.
Proof.
  exact (load_stl_mesh_is_valid ascii_text digits_float float32_value
           one_facet_file true 12 one_facet_load).
Defined.

Lemma one_facet_rounding_injective (p q : vec3) :
  In p (concat [[(0, 0, 0); (1, 0, 0); (0, 1, 0)]]) ->
  In q (concat [[(0, 0, 0); (1, 0, 0); (0, 1, 0)]]) ->
  round_row 12 p = round_row 12 q -> p = q.
Proof.
  assert (Hid : forall r, In r (concat [[(0, 0, 0); (1, 0, 0); (0, 1, 0)]]) ->
                          round_row 12 r = r).
  { intros r Hr. cbn in Hr.
    repeat (destruct Hr as [<- | Hr];
            [unfold round_row, vx, vy, vz; cbn [fst snd];
             now rewrite !np_round_IZR by lia|]).
    contradiction. }
  intros Hp Hq H. now rewrite (Hid p Hp), (Hid q Hq) in H.
Qed.

Lemma load_stl_area_witness :
  exists nodes faces,
    load_stl ascii_text digits_float float32_value one_facet_file true 12 =
    Ok (nodes, faces) /\
    surface_area nodes faces =
    Ok (rsum (map file_triangle_area [[(0, 0, 0); (1, 0, 0); (0, 1, 0)]])).
Proof.
  apply load_stl_area; [exact one_facet_triangles | exact one_facet_rounding_injective].
Defined.

End Io.
